(** * bible-to-markdown: footnote reference extraction and inline linking

    A shallow embedding of [FootnotesParser] (services/footnotes.ts) and of
    [MarkdownGenerator.processFootnoteContent] (services/markdown.ts),
    together with the fragment of the JavaScript runtime they rely on:
    strings as sequences of UTF-16 code units, [parseInt], [trim],
    [indexOf]/[lastIndexOf], property lookup on an object literal, and a
    backtracking regular-expression matcher. *)

From Stdlib Require Import String Ascii DecimalString DecimalPos List Arith NArith ZArith Bool Lia.
Import ListNotations.



(** ** JavaScript strings *)

Module JS.

(** A string is its sequence of UTF-16 code units; [length] and every index
    below count code units, as [String.prototype.length] does. *)
Definition jstring := list N.

(** ASCII literals. *)
Definition js (s : string) : jstring :=
  map N_of_ascii (list_ascii_of_string s).

Definition jstring_eqb (a b : jstring) : bool :=
  if list_eq_dec N.eq_dec a b then true else false.

(** [s.substring(a, b)] for [a <= b]; indices past the end are clamped. *)
Definition substring (s : jstring) (a b : nat) : jstring :=
  firstn (b - a) (skipn a s).

(** [s.substring(a)]. *)
Definition substringFrom (s : jstring) (a : nat) : jstring := skipn a s.

Fixpoint startsWith (p s : jstring) : bool :=
  match p, s with
  | [], _ => true
  | c :: p', d :: s' => N.eqb c d && startsWith p' s'
  | _ :: _, [] => false
  end.

(** [s.indexOf(p)]: [None] stands for -1. *)
Fixpoint indexOf_from (p s : jstring) (i : nat) : option nat :=
  if startsWith p s then Some i
  else match s with
       | [] => None
       | _ :: s' => indexOf_from p s' (S i)
       end.

Definition indexOf (s p : jstring) : option nat := indexOf_from p s 0.

(** [s.lastIndexOf(p)]: the largest index at which [p] occurs. *)
Fixpoint lastIndexOf_from (p s : jstring) (i : nat) : option nat :=
  match s with
  | [] => if startsWith p [] then Some i else None
  | _ :: s' =>
      match lastIndexOf_from p s' (S i) with
      | Some j => Some j
      | None => if startsWith p s then Some i else None
      end
  end.

Definition lastIndexOf (s p : jstring) : option nat := lastIndexOf_from p s 0.

(** The result of [indexOf]/[lastIndexOf] as the integer JavaScript returns. *)
Definition idx (o : option nat) : Z :=
  match o with Some i => Z.of_nat i | None => (-1)%Z end.

(** *** Character classes *)

Definition in_range (lo hi c : N) : bool := (N.leb lo c && N.leb c hi)%bool.

(** [\d] *)
Definition isDigit (c : N) : bool := in_range 48 57 c.

(** [\w]: [A-Za-z0-9_] *)
Definition isWord (c : N) : bool :=
  (in_range 65 90 c || in_range 97 122 c || isDigit c || N.eqb c 95)%bool.

(** [\s], which is also what [trim] and [parseInt] strip: WhiteSpace and
    LineTerminator code points. *)
Definition isSpace (c : N) : bool :=
  (in_range 9 13 c || N.eqb c 32 || N.eqb c 160 || N.eqb c 5760
   || in_range 8192 8202 c || N.eqb c 8232 || N.eqb c 8233
   || N.eqb c 8239 || N.eqb c 8287 || N.eqb c 12288 || N.eqb c 65279)%bool.

Definition isAlpha (c : N) : bool :=
  (in_range 65 90 c || in_range 97 122 c)%bool.

Fixpoint trimStart (s : jstring) : jstring :=
  match s with
  | c :: s' => if isSpace c then trimStart s' else s
  | [] => []
  end.

Definition trimEnd (s : jstring) : jstring := rev (trimStart (rev s)).

(** [s.trim()] *)
Definition trim (s : jstring) : jstring := trimEnd (trimStart s).

End JS.
Import JS.

(** ** Regular expressions

    The patterns of the two services use literals, classes, greedy
    quantifiers, capture groups, anchors, [\b], negative lookahead and
    fixed-width negative lookbehind.  The matcher is the backtracking matcher
    of the language definition in continuation-passing style: the continuation
    is the rest of the pattern, and a failure of the continuation makes the
    matcher try its next alternative. *)

Module Regex.

Inductive cset : Type :=
| CChar (c : N)                (* a literal code unit *)
| CDigit                       (* \d *)
| CWord                        (* \w *)
| CSpace                       (* \s *)
| CAlpha                       (* [A-Za-z] *)
| COneOf (cs : jstring)        (* [abc] *)
| CNoneOf (cs : jstring).      (* [^abc] *)

Definition cmatch (cl : cset) (c : N) : bool :=
  match cl with
  | CChar d => N.eqb c d
  | CDigit => isDigit c
  | CWord => isWord c
  | CSpace => isSpace c
  | CAlpha => isAlpha c
  | COneOf cs => existsb (N.eqb c) cs
  | CNoneOf cs => negb (existsb (N.eqb c) cs)
  end.

Inductive regex : Type :=
| REps                                  (* empty pattern *)
| RSet (cl : cset)                      (* one code unit of a class *)
| RSeq (a b : regex)                    (* ab *)
| RStar (a : regex)                     (* a*  (greedy) *)
| ROpt (a : regex)                      (* a?  (greedy) *)
| RGroup (n : nat) (a : regex)          (* capture group number n *)
| RBol                                  (* ^ *)
| REol                                  (* $ *)
| RWordB                                (* \b *)
| RNotBehind (cls : list cset)          (* (?<!...) over a fixed-width sequence *)
| RNotAhead (a : regex).                (* (?!a) *)

(** a+ *)
Definition RPlus (a : regex) : regex := RSeq a (RStar a).

(** A literal string. *)
Fixpoint RLit (s : jstring) : regex :=
  match s with
  | [] => REps
  | c :: s' => RSeq (RSet (CChar c)) (RLit s')
  end.

(** Captures: group number to the half-open range it matched. *)
Definition caps := list (nat * (nat * nat)).

Fixpoint cap (c : caps) (n : nat) : option (nat * nat) :=
  match c with
  | [] => None
  | (m, r) :: c' => if Nat.eqb m n then Some r else cap c' n
  end.

Definition result := (nat * caps)%type.
Definition cont := nat -> caps -> option result.

Definition orElse (a b : option result) : option result :=
  match a with Some x => Some x | None => b end.

(** The greedy repetition: another iteration first, provided it consumes
    input (an empty iteration is rejected), the rest of the pattern
    otherwise.  At most [length s - i] iterations can consume input. *)
Fixpoint star_loop (ma : nat -> caps -> cont -> option result) (k : cont)
    (n : nat) (i : nat) (c : caps) : option result :=
  match n with
  | 0 => k i c
  | S n' =>
      orElse
        (ma i c (fun j c' => if Nat.ltb i j then star_loop ma k n' j c' else None))
        (k i c)
  end.

Definition wordAt (s : jstring) (i : nat) : bool :=
  match nth_error s i with Some ch => isWord ch | None => false end.

Definition wordBefore (s : jstring) (i : nat) : bool :=
  match i with 0 => false | S j => wordAt s j end.

(** Do the code units just before [i] match [cls], in order? *)
Definition behind (s : jstring) (i : nat) (cls : list cset) : bool :=
  (Nat.leb (length cls) i
   && forallb (fun p => cmatch (fst p) (snd p))
        (combine cls (substring s (i - length cls) i))
   && Nat.eqb (length (substring s (i - length cls) i)) (length cls))%bool.

Fixpoint m (r : regex) (s : jstring) (i : nat) (c : caps) (k : cont)
    {struct r} : option result :=
  match r with
  | REps => k i c
  | RSet cl =>
      match nth_error s i with
      | Some ch => if cmatch cl ch then k (S i) c else None
      | None => None
      end
  | RSeq a b => m a s i c (fun j c' => m b s j c' k)
  | RStar a => star_loop (m a s) k (S (length s - i)) i c
  | ROpt a =>
      orElse (m a s i c (fun j c' => if Nat.ltb i j then k j c' else None))
             (k i c)
  | RGroup n a => m a s i c (fun j c' => k j ((n, (i, j)) :: c'))
  | RBol => if Nat.eqb i 0 then k i c else None
  | REol => if Nat.eqb i (length s) then k i c else None
  | RWordB => if xorb (wordBefore s i) (wordAt s i) then k i c else None
  | RNotBehind cls => if behind s i cls then None else k i c
  | RNotAhead a =>
      match m a s i c (fun j c' => Some (j, c')) with
      | Some _ => None
      | None => k i c
      end
  end.

(** A successful match: where it starts, where it ends, what it captured. *)
Record rmatch : Type := { m_index : nat; m_end : nat; m_caps : caps }.

Definition matchAt (r : regex) (s : jstring) (i : nat) : option rmatch :=
  match m r s i [] (fun j c => Some (j, c)) with
  | Some (j, c) => Some {| m_index := i; m_end := j; m_caps := c |}
  | None => None
  end.

(** The leftmost match starting at [i], [i+1], ..., trying [n] positions. *)
Fixpoint scan (r : regex) (s : jstring) (n : nat) (i : nat) : option rmatch :=
  match n with
  | 0 => None
  | S n' =>
      match matchAt r s i with
      | Some mt => Some mt
      | None => scan r s n' (S i)
      end
  end.

(** [r.exec(s)] for a pattern with the [g] flag whose [lastIndex] is
    [lastIndex]; on success the engine sets [lastIndex] to [m_end]. *)
Definition exec (r : regex) (s : jstring) (lastIndex : nat) : option rmatch :=
  scan r s (S (length s) - lastIndex) lastIndex.

(** [s.match(r)] for a pattern without the [g] flag. *)
Definition match_ (r : regex) (s : jstring) : option rmatch := exec r s 0.

(** The text of the whole match and of a capture group ([None]: undefined). *)
Definition matched (s : jstring) (mt : rmatch) : jstring :=
  substring s (m_index mt) (m_end mt).

Definition group (s : jstring) (mt : rmatch) (n : nat) : option jstring :=
  match cap (m_caps mt) n with
  | Some (a, b) => Some (substring s a b)
  | None => None
  end.

(** After a match the next search starts at its end, one further when the
    match was empty. *)
Definition nextIndex (mt : rmatch) : nat :=
  if Nat.eqb (m_end mt) (m_index mt) then S (m_end mt) else m_end mt.

(** All matches of a [g] pattern, as [String.prototype.match] and
    [String.prototype.replace] enumerate them. *)
Fixpoint allMatches (r : regex) (s : jstring) (n : nat) (i : nat) : list rmatch :=
  match n with
  | 0 => []
  | S n' =>
      match exec r s i with
      | Some mt => mt :: allMatches r s n' (nextIndex mt)
      | None => []
      end
  end.

(** [s.match(r)] with the [g] flag: the matched texts ([[]] stands for null). *)
Definition matchAll (r : regex) (s : jstring) : list jstring :=
  map (matched s) (allMatches r s (S (length s)) 0).

(** [s.replace(r, f)] with the [g] flag and a callback. *)
Fixpoint splice (s : jstring) (f : rmatch -> jstring) (ms : list rmatch)
    (from : nat) : jstring :=
  match ms with
  | [] => substringFrom s from
  | mt :: ms' =>
      substring s from (m_index mt) ++ f mt ++ splice s f ms' (m_end mt)
  end.

Definition replaceAll (r : regex) (s : jstring) (f : rmatch -> jstring) : jstring :=
  splice s f (allMatches r s (S (length s)) 0) 0.

End Regex.
Import Regex.

(** A pattern written as the sequence of its parts. *)
Definition RCat (rs : list regex) : regex := fold_right RSeq REps rs.

(** ** Numbers and property lookup *)

Module JSValue.

(** A number that is an integer, or NaN.  Integers stand for themselves: the
    rounding of magnitudes above 2^53 to the nearest double is not modelled,
    and neither is the exponent notation that printing uses from 10^21 on. *)
Inductive jsnum : Type := NaN | Num (z : Z).

Definition num_truthy (n : jsnum) : bool :=
  match n with NaN => false | Num z => negb (Z.eqb z 0) end.

Definition isNaN (n : jsnum) : bool :=
  match n with NaN => true | Num _ => false end.

Definition digitVal (c : N) : option Z :=
  if in_range 48 57 c then Some (Z.of_N c - 48)%Z
  else if in_range 97 122 c then Some (Z.of_N c - 87)%Z
  else if in_range 65 90 c then Some (Z.of_N c - 55)%Z
  else None.

(** The longest prefix of radix-[R] digits, read as a number; [None] when
    there is no digit at all. *)
Fixpoint digits (R : Z) (s : jstring) (acc : option Z) : option Z :=
  match s with
  | [] => acc
  | c :: s' =>
      match digitVal c with
      | Some d =>
          if (d <? R)%Z
          then digits R s' (Some (match acc with Some a => a * R + d | None => d end)%Z)
          else acc
      | None => acc
      end
  end.

(** [parseInt(s)] without a radix: leading white space, a sign, a [0x]
    prefix, then digits; trailing text is ignored.  The value is the one
    the digits denote, which is the value of the source up to 2^53. *)
Definition parseInt (s : jstring) : jsnum :=
  let s1 := trimStart s in
  let '(sign, s2) :=
    match s1 with
    | 45%N :: t => ((-1)%Z, t)
    | 43%N :: t => (1%Z, t)
    | _ => (1%Z, s1)
    end in
  let '(R, s3) :=
    match s2 with
    | 48%N :: 120%N :: t => (16%Z, t)
    | 48%N :: 88%N :: t => (16%Z, t)
    | _ => (10%Z, s2)
    end in
  match digits R s3 None with
  | Some v => Num (sign * v)
  | None => NaN
  end.

Definition Z_to_js (z : Z) : jstring :=
  js (NilZero.string_of_int (Z.to_int z)).

(** A number inside a template literal: its decimal digits, which is what
    the source prints below 10^21. *)
Definition num_to_js (n : jsnum) : jstring :=
  match n with NaN => js "NaN" | Num z => Z_to_js z end.

(** An optional number inside a template literal. *)
Definition optnum_to_js (n : option jsnum) : jstring :=
  match n with None => js "undefined" | Some v => num_to_js v end.

(** What a property read can yield here: a string, or one of the members
    that every object inherits from [Object.prototype]. *)
Inductive jsval : Type :=
| VStr (s : jstring)
| VInherited (name : jstring).

Definition objectPrototypeKeys : list jstring :=
  map js ["constructor"; "__defineGetter__"; "__defineSetter__";
          "hasOwnProperty"; "__lookupGetter__"; "__lookupSetter__";
          "isPrototypeOf"; "propertyIsEnumerable"; "toString"; "valueOf";
          "__proto__"; "toLocaleString"]%string.

Fixpoint ownProp (obj : list (jstring * jstring)) (k : jstring) : option jstring :=
  match obj with
  | [] => None
  | (k', v) :: obj' => if jstring_eqb k' k then Some v else ownProp obj' k
  end.

(** [obj[k]] on an object literal with string values: an own property, else
    an inherited one, else undefined ([None]). *)
Definition getProp (obj : list (jstring * jstring)) (k : jstring) : option jsval :=
  match ownProp obj k with
  | Some v => Some (VStr v)
  | None =>
      if existsb (jstring_eqb k) objectPrototypeKeys
      then Some (VInherited k) else None
  end.

Definition truthy (v : option jsval) : bool :=
  match v with
  | None => false
  | Some (VStr s) => negb (jstring_eqb s [])
  | Some (VInherited _) => true
  end.

(** [a || b] *)
Definition or_else (a : option jsval) (b : jsval) : jsval :=
  match a with
  | Some v => if truthy a then v else b
  | None => b
  end.

(** A value inside a template literal.  The inherited members are functions,
    printed as their source text, but for [__proto__], a plain object. *)
Definition val_to_js (v : jsval) : jstring :=
  match v with
  | VStr s => s
  | VInherited name =>
      if jstring_eqb name (js "__proto__") then js "[object Object]"
      else js "function "
           ++ (if jstring_eqb name (js "constructor") then js "Object" else name)
           ++ js "() { [native code] }"
  end.

Definition jsval_eqb (a b : jsval) : bool :=
  match a, b with
  | VStr x, VStr y => jstring_eqb x y
  | VInherited x, VInherited y => jstring_eqb x y
  | _, _ => false
  end.

End JSValue.
Import JSValue.

(** ** The data model (types/index.ts) *)

Record VerseReference : Type := {
  book : jsval;
  chapter : jsnum;
  verse : option jsnum;
  endVerse : option jsnum;
  display : jstring
}.

Record ParsedFootnote : Type := {
  id : jstring;
  number : Z;
  type : jstring;
  content : jstring;
  verseReferences : list VerseReference
}.

(** The double quote. *)
Definition dq : jstring := [34%N].

(** The abbreviation table, shared by [FootnotesParser.expandBookName] and
    [MarkdownGenerator.expandBookCode]. *)
Definition bookMap : list (jstring * jstring) :=
  map (fun p => (js (fst p), js (snd p)))
  [("Mt", "Matthew"); ("Mk", "Mark"); ("Lk", "Luke"); ("Lu", "Luke");
   ("Jn", "John"); ("Ac", "Acts"); ("Ro", "Romans");
   ("1Co", "1 Corinthians"); ("2Co", "2 Corinthians"); ("Ga", "Galatians");
   ("Eph", "Ephesians"); ("Php", "Philippians"); ("Col", "Colossians");
   ("1Th", "1 Thessalonians"); ("2Th", "2 Thessalonians");
   ("1Ti", "1 Timothy"); ("2Ti", "2 Timothy"); ("Tit", "Titus");
   ("Phm", "Philemon"); ("Heb", "Hebrews"); ("Jas", "James");
   ("1Pe", "1 Peter"); ("2Pe", "2 Peter"); ("1Jn", "1 John");
   ("2Jn", "2 John"); ("3Jn", "3 John"); ("Jud", "Jude");
   ("Re", "Revelation"); ("Ge", "Genesis"); ("Ex", "Exodus");
   ("Le", "Leviticus"); ("Nu", "Numbers"); ("De", "Deuteronomy");
   ("Jos", "Joshua"); ("Jdg", "Judges"); ("Ru", "Ruth");
   ("1Sa", "1 Samuel"); ("2Sa", "2 Samuel"); ("1Ki", "1 Kings");
   ("2Ki", "2 Kings"); ("1Ch", "1 Chronicles"); ("2Ch", "2 Chronicles");
   ("Ezr", "Ezra"); ("Ne", "Nehemiah"); ("Es", "Esther"); ("Job", "Job");
   ("Ps", "Psalms"); ("Pr", "Proverbs"); ("Ec", "Ecclesiastes");
   ("So", "Song of Solomon"); ("Is", "Isaiah"); ("Jer", "Jeremiah");
   ("La", "Lamentations"); ("Eze", "Ezekiel"); ("Da", "Daniel");
   ("Ho", "Hosea"); ("Joe", "Joel"); ("Am", "Amos"); ("Ob", "Obadiah");
   ("Jon", "Jonah"); ("Mic", "Micah"); ("Na", "Nahum"); ("Hab", "Habakkuk");
   ("Zep", "Zephaniah"); ("Hag", "Haggai"); ("Zec", "Zechariah");
   ("Mal", "Malachi")]%string.

(** ** FootnotesParser (services/footnotes.ts) *)

Module FootnotesParser.

(** [bookMap[code] || code] *)
Definition expandBookName (code : jstring) : jsval :=
  or_else (getProp bookMap code) (VStr code).

Definition validBooks : list jstring :=
  map js
  ["Genesis"; "Exodus"; "Leviticus"; "Numbers"; "Deuteronomy";
   "Joshua"; "Judges"; "Ruth"; "1 Samuel"; "2 Samuel";
   "1 Kings"; "2 Kings"; "1 Chronicles"; "2 Chronicles";
   "Ezra"; "Nehemiah"; "Esther"; "Job"; "Psalms";
   "Proverbs"; "Ecclesiastes"; "Song of Solomon";
   "Isaiah"; "Jeremiah"; "Lamentations"; "Ezekiel"; "Daniel";
   "Hosea"; "Joel"; "Amos"; "Obadiah"; "Jonah"; "Micah";
   "Nahum"; "Habakkuk"; "Zephaniah"; "Haggai"; "Zechariah"; "Malachi";
   "Matthew"; "Mark"; "Luke"; "John"; "Acts";
   "Romans"; "1 Corinthians"; "2 Corinthians"; "Galatians";
   "Ephesians"; "Philippians"; "Colossians";
   "1 Thessalonians"; "2 Thessalonians"; "1 Timothy"; "2 Timothy";
   "Titus"; "Philemon"; "Hebrews"; "James";
   "1 Peter"; "2 Peter"; "1 John"; "2 John"; "3 John";
   "Jude"; "Revelation"]%string.

(** [validBooks.includes(name)] *)
Definition isValidBookName (name : jsval) : bool :=
  existsb (fun b => jsval_eqb (VStr b) name) validBooks.

(** [(\d+):(\d+)(?:-(\d+))?] with the groups numbered from [g]. *)
Definition chapterVerse (g : nat) : list regex :=
  [RGroup g (RPlus (RSet CDigit)); RSet (CChar 58);
   RGroup (S g) (RPlus (RSet CDigit));
   ROpt (RSeq (RSet (CChar 45)) (RGroup (S (S g)) (RPlus (RSet CDigit))))].

(** [/<data ref=%Bible:([^%]+)%>([^<]+)<\/data>/], with % written for the
    double quote *)
Definition dataRefParts : list regex :=
  [RLit (js "<data ref=" ++ dq ++ js "Bible:");
   RGroup 1 (RPlus (RSet (CNoneOf dq)));
   RLit (dq ++ js ">");
   RGroup 2 (RPlus (RSet (CNoneOf (js "<"))));
   RLit (js "</data>")].

Definition dataRefPattern : regex := RCat dataRefParts.

(** The same pattern between [^] and [$]. *)
Definition dataRefAnchored : regex := RCat ([RBol] ++ dataRefParts ++ [REol]).

(** [/^Bible:(\w+)\s+(\d+):(\d+)(?:-(\d+))?$/] *)
Definition refGrammar : regex :=
  RCat ([RBol; RLit (js "Bible:"); RGroup 1 (RPlus (RSet CWord));
         RPlus (RSet CSpace)] ++ chapterVerse 2 ++ [REol]).

(** [/\b(\d?\s*\w+)\s+(\d+):(\d+)(?:-(\d+))?\b/g] *)
Definition pattern1 : regex :=
  RCat ([RWordB;
         RGroup 1 (RCat [ROpt (RSet CDigit); RStar (RSet CSpace); RPlus (RSet CWord)]);
         RPlus (RSet CSpace)] ++ chapterVerse 2 ++ [RWordB]).

(** [/\b(\w+)\s+(\d+):(\d+)(?:-(\d+))?\b/g] *)
Definition pattern2 : regex :=
  RCat ([RWordB; RGroup 1 (RPlus (RSet CWord));
         RPlus (RSet CSpace)] ++ chapterVerse 2 ++ [RWordB]).

Definition patterns : list regex := [pattern1; pattern2].

(** A captured group that took part in the match; an undefined group reads
    as the empty string here, and only groups that always take part are read
    this way. *)
Definition grp (s : jstring) (mt : rmatch) (n : nat) : jstring :=
  match group s mt n with Some t => t | None => [] end.

(** [endVerse ? parseInt(endVerse) : undefined] *)
Definition optParse (o : option jstring) : option jsnum :=
  match o with
  | Some t => if jstring_eqb t [] then None else Some (parseInt t)
  | None => None
  end.

(** [parseDataRef(ref, display)]; [None] stands for null. *)
Definition parseDataRef (ref display_ : jstring) : option VerseReference :=
  match match_ refGrammar ref with
  | None => None
  | Some mt =>
      Some {| book := expandBookName (grp ref mt 1);
              chapter := parseInt (grp ref mt 2);
              verse := Some (parseInt (grp ref mt 3));
              endVerse := optParse (group ref mt 4);
              display := display_ |}
  end.

(** The body of the [while] loop of [findBibleReferences] for one match:
    the record it pushes, if it pushes one. *)
Definition referenceOfMatch (text : jstring) (mt : rmatch) : option VerseReference :=
  let book_ := expandBookName (trim (grp text mt 1)) in
  if isValidBookName book_
  then Some {| book := book_;
               chapter := parseInt (grp text mt 2);
               verse := Some (parseInt (grp text mt 3));
               endVerse := optParse (group text mt 4);
               display := matched text mt |}
  else None.

(** [references.push(r)], when there is an [r]. *)
Definition pushOpt (references : list VerseReference) (o : option VerseReference) :=
  match o with Some r => references ++ [r] | None => references end.

(** [while ((match = pattern.exec(text)) !== null) { ... }]: [lastIndex] is
    the pattern's own cursor, moved by [exec] alone.  [None]: the loop is
    still running when the fuel is spent. *)
Fixpoint findLoop (fuel : nat) (pattern : regex) (text : jstring)
    (lastIndex : nat) (references : list VerseReference)
    : option (list VerseReference) :=
  match fuel with
  | 0 => None
  | S fuel' =>
      match exec pattern text lastIndex with
      | None => Some references
      | Some mt =>
          findLoop fuel' pattern text (m_end mt)
            (pushOpt references (referenceOfMatch text mt))
      end
  end.

(** [patterns.forEach(pattern => ...)] *)
Fixpoint findPatterns (fuel : nat) (ps : list regex) (text : jstring)
    (references : list VerseReference) : option (list VerseReference) :=
  match ps with
  | [] => Some references
  | p :: ps' =>
      match findLoop fuel p text 0 references with
      | Some references' => findPatterns fuel ps' text references'
      | None => None
      end
  end.

(** Every turn of the loop moves [lastIndex] forward, so that
    [length text + 2] turns are enough for each pattern
    ([ParserFacts.findLoop_terminates]). *)
Definition findBibleReferences (text : jstring) : option (list VerseReference) :=
  findPatterns (S (S (length text))) patterns text [].

(** What cheerio reports about one [.note] element: every query that
    [parseFootnotes] and [extractVerseReferences] make of it. *)
Record NoteElement : Type := {
  superText : jstring;          (* $note.find('.noteNoteSuper').text() *)
  superId : option jstring;     (* $note.find('.noteNoteSuper').attr('id') *)
  typeText : jstring;           (* $note.find('.notetype').text() *)
  bodyText : jstring;           (* text() of the clone without sup and .notetype *)
  innerHtml : option jstring;   (* $note.html() *)
  fullText : jstring            (* $note.text() *)
}.

(** The references of the explicit [data] tags of a note. *)
Definition dataRefReferences (html : jstring) : list VerseReference :=
  fold_left
    (fun references match0 =>
       match match_ dataRefAnchored match0 with
       | Some mt =>
           pushOpt references
             (parseDataRef (js "Bible:" ++ grp match0 mt 1) (grp match0 mt 2))
       | None => references
       end)
    (matchAll dataRefPattern html) [].

(** The text scan runs only when the explicit tags gave no reference. *)
Definition extractVerseReferences (note : NoteElement) : option (list VerseReference) :=
  let html := match innerHtml note with Some h => h | None => [] end in
  let references := dataRefReferences html in
  match references with
  | [] =>
      match findBibleReferences (fullText note) with
      | Some additionalRefs => Some (references ++ additionalRefs)
      | None => None
      end
  | _ :: _ => Some references
  end.

(** [content.replace(/\s+/g, ' ').trim()] *)
Definition cleanContent (s : jstring) : jstring :=
  trim (replaceAll (RPlus (RSet CSpace)) s (fun _ => js " ")).

(** The number of a note: null ([None]) when the marker has no text. *)
Definition noteNumber (note : NoteElement) : option jsnum :=
  let numberText := trim (superText note) in
  if jstring_eqb numberText [] then None else Some (parseInt numberText).

(** [`note_${number || 'unknown'}`] *)
Definition defaultId (number_ : option jsnum) : jstring :=
  js "note_"
  ++ match number_ with
     | Some n => if num_truthy n then num_to_js n else js "unknown"
     | None => js "unknown"
     end.

(** [numberEl.attr('id') || `note_${number || 'unknown'}`] *)
Definition noteId (note : NoteElement) (number_ : option jsnum) : jstring :=
  match superId note with
  | Some i => if jstring_eqb i [] then defaultId number_ else i
  | None => defaultId number_
  end.

(** The callback of [$('.note').each]: the footnote it pushes, if any.  The
    outer [None] stands for a callback that does not return. *)
Definition parseNote (note : NoteElement) : option (option ParsedFootnote) :=
  let number_ := noteNumber note in
  let id_ := noteId note number_ in
  let type_ := trim (typeText note) in
  let content0 := trim (bodyText note) in
  match extractVerseReferences note with
  | None => None
  | Some refs =>
      let content_ := cleanContent content0 in
      match number_ with
      | Some (Num z) =>
          if negb (jstring_eqb content_ [])
          then Some (Some {| id := id_; number := z; type := type_;
                             content := content_; verseReferences := refs |})
          else Some None
      | _ => Some None
      end
  end.

Section Cheerio.

(** [cheerio.load(html)] followed by [$('.note')]: the note elements of the
    markup, in document order. *)
Variable selectNotes : jstring -> list NoteElement.

(** [$('.note').each((_, noteEl) => ...)] *)
Fixpoint eachNote (notes : list NoteElement) (footnotes : list ParsedFootnote)
    : option (list ParsedFootnote) :=
  match notes with
  | [] => Some footnotes
  | note :: notes' =>
      match parseNote note with
      | None => None
      | Some (Some f) => eachNote notes' (footnotes ++ [f])
      | Some None => eachNote notes' footnotes
      end
  end.

(** [parseFootnotes(html)]; [None] stands for a call that does not
    return. *)
Definition parseFootnotes (html : jstring) : option (list ParsedFootnote) :=
  eachNote (selectNotes html) [].

End Cheerio.

End FootnotesParser.

(** ** MarkdownGenerator (services/markdown.ts) *)

Module MarkdownGenerator.

(** [bookMap[code] || code], over the same table. *)
Definition expandBookCode (code : jstring) : jsval :=
  or_else (getProp bookMap code) (VStr code).

(** [generateVerseLink], the helper the unit tests exercise. *)
Definition generateVerseLink (ref : VerseReference) : jstring :=
  let verse_truthy := match verse ref with Some v => num_truthy v | None => false end in
  let endVerse_truthy := match endVerse ref with Some v => num_truthy v | None => false end in
  if (verse_truthy && endVerse_truthy)%bool then
    js "[[" ++ val_to_js (book ref) ++ js " " ++ num_to_js (chapter ref) ++ js "#"
    ++ optnum_to_js (verse ref) ++ js "|" ++ display ref ++ js "]]"
  else if verse_truthy then
    js "[[" ++ val_to_js (book ref) ++ js " " ++ num_to_js (chapter ref) ++ js "#"
    ++ optnum_to_js (verse ref) ++ js "|" ++ display ref ++ js "]]"
  else
    js "[[" ++ val_to_js (book ref) ++ js " " ++ num_to_js (chapter ref)
    ++ js "|" ++ display ref ++ js "]]".

(** *** Step 1: the [data] tags *)

(** [/^(\w+)\s+(\d+):(\d+)(?:-(\d+))?$/] *)
Definition refPattern : regex :=
  RCat ([RBol; RGroup 1 (RPlus (RSet CWord)); RPlus (RSet CSpace)]
        ++ FootnotesParser.chapterVerse 2 ++ [REol]).

Definition grp := FootnotesParser.grp.

(** The callback of the replacement of step 1. *)
Definition rewriteDataRef (processed : jstring) (mt : rmatch) : jstring :=
  let ref := grp processed mt 1 in
  let display_ := grp processed mt 2 in
  match match_ refPattern ref with
  | Some refMatch =>
      let book_ := expandBookCode (grp ref refMatch 1) in
      js "[[" ++ val_to_js book_ ++ js " " ++ grp ref refMatch 2 ++ js "#"
      ++ grp ref refMatch 3 ++ js "|" ++ display_ ++ js "]]"
  | None => display_
  end.

Definition rewriteDataRefs (processed : jstring) : jstring :=
  replaceAll FootnotesParser.dataRefPattern processed (rewriteDataRef processed).

(** *** Step 2: [/<[^>]+>/g] *)

Definition tagPattern : regex :=
  RCat [RSet (CChar 60); RPlus (RSet (CNoneOf (js ">"))); RSet (CChar 62)].

Definition stripTags (processed : jstring) : jstring :=
  replaceAll tagPattern processed (fun _ => []).

(** *** Step 3: the references of the footnote *)

Record range : Type := { r_start : nat; r_end : nat }.

(** [[...refs].sort((a, b) => b.display.length - a.display.length)]: the
    sort is stable, so references of equal length keep their order. *)
Fixpoint insertRef (x : VerseReference) (l : list VerseReference) : list VerseReference :=
  match l with
  | [] => [x]
  | y :: l' =>
      if Nat.leb (length (display y)) (length (display x))
      then x :: l
      else y :: insertRef x l'
  end.

Definition sortRefs (refs : list VerseReference) : list VerseReference :=
  fold_right insertRef [] refs.

(** [`[[${book} ${chapter}#${verse}|${display}]]`] *)
Definition wikiLink (ref : VerseReference) : jstring :=
  js "[[" ++ val_to_js (book ref) ++ js " " ++ num_to_js (chapter ref) ++ js "#"
  ++ optnum_to_js (verse ref) ++ js "|" ++ display ref ++ js "]]".

(** [new RegExp(`\\b${escaped}\\b`, 'g')], where [escaped] is the display
    text with a backslash put before each of [.*+?^${}()|[]\]: the display
    text taken literally, between two word boundaries. *)
Definition displayPattern (display_ : jstring) : regex :=
  RCat [RWordB; RLit display_; RWordB].

(** [linkedRanges.some(range => ...)]: the start or the end of the
    candidate lies in a claimed range. *)
Definition isAlreadyLinked (linkedRanges : list range) (matchStart matchEnd : nat) : bool :=
  existsb (fun range_ =>
             (Nat.leb (r_start range_) matchStart && Nat.ltb matchStart (r_end range_))
             || (Nat.ltb (r_start range_) matchEnd && Nat.leb matchEnd (r_end range_)))%bool
          linkedRanges.

(** The ranges after a substitution: the new one is recorded, then every
    range that starts at or after the end of the replaced text moves by the
    change of length. *)
Definition adjustRanges (linkedRanges : list range) (matchEnd adjustment : nat) : list range :=
  map (fun range_ =>
         if Nat.leb matchEnd (r_start range_)
         then {| r_start := r_start range_ + adjustment;
                 r_end := r_end range_ + adjustment |}
         else range_)
      linkedRanges.

(** The state of the inner loop: the text, the registry, and [lastIndex]. *)
Record lstate : Type := {
  processed : jstring;
  linkedRanges : list range;
  lastIndex : nat
}.

(** One turn of [while ((match = regex.exec(processed)) !== null)]; [None]
    when [exec] finds nothing and the loop ends.  The link is never shorter
    than the text it replaces, so [adjustment] is not negative. *)
Definition linkIter (ref : VerseReference) (st : lstate) : option lstate :=
  match exec (displayPattern (display ref)) (processed st) (lastIndex st) with
  | None => None
  | Some mt =>
      let matchStart := m_index mt in
      let matchEnd := m_end mt in
      if isAlreadyLinked (linkedRanges st) matchStart matchEnd
      then Some {| processed := processed st;
                   linkedRanges := linkedRanges st;
                   lastIndex := matchEnd |}
      else
        let link := wikiLink ref in
        let pushed := linkedRanges st
                      ++ [{| r_start := matchStart;
                             r_end := matchStart + length link |}] in
        let adjustment := length link - (matchEnd - matchStart) in
        Some {| processed := substring (processed st) 0 matchStart ++ link
                             ++ substringFrom (processed st) matchEnd;
                linkedRanges := adjustRanges pushed matchEnd adjustment;
                lastIndex := matchStart + length link |}
  end.

(** The inner loop; [None] when it is still running after [fuel] turns. *)
Fixpoint linkLoop (fuel : nat) (ref : VerseReference) (st : lstate) : option lstate :=
  match fuel with
  | 0 => None
  | S fuel' =>
      match linkIter ref st with
      | None => Some st
      | Some st' => linkLoop fuel' ref st'
      end
  end.

(** [sortedRefs.forEach(ref => ...)]: each reference has a pattern of its
    own, whose [lastIndex] starts at 0.  When the display text is not empty
    every turn brings [lastIndex] closer to the end of the text, and
    [length text + 1] turns are enough
    ([LinkingFacts.linkLoop_terminates]). *)
Fixpoint linkRefs (refs : list VerseReference) (text : jstring) (ranges : list range)
    : option (jstring * list range) :=
  match refs with
  | [] => Some (text, ranges)
  | ref :: refs' =>
      match linkLoop (S (length text)) ref
              {| processed := text; linkedRanges := ranges; lastIndex := 0 |} with
      | Some st => linkRefs refs' (processed st) (linkedRanges st)
      | None => None
      end
  end.

(** [if (footnote && footnote.verseReferences
    && footnote.verseReferences.length > 0) { ... }], with the registry the
    loops leave. *)
Definition linkReferences (text : jstring) (footnote : option ParsedFootnote)
    : option (jstring * list range) :=
  match footnote with
  | Some f =>
      match verseReferences f with
      | [] => Some (text, [])
      | _ :: _ => linkRefs (sortRefs (verseReferences f)) text []
      end
  | None => Some (text, [])
  end.

(** *** Step 4: chapter:verse without a book *)

(** [/note_([A-Za-z]+)_\d+_\d+/] *)
Definition idPattern : regex :=
  RCat [RLit (js "note_"); RGroup 1 (RPlus (RSet CAlpha)); RSet (CChar 95);
        RPlus (RSet CDigit); RSet (CChar 95); RPlus (RSet CDigit)].

(** [extractBookFromFootnote(footnote)]; [None] stands for null. *)
Definition extractBookFromFootnote (footnote : option ParsedFootnote) : option jstring :=
  match footnote with
  | Some f =>
      if jstring_eqb (id f) [] then None
      else match match_ idPattern (id f) with
           | Some bookMatch => Some (grp (id f) bookMatch 1)
           | None => None
           end
  | None => None
  end.

(** [/(?<!\[\[)(?<![#:])\b(\d+):(\d+)(?:-(\d+))?\b(?![^\[]*\]\])/g] *)
Definition shorthandPattern : regex :=
  RCat ([RNotBehind [CChar 91; CChar 91]; RNotBehind [COneOf (js "#:")]; RWordB]
        ++ FootnotesParser.chapterVerse 1
        ++ [RWordB;
            RNotAhead (RCat [RStar (RSet (CNoneOf (js "["))); RLit (js "]]")])]).

(** The callback of the replacement; it looks the matched text up in the
    text as it was before the replacement began, where that text occurs, so
    that [indexOf] never answers -1. *)
Definition rewriteShorthand (currentBook processed : jstring) (mt : rmatch) : jstring :=
  let match0 := matched processed mt in
  let chapter_ := grp processed mt 1 in
  let verse_ := grp processed mt 2 in
  let at_ := match indexOf processed match0 with Some i => i | None => 0 end in
  let beforeMatch := substring processed 0 at_ in
  let afterMatch := substringFrom processed (at_ + length match0) in
  if ((idx (lastIndexOf beforeMatch (js "]]")) <? idx (lastIndexOf beforeMatch (js "[[")))%Z
      || (idx (indexOf afterMatch (js "]]")) <? idx (indexOf afterMatch (js "[[")))%Z)%bool
  then match0
  else
    match group processed mt 3 with
    | Some endVerse_ =>
        if jstring_eqb endVerse_ [] then
          js "[[" ++ currentBook ++ js " " ++ chapter_ ++ js "#" ++ verse_ ++ js "|"
          ++ chapter_ ++ js ":" ++ verse_ ++ js "]]"
        else
          js "[[" ++ currentBook ++ js " " ++ chapter_ ++ js "#" ++ verse_ ++ js "|"
          ++ chapter_ ++ js ":" ++ verse_ ++ js "-" ++ endVerse_ ++ js "]]"
    | None =>
        js "[[" ++ currentBook ++ js " " ++ chapter_ ++ js "#" ++ verse_ ++ js "|"
        ++ chapter_ ++ js ":" ++ verse_ ++ js "]]"
    end.

(** [if (currentBook) { processed = processed.replace(...) }] *)
Definition shorthandPass (currentBook : option jstring) (processed : jstring) : jstring :=
  match currentBook with
  | Some b =>
      if jstring_eqb b [] then processed
      else replaceAll shorthandPattern processed (rewriteShorthand b processed)
  | None => processed
  end.

(** *** The whole rewrite *)

(** [processFootnoteContent(content, footnote?)]; [None] stands for a call
    that does not return. *)
Definition processFootnoteContent (content_ : jstring) (footnote : option ParsedFootnote)
    : option jstring :=
  let processed1 := rewriteDataRefs content_ in
  let processed2 := stripTags processed1 in
  match linkReferences processed2 footnote with
  | Some (processed3, _) =>
      Some (shorthandPass (extractBookFromFootnote footnote) processed3)
  | None => None
  end.

(** *** The helpers around the rewrite *)

(** [`${ref.book}:${ref.chapter}:${ref.verse}`] *)
Definition referenceKey (ref : VerseReference) : jstring :=
  val_to_js (book ref) ++ js ":" ++ num_to_js (chapter ref) ++ js ":"
  ++ optnum_to_js (verse ref).

(** [references.filter(ref => ...)] with the set [seen] of the keys met so
    far: [seen.has(key)] drops the reference, [seen.add(key)] records it. *)
Fixpoint dedupFrom (seen : list jstring) (references : list VerseReference)
    : list VerseReference :=
  match references with
  | [] => []
  | ref :: references' =>
      let key := referenceKey ref in
      if existsb (jstring_eqb key) seen
      then dedupFrom seen references'
      else ref :: dedupFrom (key :: seen) references'
  end.

Definition deduplicateReferences (references : list VerseReference)
    : list VerseReference :=
  dedupFrom [] references.

(** [/(\d+)$/] *)
Definition trailingNumber : regex :=
  RCat [RGroup 1 (RPlus (RSet CDigit)); REol].

(** The arrow of the link back to the verse, U+2191. *)
Definition upArrow : jstring := [8593%N].

(** [getFootnoteVerseLink(footnote, book, chapter)] *)
Definition getFootnoteVerseLink (footnote : ParsedFootnote) (book_ : jstring)
    (chapter_ : jsnum) : jstring :=
  match match_ trailingNumber (id footnote) with
  | Some idMatch =>
      let verseNumber := grp (id footnote) idMatch 1 in
      js "[[" ++ book_ ++ js " " ++ num_to_js chapter_ ++ js "#" ++ verseNumber
      ++ js "|" ++ upArrow ++ js "]]"
  | None => []
  end.

End MarkdownGenerator.

(** ** FileWriter (services/fileWriter.ts) *)

Module FileWriter.

(** [/[<>:%/\\|?*]/g], with % written for the double quote *)
Definition forbiddenChars : cset := COneOf (js "<>:" ++ dq ++ js "/\|?*").

(** [fileName.replace(/[<>:%/\\|?*]/g, '').replace(/\s+/g, ' ').trim()] *)
Definition sanitizeFileName (fileName : jstring) : jstring :=
  trim (replaceAll (RPlus (RSet CSpace))
          (replaceAll (RSet forbiddenChars) fileName (fun _ => []))
          (fun _ => js " ")).

End FileWriter.

(** * The vocabulary of the statements *)

Module MatchBounds.

(** The least number of code units a match of the pattern consumes. *)
Fixpoint minlen (r : regex) : nat :=
  match r with
  | RSet _ => 1
  | RSeq a b => minlen a + minlen b
  | RGroup _ a => minlen a
  | _ => 0
  end.

(** The groups that take part in every match of the pattern. *)
Fixpoint mandatory (r : regex) : list nat :=
  match r with
  | RGroup n a => n :: mandatory a
  | RSeq a b => mandatory a ++ mandatory b
  | _ => []
  end.

Section Captures.

Variable s : jstring.

(** A lower bound for the length of what each group captures. *)
Variable mins : nat -> nat.

(** The pattern of every group consumes at least what [mins] says. *)
Fixpoint groups_ok (r : regex) : Prop :=
  match r with
  | RGroup n a => mins n <= minlen a /\ groups_ok a
  | RSeq a b => groups_ok a /\ groups_ok b
  | RStar a | ROpt a | RNotAhead a => groups_ok a
  | _ => True
  end.

(** Every capture lies in the text and is as long as [mins] says. *)
Definition caps_good (c : caps) : Prop :=
  forall n a b, cap c n = Some (a, b) -> a + mins n <= b /\ b <= length s.

(** From [c] to [c']: no group is lost, and the bounds are kept. *)
Definition extends (c c' : caps) : Prop :=
  (forall n, cap c n <> None -> cap c' n <> None)
  /\ (caps_good c -> caps_good c').

(** A matcher hands to its continuation a position inside the text, at least
    [n] past where it started, and captures in which the groups of [must]
    are set. *)
Definition advances (n : nat) (must : list nat)
    (ma : nat -> caps -> cont -> option result) : Prop :=
  forall i c k res,
    i <= length s -> ma i c k = Some res ->
    exists j c',
      i + n <= j /\ j <= length s /\ extends c c'
      /\ (forall g, In g must -> cap c' g <> None)
      /\ k j c' = Some res.

End Captures.

End MatchBounds.
Import MatchBounds.

Module Registry.
Import MarkdownGenerator.






(** The states the two nested loops go through on [text] and [refs]: the
    references still to do, the one in hand first, and the loop state. *)
Inductive visited (text : jstring) (refs : list VerseReference)
    : list VerseReference -> lstate -> Prop :=
| visited_start :
    visited text refs (sortRefs refs)
      {| processed := text; linkedRanges := []; lastIndex := 0 |}
| visited_turn ref rest st st' :
    visited text refs (ref :: rest) st ->
    linkIter ref st = Some st' ->
    visited text refs (ref :: rest) st'
| visited_next ref rest st :
    visited text refs (ref :: rest) st ->
    linkIter ref st = None ->
    visited text refs rest
      {| processed := processed st; linkedRanges := linkedRanges st; lastIndex := 0 |}.

(** The state after the candidate [mt] was replaced by the link of [ref]. *)
Definition replaced (ref : VerseReference) (st : lstate) (mt : rmatch) : lstate :=
  {| processed := substring (processed st) 0 (m_index mt) ++ wikiLink ref
                  ++ substringFrom (processed st) (m_end mt);
     linkedRanges :=
       adjustRanges
         (linkedRanges st
          ++ [{| r_start := m_index mt; r_end := m_index mt + length (wikiLink ref) |}])
         (m_end mt) (length (wikiLink ref) - (m_end mt - m_index mt));
     lastIndex := m_index mt + length (wikiLink ref) |}.

(** The state after the candidate [mt] was passed over. *)
Definition skipped (st : lstate) (mt : rmatch) : lstate :=
  {| processed := processed st;
     linkedRanges := linkedRanges st;
     lastIndex := m_end mt |}.




End Registry.
Import Registry.

Module Extraction.
Import FootnotesParser.

(** The successive matches the [while] loop of [findBibleReferences] sees
    from [lastIndex] on: each search resumes where the last match ended. *)
Inductive matchesFrom (r : regex) (text : jstring) : nat -> list rmatch -> Prop :=
| matches_done i :
    exec r text i = None -> matchesFrom r text i []
| matches_more i mt ms :
    exec r text i = Some mt ->
    matchesFrom r text (m_end mt) ms ->
    matchesFrom r text i (mt :: ms).

(** The records of the matches that pass the canonical-name check, one for
    each such match. *)
Fixpoint kept (text : jstring) (ms : list rmatch) : list VerseReference :=
  match ms with
  | [] => []
  | mt :: ms' =>
      match referenceOfMatch text mt with
      | Some r => r :: kept text ms'
      | None => kept text ms'
      end
  end.

(** Every number is less than those after it. *)
Fixpoint ascending (l : list nat) : Prop :=
  match l with
  | [] => True
  | x :: l' => Forall (fun y => x < y) l' /\ ascending l'
  end.

(** The footnote of a note, every field as the callback computes it. *)
Definition builtFrom (note : NoteElement) (f : ParsedFootnote) : Prop :=
  noteNumber note = Some (Num (number f))
  /\ id f = noteId note (noteNumber note)
  /\ type f = trim (typeText note)
  /\ content f = cleanContent (trim (bodyText note))
  /\ extractVerseReferences note = Some (verseReferences f).

(** The number of the note reads as an integer, of either sign. *)
Definition numberParses (note : NoteElement) : bool :=
  negb (isNaN (parseInt (trim (superText note)))).

(** The content, white space collapsed and trimmed, is not empty. *)
Definition hasContent (note : NoteElement) : bool :=
  negb (jstring_eqb (cleanContent (trim (bodyText note))) []).

(** The test that a note passes to become a footnote. *)
Definition accepted (note : NoteElement) : bool :=
  (numberParses note && hasContent note)%bool.

Section Cheerio.

Variable selectNotes : jstring -> list NoteElement.

(** Claim C3 in the words of the specification: the call returns, with at
    most one footnote for each note, and with exactly one for each if and
    only if every note has a number that parses. *)
Definition length_decided_by_numbers (html : jstring) : Prop :=
  exists fs,
    parseFootnotes selectNotes html = Some fs
    /\ length fs <= length (selectNotes html)
    /\ (length fs = length (selectNotes html)
        <-> forallb numberParses (selectNotes html) = true).

(** The number of the note reads as an integer that is not negative. *)
Definition nonNegativeNumber (note : NoteElement) : bool :=
  match parseInt (trim (superText note)) with
  | Num z => (0 <=? z)%Z
  | NaN => false
  end.

(** Claim C4 in the words of the specification: the footnotes are those of
    the notes whose number parses as an integer that is not negative and
    whose content is not empty. *)
Definition footnotes_of_nonnegative_notes (html : jstring) : Prop :=
  exists fs,
    parseFootnotes selectNotes html = Some fs
    /\ Forall2 builtFrom
         (filter (fun note => nonNegativeNumber note && hasContent note)%bool
                 (selectNotes html))
         fs.

End Cheerio.

(** A note that has a number and nothing else:
    [<div class=note><sup class=noteNoteSuper>1</sup></div>]. *)
Definition numberOnlyNote : NoteElement :=
  {| superText := js "1";
     superId := None;
     typeText := [];
     bodyText := [];
     innerHtml := Some (js "<sup class=" ++ dq ++ js "noteNoteSuper" ++ dq ++ js ">1</sup>");
     fullText := js "1" |}.

Definition numberOnlyMarkup : jstring :=
  js "<div class=" ++ dq ++ js "note" ++ dq ++ js "><sup class=" ++ dq
  ++ js "noteNoteSuper" ++ dq ++ js ">1</sup></div>".

(** A note numbered -5:
    [<div class=note><sup class=noteNoteSuper>-5</sup> Or spirit.</div>]. *)
Definition negativeNote : NoteElement :=
  {| superText := js "-5";
     superId := None;
     typeText := [];
     bodyText := js " Or spirit.";
     innerHtml := Some (js "<sup class=" ++ dq ++ js "noteNoteSuper" ++ dq
                        ++ js ">-5</sup> Or spirit.");
     fullText := js "-5 Or spirit." |}.

Definition negativeMarkup : jstring :=
  js "<div class=" ++ dq ++ js "note" ++ dq ++ js "><sup class=" ++ dq
  ++ js "noteNoteSuper" ++ dq ++ js ">-5</sup> Or spirit.</div>".

(** The references of the explicit tags of a note. *)
(** [<data ref=%Bible:CODE%>DISPLAY</data>], with % written for the double
    quote. *)
Definition dataTag (code display_ : string) : jstring :=
  js "<data ref=" ++ dq ++ js "Bible:" ++ js code ++ dq ++ js ">" ++ js display_
  ++ js "</data>".

(** A note whose number is a dash (U+2014). *)
Definition dashNote : NoteElement :=
  {| superText := [8212%N];
     superId := None;
     typeText := js "tn";
     bodyText := js " Or spirit.";
     innerHtml := Some (js "<sup class=" ++ dq ++ js "noteNoteSuper" ++ dq ++ js ">"
                        ++ [8212%N] ++ js "</sup> Or spirit.");
     fullText := 8212%N :: js " Or spirit." |}.

(** The note of scenario A: number 1, type sn, one explicit tag. *)
Definition taggedNote : NoteElement :=
  {| superText := js "1";
     superId := Some (js "note_1");
     typeText := js "sn";
     bodyText := js " See 1:24.";
     innerHtml := Some (js "<sup id=" ++ dq ++ js "note_1" ++ dq ++ js " class=" ++ dq
                        ++ js "noteNoteSuper" ++ dq ++ js ">1</sup><span class=" ++ dq
                        ++ js "notetype" ++ dq ++ js ">sn</span> See "
                        ++ dataTag "Jn 1:24" "1:24" ++ js ".");
     fullText := js "1sn See 1:24." |}.

(** The references of the explicit tags of a note. *)
Definition explicitReferences (note : NoteElement) : list VerseReference :=
  dataRefReferences (match innerHtml note with Some h => h | None => [] end).

(** No number is less than one before it. *)
Fixpoint neverBack (l : list Z) : Prop :=
  match l with
  | [] => True
  | x :: l' => Forall (fun y => (x <= y)%Z) l' /\ neverBack l'
  end.

(** Where the display text of each record first appears in the text. *)
Definition firstAppearances (text : jstring) (refs : list VerseReference) : list Z :=
  map (fun r => idx (indexOf text (display r))) refs.

(** Claim C6 in the words of the specification: along the list, the places
    where the display texts first appear in the source never go back. *)
Definition leftToRight (note : NoteElement) : Prop :=
  forall refs,
    extractVerseReferences note = Some refs ->
    neverBack (firstAppearances (fullText note) refs).

(** A note of plain text, without marker, type or tags. *)
Definition plainNote (text : jstring) : NoteElement :=
  {| superText := []; superId := None; typeText := []; bodyText := text;
     innerHtml := Some text; fullText := text |}.

Definition twoCitations : jstring := js "See John 3:16 and Luke 6:20".

(** The entry expands to its name, and the name is canonical. *)
Definition knownCodeOk (kv : jstring * jstring) : bool :=
  (jsval_eqb (expandBookName (fst kv)) (VStr (snd kv))
   && isValidBookName (VStr (snd kv)))%bool.

Fixpoint nodupb (l : list jstring) : bool :=
  match l with
  | [] => true
  | x :: l' => (negb (existsb (jstring_eqb x) l') && nodupb l')%bool
  end.

End Extraction.
Import Extraction.

Module Scenarios.
Import MarkdownGenerator.

(** References and footnotes as the unit tests write them. *)
Definition reference (book_ : string) (chapter_ verse_ : Z) (display_ : string)
    : VerseReference :=
  {| book := VStr (js book_); chapter := Num chapter_; verse := Some (Num verse_);
     endVerse := None; display := js display_ |}.

Definition footnote (id_ : string) (content_ : jstring) (refs : list VerseReference)
    : ParsedFootnote :=
  {| id := js id_; number := 1; type := js "sn"; content := content_;
     verseReferences := refs |}.

(** The number of places of [s] where [p] occurs. *)
Fixpoint occurrences (p s : jstring) : nat :=
  match s with
  | [] => 0
  | _ :: s' => (if startsWith p s then 1 else 0) + occurrences p s'
  end.

(** The two references of the scenario: one display text inside the other. *)
Definition short : VerseReference := reference "John" 3 16 "3:16".
Definition long : VerseReference := reference "John" 3 16 "John 3:16".

(** A reference without display text, and the state in which the inner loop
    stays for it on the text [a]. *)
Definition noDisplay : VerseReference := reference "John" 3 16 "".

Definition stuck : lstate :=
  {| processed := js "[[John 3#16|]]a";
     linkedRanges := [{| r_start := 14; r_end := 28 |}];
     lastIndex := 14 |}.

(** The text after steps 1 to 3. *)
Definition beforeShorthand (content_ : jstring) (f : option ParsedFootnote)
    : option jstring :=
  option_map fst (linkReferences (stripTags (rewriteDataRefs content_)) f).

End Scenarios.
Import Scenarios.

Module MatchText.

(** The texts a pattern can consume; an assertion consumes nothing. *)
Fixpoint shape (r : regex) (t : jstring) : Prop :=
  match r with
  | REps => t = []
  | RSet cl => exists ch, t = [ch] /\ cmatch cl ch = true
  | RSeq a b => exists t1 t2, t = t1 ++ t2 /\ shape a t1 /\ shape b t2
  | RStar a => exists ts, t = concat ts /\ Forall (shape a) ts
  | ROpt a => t = [] \/ shape a t
  | RGroup _ a => shape a t
  | _ => t = []
  end.

Section Fit.

Variable s : jstring.

(** What is to hold of the text each group captures. *)
Variable holds : nat -> jstring -> Prop.

(** Every text the pattern of a group can consume has the property of the
    group. *)
Fixpoint groups_fit (r : regex) : Prop :=
  match r with
  | RGroup n a => (forall t, shape a t -> holds n t) /\ groups_fit a
  | RSeq a b => groups_fit a /\ groups_fit b
  | RStar a | ROpt a | RNotAhead a => groups_fit a
  | _ => True
  end.

(** Every capture lies in the text and has the property of its group. *)
Definition caps_fit (c : caps) : Prop :=
  forall n a b,
    cap c n = Some (a, b) ->
    a <= b /\ b <= length s /\ holds n (substring s a b).

(** A matcher hands to its continuation a later position of the text, the
    text in between being of the shape of [r], and keeps the captures
    fitting. *)
Definition consumes (r : regex) (ma : nat -> caps -> cont -> option result) : Prop :=
  forall i c k res,
    i <= length s -> ma i c k = Some res ->
    exists j c',
      i <= j /\ j <= length s /\ shape r (substring s i j)
      /\ (caps_fit c -> caps_fit c')
      /\ k j c' = Some res.

End Fit.

End MatchText.
Import MatchText.

Module References.
Import FootnotesParser.

(** A text of decimal digits, one at least. *)
Definition digitsText (t : jstring) : Prop :=
  t <> [] /\ forallb isDigit t = true.

(** The groups of a citation pattern other than the first hold numbers. *)
Definition numberGroups (n : nat) (t : jstring) : Prop :=
  n <> 1 -> digitsText t.

(** A number that is an integer and not negative. *)
Definition natural (n : jsnum) : Prop :=
  exists z, n = Num z /\ (0 <= z)%Z.

(** The chapter and the verse are numbers that are not negative, and so is
    the end of the range, when there is one. *)
Definition numbered (r : VerseReference) : Prop :=
  natural (chapter r)
  /\ (exists v, verse r = Some v /\ natural v)
  /\ (endVerse r = None \/ exists e, endVerse r = Some e /\ natural e).

(** The text [t] occurs in [s]. *)
Definition occursIn (t s : jstring) : Prop :=
  exists i, i + length t <= length s /\ substring s i (i + length t) = t.

(** A reference as the text scan gives it: a canonical book, a display text
    that is a part of the scanned text, with a colon in it. *)
Definition scanned (text : jstring) (r : VerseReference) : Prop :=
  (exists name, book r = VStr name /\ In name validBooks)
  /\ occursIn (display r) text
  /\ 5 <= length (display r)
  /\ In 58%N (display r).

(** The pattern has a literal [ch] outside every quantifier and lookaround:
    a text it matches has a [ch]. *)
Fixpoint needs (ch : N) (r : regex) : bool :=
  match r with
  | RSet (CChar c) => N.eqb c ch
  | RSeq a b => (needs ch a || needs ch b)%bool
  | RGroup _ a => needs ch a
  | _ => false
  end.

(** A lower bound for the number of [ch] in a text the pattern matches:
    the literal [ch] of the pattern outside every quantifier and
    lookaround. *)
Fixpoint times (ch : N) (r : regex) : nat :=
  match r with
  | RSet (CChar c) => if N.eqb c ch then 1 else 0
  | RSeq a b => times ch a + times ch b
  | RGroup _ a => times ch a
  | _ => 0
  end.

(** The number of [ch] in [t]. *)
Definition count (ch : N) (t : jstring) : nat := count_occ N.eq_dec t ch.

(** What is to hold of the first group of the pattern of the ids: letters,
    one at least. *)
Definition lettersGroup (n : nat) (t : jstring) : Prop :=
  n = 1 -> t <> [] /\ forallb isAlpha t = true.

(** There is a word boundary at position [i] of [s]: a code unit of [\w] on
    one side and none on the other. *)
Definition boundary (s : jstring) (i : nat) : bool :=
  xorb (wordBefore s i) (wordAt s i).

(** The text [d] stands in [s] at position [p] and nowhere else. *)
Definition onlyAt (d s : jstring) (p : nat) : Prop :=
  forall i, startsWith d (skipn i s) = true <-> i = p.

End References.
Import References.

Module Runs.

(** Is there a code unit of the class at position [i] of [s]? *)
Definition hit (cl : cset) (s : jstring) (i : nat) : bool :=
  match nth_error s i with Some ch => cmatch cl ch | None => false end.

(** The number of code units of the class at the head of [t]. *)
Fixpoint run (cl : cset) (t : jstring) : nat :=
  match t with
  | c :: t' => if cmatch cl c then S (run cl t') else 0
  | [] => 0
  end.

(** Where a match may start: [starts t] is [Some n] when a match of [S n]
    code units starts at the head of [t].  The number of code units at the
    head of [t] at which no match starts: *)
Fixpoint gap (starts : jstring -> option nat) (t : jstring) : nat :=
  match t with
  | [] => 0
  | c :: t' =>
      match starts (c :: t') with
      | Some _ => 0
      | None => S (gap starts t')
      end
  end.

(** [t] read from left to right, where each match gives way to what [out]
    makes of the text from the match on; [skip] code units of the match that
    gave way are still ahead. *)
Fixpoint rewritten (starts : jstring -> option nat) (out : jstring -> jstring)
    (skip : nat) (t : jstring) : jstring :=
  match t with
  | [] => []
  | c :: t' =>
      match skip with
      | S k => rewritten starts out k t'
      | 0 =>
          match starts (c :: t') with
          | Some n => out (c :: t') ++ rewritten starts out n t'
          | None => c :: rewritten starts out 0 t'
          end
      end
  end.

(** The texts of the matches in [t], from left to right. *)
Fixpoint texts (starts : jstring -> option nat) (skip : nat) (t : jstring)
    : list jstring :=
  match t with
  | [] => []
  | c :: t' =>
      match skip with
      | S k => texts starts k t'
      | 0 =>
          match starts (c :: t') with
          | Some n => firstn (S n) (c :: t') :: texts starts n t'
          | None => texts starts 0 t'
          end
      end
  end.

(** The matches of a class: a code unit of the class and the [w] code units
    after it. *)
Definition classStart (cl : cset) (w : jstring -> nat) (t : jstring) : option nat :=
  match t with
  | c :: t' => if cmatch cl c then Some (w t') else None
  | [] => None
  end.

(** The matches of [/<[^>]+>/]: a [<], the code units up to the next [>],
    one at least, and that [>]. *)
Definition tagStart (t : jstring) : option nat :=
  match t with
  | c :: t' =>
      if N.eqb c 60 then
        match run (CNoneOf [62%N]) t' with
        | 0 => None
        | S n =>
            match nth_error t' (S n) with
            | Some _ => Some (S (S n))
            | None => None
            end
        end
      else None
  | [] => None
  end.


(** The text begins with a tag: a [<], one code unit or more that are not
    [>], and a [>]. *)
Definition tagged (t : jstring) : Prop :=
  exists x rest, t = 60%N :: x ++ 62%N :: rest /\ x <> [] /\ ~ In 62%N x.

(** No part of the text begins with a tag. *)
Definition tagless (u : jstring) : Prop :=
  forall a b, u = a ++ b -> ~ tagged b.

(** [t] with [rep] in the place of each longest run of code units of the
    class; [inRun]: the code unit before [t] was of the class. *)
Fixpoint squeeze (cl : cset) (rep : jstring) (inRun : bool) (t : jstring) : jstring :=
  match t with
  | [] => []
  | c :: t' =>
      if cmatch cl c
      then if inRun then squeeze cl rep true t' else rep ++ squeeze cl rep true t'
      else c :: squeeze cl rep false t'
  end.

(** The text does not begin with white space. *)
Definition startsClean (t : jstring) : bool :=
  match t with c :: _ => negb (isSpace c) | [] => true end.

(** The only white space of the text is U+0020, and no two of them are
    next to each other. *)
Fixpoint singleSpaces (t : jstring) : bool :=
  match t with
  | [] => true
  | c :: t' =>
      ((if isSpace c then N.eqb c 32 && startsClean t' else true)
       && singleSpaces t')%bool
  end.

(** A text in the form that cleaning gives: single spaces, none of them at
    either end. *)
Definition cleaned (t : jstring) : Prop :=
  singleSpaces t = true /\ trim t = t.

(** The code units of the text that are not white space. *)
Definition ink (t : jstring) : jstring :=
  filter (fun c => negb (isSpace c)) t.

(** The longest suffix of the text that is made of digits. *)
Fixpoint digitTail (s : jstring) : jstring :=
  match s with
  | [] => []
  | c :: s' => if forallb isDigit (c :: s') then c :: s' else digitTail s'
  end.

End Runs.
Import Runs.

Module DataTags.
Import FootnotesParser MarkdownGenerator.

(** The three fixed parts of a [data] tag. *)
Definition tagHead : jstring := js "<data ref=" ++ dq ++ js "Bible:".
Definition tagMid : jstring := dq ++ js ">".
Definition tagEnd : jstring := js "</data>".

(** The tag of the reference [ref] with the display text [display_]. *)
Definition dataTagOf (ref display_ : jstring) : jstring :=
  tagHead ++ ref ++ tagMid ++ display_ ++ tagEnd.

(** The tag at the head of [t], if there is one: the lengths of its
    reference and of its display text.  The reference goes up to the next
    double quote, the display text up to the next [<]. *)
Definition dataRuns (t : jstring) : option (nat * nat) :=
  if startsWith tagHead t then
    let r1 := run (CNoneOf dq) (skipn (length tagHead) t) in
    if (Nat.ltb 0 r1
        && startsWith tagMid (skipn (length tagHead + r1) t))%bool then
      let r2 := run (CNoneOf (js "<"))
                  (skipn (length tagHead + r1 + length tagMid) t) in
      if (Nat.ltb 0 r2
          && startsWith tagEnd
               (skipn (length tagHead + r1 + length tagMid + r2) t))%bool
      then Some (r1, r2)
      else None
    else None
  else None.

Definition dataStart (t : jstring) : option nat :=
  match dataRuns t with
  | Some (r1, r2) =>
      Some (length tagHead + r1 + length tagMid + r2 + length tagEnd - 1)
  | None => None
  end.

(** What the callback of step 1 makes of a reference and a display text. *)
Definition tagLink (ref display_ : jstring) : jstring :=
  match match_ refPattern ref with
  | Some refMatch =>
      js "[[" ++ val_to_js (expandBookCode (grp ref refMatch 1)) ++ js " "
      ++ grp ref refMatch 2 ++ js "#" ++ grp ref refMatch 3 ++ js "|" ++ display_
      ++ js "]]"
  | None => display_
  end.

Definition dataOut (t : jstring) : jstring :=
  match dataRuns t with
  | Some (r1, r2) =>
      tagLink (firstn r1 (skipn (length tagHead) t))
              (firstn r2 (skipn (length tagHead + r1 + length tagMid) t))
  | None => []
  end.

(** The class of the first code unit of every match of the pattern, for a
    pattern that begins with a code unit. *)
Fixpoint firstSet (r : regex) : option cset :=
  match r with
  | RSet cl => Some cl
  | RSeq a _ => firstSet a
  | RGroup _ a => firstSet a
  | _ => None
  end.

(** A word: code units of [\w], one at least; white space likewise. *)
Definition wordText (t : jstring) : Prop :=
  t <> [] /\ forallb isWord t = true.

Definition spaceText (t : jstring) : Prop :=
  t <> [] /\ forallb isSpace t = true.

(** The reference of a tag whose reference has the form code, white space,
    chapter, colon, verse, with or without the end of a range. *)
Definition taggedReference (code c v range display_ : jstring) : VerseReference :=
  {| book := expandBookName code;
     chapter := parseInt c;
     verse := Some (parseInt v);
     endVerse := match range with [] => None | _ :: e => Some (parseInt e) end;
     display := display_ |}.

End DataTags.
Import DataTags.

Module BareTokens.

(** A text without digits and without square brackets. *)
Definition bare (t : jstring) : Prop :=
  forallb (fun ch => negb (isDigit ch || N.eqb ch 91 || N.eqb ch 93)) t = true.

(** The text does not end with a code unit of [\w], with [#] or with a
    colon. *)
Definition endsApart (t : jstring) : bool :=
  match rev t with
  | [] => true
  | ch :: _ => negb (isWord ch || N.eqb ch 35 || N.eqb ch 58)
  end.

(** The text does not begin with a code unit of [\w]. *)
Definition startsApart (t : jstring) : bool :=
  match t with
  | [] => true
  | ch :: _ => negb (isWord ch)
  end.

(** A word of ASCII letters, one at least. *)
Definition lettersText (t : jstring) : Prop :=
  t <> [] /\ forallb isAlpha t = true.

(** The id of a marker that names a book, a chapter and a verse. *)
Definition bookId (b c v : jstring) : jstring :=
  js "note_" ++ b ++ js "_" ++ c ++ js "_" ++ v.

(** The link that the last pass writes for chapter:verse. *)
Definition shorthandLink (b c v : jstring) : jstring :=
  js "[[" ++ b ++ js " " ++ c ++ js "#" ++ v ++ js "|" ++ c ++ js ":" ++ v ++ js "]]".

(** The link that the last pass writes for chapter:verse-endVerse. *)
Definition shorthandRangeLink (b c v w : jstring) : jstring :=
  js "[[" ++ b ++ js " " ++ c ++ js "#" ++ v ++ js "|" ++ c ++ js ":" ++ v ++ js "-"
  ++ w ++ js "]]".

End BareTokens.
Import BareTokens.

Module Samples.
Import FootnotesParser.

(** The footnote of the note numbered -5, whose marker has no id. *)
Definition negativeFootnote : ParsedFootnote :=
  {| id := js "note_-5"; number := (-5)%Z; type := []; content := js "Or spirit.";
     verseReferences := [] |}.

(** A footnote whose id names a book. *)
Definition johnFootnote : ParsedFootnote :=
  {| id := js "note_John_3_1"; number := 1%Z; type := js "sn"; content := js "See 1:4.";
     verseReferences := [] |}.

(** A note of John 3:1 that cites Mark 1:4 and then has a bare 1:4, the
    footnote the parser makes of it, with the references of the text scan,
    and its content after steps 1 to 3. *)
Definition markNote : NoteElement :=
  {| superText := js "1";
     superId := Some (js "note_John_3_1");
     typeText := js "sn";
     bodyText := js " Compare Mark 1:4 with 1:4";
     innerHtml := Some (js "<sup id=" ++ dq ++ js "note_John_3_1" ++ dq ++ js " class="
                        ++ dq ++ js "noteNoteSuper" ++ dq ++ js ">1</sup><span class="
                        ++ dq ++ js "notetype" ++ dq
                        ++ js ">sn</span> Compare Mark 1:4 with 1:4");
     fullText := js "1sn Compare Mark 1:4 with 1:4" |}.

Definition markFootnote : ParsedFootnote :=
  {| id := js "note_John_3_1"; number := 1%Z; type := js "sn";
     content := js "Compare Mark 1:4 with 1:4";
     verseReferences := [Scenarios.reference "Mark" 1 4 " Mark 1:4";
                         Scenarios.reference "Mark" 1 4 "Mark 1:4"] |}.

Definition markLinked : jstring := js "Compare[[Mark 1#4| Mark 1:4]] with 1:4".

(** A note with the markup [html] and the text [text]. *)
Definition noteOf (html text : jstring) : NoteElement :=
  {| superText := js "1"; superId := None; typeText := js "sn"; bodyText := text;
     innerHtml := Some html; fullText := text |}.

(** A note whose one explicit tag has a reference without chapter and
    verse, beside a citation in plain text. *)
Definition malformedNote : NoteElement :=
  noteOf (js "See " ++ dataTagOf (js "John") (js "there") ++ js " and Mt 5:3.")
         (js "See there and Mt 5:3.").

End Samples.
Import Samples.

(** * Equality of strings *)

Module JSFacts.

Lemma jstring_eqb_eq a b : jstring_eqb a b = true <-> a = b.
Proof.
  unfold jstring_eqb. destruct (list_eq_dec N.eq_dec a b); split; congruence.
Qed.

Lemma jstring_eqb_refl a : jstring_eqb a a = true.
Proof. apply jstring_eqb_eq. reflexivity. Qed.

End JSFacts.
Import JSFacts.

(** * Properties of the matcher *)

Module RegexFacts.

Lemma orElse_some a b res :
  orElse a b = Some res -> a = Some res \/ b = Some res.
Proof. destruct a; simpl; auto. Qed.

Section Captures.

Variable s : jstring.
Variable mins : nat -> nat.

Local Abbreviation groups_ok := (MatchBounds.groups_ok mins).
Local Abbreviation caps_good := (MatchBounds.caps_good s mins).
Local Abbreviation extends := (MatchBounds.extends s mins).
Local Abbreviation advances := (MatchBounds.advances s mins).

Lemma extends_refl c : extends c c.
Proof. split; auto. Qed.

Lemma extends_trans c1 c2 c3 : extends c1 c2 -> extends c2 c3 -> extends c1 c3.
Proof. intros [A1 B1] [A2 B2]. split; auto. Qed.

Lemma extends_group c n i j :
  i + mins n <= j -> j <= length s -> extends c ((n, (i, j)) :: c).
Proof.
  intros Hi Hj. split.
  - intros g Hg. simpl. destruct (Nat.eqb n g); [discriminate | assumption].
  - intros Hc g a b. simpl. destruct (Nat.eqb_spec n g) as [->|].
    + intros H. injection H as <- <-. auto.
    + apply Hc.
Qed.

Ltac stay i c :=
  exists i, c; split; [lia|]; split; [lia|]; split; [apply extends_refl|];
  split; [intros ? [] | assumption].

Lemma star_advances ma n :
  advances 0 [] ma -> advances 0 [] (fun i c k => star_loop ma k n i c).
Proof.
  intros Hma. induction n as [|n IH]; intros i c k res Hi H; simpl in H.
  - stay i c.
  - apply orElse_some in H. destruct H as [H | H].
    + apply Hma in H; [|assumption].
      destruct H as (j & c' & Hij & Hj & He & _ & H).
      destruct (Nat.ltb i j); [|discriminate].
      apply IH in H; [|assumption].
      destruct H as (j' & c'' & ? & ? & He' & _ & ?).
      exists j', c''. split; [lia|]. split; [lia|].
      split; [eapply extends_trans; eassumption|].
      split; [intros ? [] | assumption].
    + stay i c.
Qed.

Lemma advances_weaken n n' must ma :
  n' <= n -> advances n must ma -> advances n' [] ma.
Proof.
  intros Hn H i c k res Hi Hm.
  destruct (H i c k res Hi Hm) as (j & c' & ? & ? & ? & ? & ?).
  exists j, c'. split; [lia|]. split; [lia|]. split; [assumption|].
  split; [intros ? [] | assumption].
Qed.

Lemma m_advances r : groups_ok r -> advances (minlen r) (mandatory r) (m r s).
Proof.
  induction r as [| cl | a IHa b IHb | a IHa | a IHa | n a IHa | | | | cls | a IHa];
    intros Hok i c k res Hi H; simpl in H, Hok |- *.
  - stay i c.
  - destruct (nth_error s i) as [ch|] eqn:E; [|discriminate].
    destruct (cmatch cl ch); [|discriminate].
    assert (i < length s) by (apply nth_error_Some; congruence).
    stay (S i) c.
  - destruct Hok as [Hoka Hokb].
    apply (IHa Hoka) in H; [|assumption].
    destruct H as (j & c' & ? & ? & He & Hma & H).
    apply (IHb Hokb) in H; [|assumption].
    destruct H as (j' & c'' & ? & ? & He' & Hmb & H).
    exists j', c''. split; [lia|]. split; [assumption|].
    split; [eapply extends_trans; eassumption|]. split; [|assumption].
    intros g Hg. apply in_app_iff in Hg. destruct Hg as [Hg|Hg]; [|auto].
    destruct He' as [Hkeep _]. auto.
  - apply (star_advances (m a s) (S (length s - i))) in H; try assumption.
    eapply advances_weaken; [|exact (IHa Hok)]. lia.
  - apply orElse_some in H. destruct H as [H | H].
    + apply (IHa Hok) in H; [|assumption].
      destruct H as (j & c' & ? & ? & He & _ & H).
      destruct (Nat.ltb i j); [|discriminate].
      exists j, c'. split; [lia|]. split; [lia|]. split; [assumption|].
      split; [intros ? [] | assumption].
    + stay i c.
  - destruct Hok as [Hn Hok].
    apply (IHa Hok) in H; [|assumption].
    destruct H as (j & c' & ? & ? & He & Hma & H).
    exists j, ((n, (i, j)) :: c'). split; [lia|]. split; [assumption|].
    assert (He' : extends c' ((n, (i, j)) :: c')) by (apply extends_group; lia).
    split; [eapply extends_trans; eassumption|]. split; [|assumption].
    intros g [<-|Hg].
    + simpl. rewrite Nat.eqb_refl. discriminate.
    + destruct He' as [Hkeep _]. auto.
  - destruct (Nat.eqb i 0); [|discriminate].
    stay i c.
  - destruct (Nat.eqb i (length s)); [|discriminate].
    stay i c.
  - destruct (xorb _ _); [|discriminate].
    stay i c.
  - destruct (behind s i cls); [discriminate|].
    stay i c.
  - destruct (m a s i c _); [discriminate|].
    stay i c.
Qed.

(** A match lies inside the text, is as long as the pattern demands, and
    has every mandatory group set, within its bounds. *)
Lemma matchAt_captures r i mt :
  groups_ok r -> i <= length s -> matchAt r s i = Some mt ->
  m_index mt = i /\ i + minlen r <= m_end mt /\ m_end mt <= length s
  /\ caps_good (m_caps mt)
  /\ forall g, In g (mandatory r) -> cap (m_caps mt) g <> None.
Proof.
  unfold matchAt. intros Hok Hi H.
  destruct (m r s i [] _) as [[j c]|] eqn:E; [|discriminate].
  injection H as <-. simpl.
  apply (m_advances r Hok) in E; [|assumption].
  destruct E as (j' & c' & ? & ? & [_ Hg] & Hm & E). injection E as -> ->.
  split; [reflexivity|]. split; [lia|]. split; [lia|]. split; [|assumption].
  apply Hg. intros g0 a0 b0 Hc. discriminate.
Qed.

End Captures.

Lemma groups_ok_zero r : groups_ok (fun _ => 0) r.
Proof. induction r; simpl; auto using Nat.le_0_l. Qed.

Lemma matchAt_bounds r s i mt :
  i <= length s -> matchAt r s i = Some mt ->
  m_index mt = i /\ i + minlen r <= m_end mt /\ m_end mt <= length s.
Proof.
  intros Hi H.
  destruct (matchAt_captures s (fun _ => 0) r i mt (groups_ok_zero r) Hi H)
    as (? & ? & ? & _).
  auto.
Qed.

Lemma scan_bounds r s n i mt :
  i + n <= S (length s) -> scan r s n i = Some mt ->
  i <= m_index mt /\ m_index mt + minlen r <= m_end mt /\ m_end mt <= length s.
Proof.
  revert i. induction n as [|n IH]; intros i Hn H; simpl in H; [discriminate|].
  destruct (matchAt r s i) as [mt'|] eqn:E.
  - injection H as ->. apply matchAt_bounds in E; lia.
  - apply IH in H; lia.
Qed.

(** What [exec] returns lies at or after [lastIndex] and inside the text. *)
Lemma exec_bounds r s i mt :
  exec r s i = Some mt ->
  i <= m_index mt /\ m_index mt + minlen r <= m_end mt /\ m_end mt <= length s.
Proof.
  unfold exec. intros H.
  destruct (Nat.le_gt_cases i (length s)).
  - apply scan_bounds in H; lia.
  - replace (S (length s) - i) with 0 in H by lia. discriminate.
Qed.

(** A literal consumes exactly its own text and captures nothing. *)
Lemma lit_inv d : forall s i c k res,
  m (RLit d) s i c k = Some res ->
  k (i + length d) c = Some res /\ firstn (length d) (skipn i s) = d.
Proof.
  induction d as [|ch d IH]; intros s i c k res H; simpl in H |- *.
  - rewrite Nat.add_0_r. auto.
  - destruct (nth_error s i) as [ch'|] eqn:E; [|discriminate].
    destruct (N.eqb_spec ch' ch) as [->|]; [|discriminate].
    apply IH in H. destruct H as [H1 H2].
    replace (i + S (length d)) with (S i + length d) by lia. split; [assumption|].
    clear - E H2. revert s E H2. induction i as [|i IHi]; intros s E H2.
    + destruct s; simpl in *; [discriminate|]. injection E as ->. congruence.
    + destruct s; simpl in *; [discriminate|]. apply IHi; assumption.
Qed.

Lemma matchAt_index r s i mt : matchAt r s i = Some mt -> m_index mt = i.
Proof.
  unfold matchAt. destruct (m r s i [] _) as [[j c]|]; [|discriminate].
  intros H. injection H as <-. reflexivity.
Qed.

Lemma scan_index r s n i mt :
  scan r s n i = Some mt -> matchAt r s (m_index mt) = Some mt.
Proof.
  revert i. induction n as [|n IH]; intros i H; simpl in H; [discriminate|].
  destruct (matchAt r s i) as [mt'|] eqn:E.
  - injection H as ->. rewrite (matchAt_index _ _ _ _ E). exact E.
  - eauto.
Qed.

Lemma exec_index r s i mt :
  exec r s i = Some mt -> matchAt r s (m_index mt) = Some mt.
Proof. apply scan_index. Qed.

Lemma scan_none r s :
  (forall i, matchAt r s i = None) -> forall n i, scan r s n i = None.
Proof.
  intros H. induction n as [|n IH]; intros i; simpl; [reflexivity|].
  rewrite H. apply IH.
Qed.

(** A pattern that matches nowhere leaves the text as it is. *)
Lemma replaceAll_none r s f :
  (forall i, matchAt r s i = None) -> replaceAll r s f = s.
Proof.
  intros H. unfold replaceAll. simpl. unfold exec. rewrite scan_none by assumption.
  reflexivity.
Qed.

(** A pattern that begins with a literal code unit matches only where that
    code unit stands. *)
Lemma matchAt_first_char ch r s i :
  ~ In ch s -> matchAt (RSeq (RSet (CChar ch)) r) s i = None.
Proof.
  intros Hnot. unfold matchAt. simpl.
  destruct (nth_error s i) as [c|] eqn:E; [|reflexivity].
  destruct (N.eqb_spec c ch) as [->|]; [|reflexivity].
  exfalso. apply Hnot. eapply nth_error_In. eassumption.
Qed.

Lemma exec_captures s mins r i mt :
  groups_ok mins r -> exec r s i = Some mt ->
  caps_good s mins (m_caps mt)
  /\ forall g, In g (mandatory r) -> cap (m_caps mt) g <> None.
Proof.
  intros Hok H. pose proof (exec_bounds _ _ _ _ H) as (_ & ? & ?).
  apply exec_index in H.
  apply (matchAt_captures s mins r _ mt Hok) in H; [tauto | lia].
Qed.

Lemma substring_length (s : jstring) a b :
  a <= b -> b <= length s -> length (substring s a b) = b - a.
Proof.
  intros. unfold substring. rewrite length_firstn, length_skipn. lia.
Qed.

(** A mandatory group whose pattern consumes input captures a text that is
    not empty. *)
Lemma group_nonempty s mins r i mt g :
  groups_ok mins r -> exec r s i = Some mt ->
  In g (mandatory r) -> 1 <= mins g ->
  exists t, group s mt g = Some t /\ t <> [].
Proof.
  intros Hok H Hg Hmin.
  destruct (exec_captures s mins r i mt Hok H) as [Hgood Hset].
  specialize (Hset g Hg). unfold group.
  destruct (cap (m_caps mt) g) as [[a b]|] eqn:E; [|congruence].
  destruct (Hgood g a b E) as [Hab Hb].
  eexists. split; [reflexivity|].
  intros Hnil. apply (f_equal (@length N)) in Hnil.
  rewrite substring_length in Hnil by lia. simpl in Hnil. lia.
Qed.

End RegexFacts.
Import RegexFacts.

(** * Reference-driven linking: the registry of claimed ranges *)

Module LinkingFacts.
Import MarkdownGenerator.

(** ** Sorting *)

Lemma insertRef_In x l y : In y (insertRef x l) <-> y = x \/ In y l.
Proof.
  induction l as [|z l IH]; simpl.
  - intuition.
  - destruct (Nat.leb _ _); simpl; [intuition|]. rewrite IH. intuition.
Qed.

Lemma sortRefs_In refs y : In y (sortRefs refs) <-> In y refs.
Proof.
  induction refs as [|x refs IH]; simpl; [tauto|].
  rewrite insertRef_In, IH. intuition.
Qed.



(** ** The candidates *)

(** A candidate is an occurrence of the display text at or after
    [lastIndex]. *)
Lemma display_exec d p i mt :
  exec (displayPattern d) p i = Some mt ->
  i <= m_index mt /\ m_end mt = m_index mt + length d /\
  m_end mt <= length p /\ matched p mt = d.
Proof.
  intros H. pose proof (exec_bounds _ _ _ _ H) as (Hi & _ & He).
  apply exec_index in H. unfold matchAt in H.
  destruct (m _ p (m_index mt) [] _) as [[j c]|] eqn:E; [|discriminate].
  unfold displayPattern, RCat in E. simpl in E.
  destruct (xorb _ _); [|discriminate].
  apply lit_inv in E. destruct E as [E Hd].
  destruct (xorb _ _); [|discriminate].
  injection E as <- <-.
  assert (Hend : m_end mt = m_index mt + length d).
  { destruct mt as [a b c']. simpl in *. injection H as <- _. reflexivity. }
  repeat split; try assumption.
  unfold matched, substring. rewrite Hend.
  replace (m_index mt + length d - m_index mt) with (length d) by lia. assumption.
Qed.




(** ** Text around a substitution *)




Lemma replaced_length (p link : jstring) s e :
  s <= e -> e <= length p ->
  length (firstn s p ++ link ++ skipn e p) = s + length link + (length p - e).
Proof.
  intros. rewrite !length_app, length_firstn, length_skipn. lia.
Qed.

(** ** The invariant of the two loops *)







Lemma linkIter_unfold ref st :
  linkIter ref st =
  match exec (displayPattern (display ref)) (processed st) (lastIndex st) with
  | None => None
  | Some mt =>
      if isAlreadyLinked (linkedRanges st) (m_index mt) (m_end mt)
      then Some (skipped st mt) else Some (replaced ref st mt)
  end.
Proof. reflexivity. Qed.






(** ** Termination *)

(** Every turn of the inner loop brings [lastIndex] closer to the end of
    the text, when the display text is not empty. *)
Lemma linkIter_measure ref st st' :
  display ref <> [] -> linkIter ref st = Some st' ->
  length (processed st') - lastIndex st' < length (processed st) - lastIndex st.
Proof.
  intros Hne H. rewrite linkIter_unfold in H.
  destruct (exec _ _ _) as [mt|] eqn:Hex; [|discriminate].
  apply display_exec in Hex. destruct Hex as (Hi & He & Hlen & _).
  assert (0 < length (display ref)) by (destruct (display ref); simpl; [congruence|lia]).
  destruct (isAlreadyLinked _ _ _); injection H as <-.
  - simpl. lia.
  - unfold replaced. cbn [processed lastIndex].
    unfold substring, substringFrom. rewrite Nat.sub_0_r. simpl skipn.
    rewrite replaced_length by lia. lia.
Qed.

Lemma linkLoop_terminates text refs ref rest :
  display ref <> [] ->
  forall fuel st,
    visited text refs (ref :: rest) st ->
    length (processed st) - lastIndex st < fuel ->
    exists st', linkLoop fuel ref st = Some st'
                /\ visited text refs (ref :: rest) st'
                /\ linkIter ref st' = None.
Proof.
  intros Hne. induction fuel as [|fuel IH]; intros st Hv Hm; [lia|].
  simpl. destruct (linkIter ref st) as [st1|] eqn:E.
  - apply IH.
    + eapply visited_turn; eassumption.
    + pose proof (linkIter_measure _ _ _ Hne E). lia.
  - exists st. auto.
Qed.

Lemma linkRefs_terminates text refs :
  forall todo p rs,
    Forall (fun ref => display ref <> []) todo ->
    visited text refs todo {| processed := p; linkedRanges := rs; lastIndex := 0 |} ->
    exists out rs',
      linkRefs todo p rs = Some (out, rs')
      /\ visited text refs [] {| processed := out; linkedRanges := rs'; lastIndex := 0 |}.
Proof.
  induction todo as [|ref rest IH]; intros p rs Hne Hv; cbn [linkRefs].
  - eauto.
  - inversion Hne as [|? ? Href Hrest]; subst.
    destruct (linkLoop_terminates text refs ref rest Href (S (length p)) _ Hv)
      as (st' & -> & Hv' & Hnone); [simpl; lia|].
    apply IH; [assumption|].
    eapply visited_next in Hnone; eassumption.
Qed.


(** ** The claim about one call *)

Lemma linkReferences_linkRefs text f :
  linkReferences text (Some f) = linkRefs (sortRefs (verseReferences f)) text [].
Proof.
  unfold linkReferences. destruct (verseReferences f); reflexivity.
Qed.


End LinkingFacts.

(** * The footnote parser *)

Module ParserFacts.
Import FootnotesParser.

Lemma pushOpt_app acc o :
  pushOpt acc o = acc ++ match o with Some r => [r] | None => [] end.
Proof. destruct o; simpl; [reflexivity | symmetry; apply app_nil_r]. Qed.

(** The loop ends, whatever the text, because every match of the pattern
    is at least one code unit long. *)
Lemma findLoop_terminates r text :
  1 <= minlen r ->
  forall fuel i acc,
    S (length text) - i < fuel ->
    exists ms, matchesFrom r text i ms
               /\ findLoop fuel r text i acc = Some (acc ++ kept text ms).
Proof.
  intros Hmin. induction fuel as [|fuel IH]; intros i acc Hf; [lia|].
  simpl. destruct (exec r text i) as [mt|] eqn:E.
  - pose proof (exec_bounds _ _ _ _ E) as (? & ? & ?).
    destruct (IH (m_end mt) (pushOpt acc (referenceOfMatch text mt))) as (ms & Hms & ->);
      [lia|].
    exists (mt :: ms). split; [econstructor; eassumption|].
    rewrite pushOpt_app. simpl.
    destruct (referenceOfMatch text mt); simpl; rewrite <- app_assoc; reflexivity.
  - exists []. split; [constructor; assumption|]. simpl. rewrite app_nil_r. reflexivity.
Qed.

Lemma matchesFrom_ascending r text :
  1 <= minlen r ->
  forall i ms, matchesFrom r text i ms ->
               ascending (map m_index ms) /\ Forall (fun mt => i <= m_index mt) ms.
Proof.
  intros Hmin i ms H. induction H as [i E | i mt ms E H [IH1 IH2]].
  - simpl. auto.
  - pose proof (exec_bounds _ _ _ _ E) as (? & ? & ?). simpl. repeat split.
    + apply Forall_map. eapply Forall_impl; [|exact IH2]. simpl. intros; lia.
    + assumption.
    + constructor; [assumption|].
      eapply Forall_impl; [|exact IH2]. simpl. intros; lia.
Qed.

Lemma minlen_pattern1 : minlen pattern1 = 5.
Proof. reflexivity. Qed.

Lemma minlen_pattern2 : minlen pattern2 = 5.
Proof. reflexivity. Qed.

(** The fallback scan returns: the kept matches of the first pattern, then
    those of the second. *)
Lemma findBibleReferences_spec text :
  exists ms1 ms2,
    findBibleReferences text = Some (kept text ms1 ++ kept text ms2)
    /\ matchesFrom pattern1 text 0 ms1
    /\ matchesFrom pattern2 text 0 ms2.
Proof.
  unfold findBibleReferences, patterns. cbn [findPatterns].
  destruct (findLoop_terminates pattern1 text) with
    (fuel := S (S (length text))) (i := 0) (acc := @nil VerseReference)
    as (ms1 & H1 & ->); [rewrite minlen_pattern1; lia | lia |].
  destruct (findLoop_terminates pattern2 text) with
    (fuel := S (S (length text))) (i := 0) (acc := [] ++ kept text ms1)
    as (ms2 & H2 & ->); [rewrite minlen_pattern2; lia | lia |].
  exists ms1, ms2. simpl. auto.
Qed.

Lemma extractVerseReferences_total note :
  exists refs, extractVerseReferences note = Some refs.
Proof.
  unfold extractVerseReferences.
  destruct (dataRefReferences _); [|eauto].
  destruct (findBibleReferences_spec (fullText note)) as (ms1 & ms2 & -> & _).
  eauto.
Qed.

(** ** The notes that become footnotes *)

Lemma parseInt_empty : parseInt [] = NaN.
Proof. reflexivity. Qed.

Lemma parseNote_spec note :
  (accepted note = true /\ exists f, parseNote note = Some (Some f) /\ builtFrom note f)
  \/ (accepted note = false /\ parseNote note = Some None).
Proof.
  unfold accepted, numberParses, hasContent, parseNote, builtFrom, noteNumber.
  destruct (extractVerseReferences_total note) as (refs & ->).
  destruct (jstring_eqb (trim (superText note)) []) eqn:En.
  - apply jstring_eqb_eq in En. rewrite En, parseInt_empty. simpl. auto.
  - destruct (parseInt (trim (superText note))) as [|z]; simpl; [auto|].
    destruct (jstring_eqb (cleanContent _) []); simpl; [auto|].
    left. split; [reflexivity|]. eexists. split; [reflexivity|]. simpl. auto.
Qed.

Lemma eachNote_spec notes : forall acc,
  exists fs, eachNote notes acc = Some (acc ++ fs)
             /\ Forall2 builtFrom (filter accepted notes) fs.
Proof.
  induction notes as [|note notes IH]; intros acc; simpl.
  - exists []. rewrite app_nil_r. auto.
  - destruct (parseNote_spec note) as [(-> & f & -> & Hf) | (-> & ->)].
    + destruct (IH (acc ++ [f])) as (fs & -> & Hfs).
      exists (f :: fs). rewrite <- app_assoc. simpl. auto.
    + apply IH.
Qed.

Lemma filter_length_all {A} (p : A -> bool) l :
  length (filter p l) = length l <-> forallb p l = true.
Proof.
  induction l as [|x l IH]; simpl; [tauto|].
  pose proof (filter_length_le p l).
  destruct (p x); simpl.
  - rewrite <- IH. lia.
  - split; [lia | discriminate].
Qed.

(** ** parseFootnotes *)

Section Cheerio.

Variable selectNotes : jstring -> list NoteElement.

Lemma parseFootnotes_spec html :
  exists fs,
    parseFootnotes selectNotes html = Some fs
    /\ Forall2 builtFrom (filter accepted (selectNotes html)) fs.
Proof.
  unfold parseFootnotes.
  destruct (eachNote_spec (selectNotes html) []) as (fs & H & Hfs).
  exists fs. auto.
Qed.

(** C3, amended.  [parseFootnotes] returns on every markup; it yields at
    most one footnote for each note, and exactly one for each if and only if
    every note has a number that parses and a content that is not empty. *)
Theorem parseFootnotes_returns_at_most_one_per_note :
  forall html : jstring,
  exists fs,
    parseFootnotes selectNotes html = Some fs
    /\ length fs <= length (selectNotes html)
    /\ (length fs = length (selectNotes html)
        <-> forallb accepted (selectNotes html) = true).
Proof.
  intros html. destruct (parseFootnotes_spec html) as (fs & H & Hfs).
  exists fs. split; [assumption|].
  apply Forall2_length in Hfs. rewrite <- Hfs.
  split; [apply filter_length_le | apply filter_length_all].
Qed.

(** C4, amended.  The footnotes are, in document order, those of the notes
    whose number parses as an integer, negative ones included, and whose
    collapsed and trimmed content is not empty: a note that fails either
    test leaves no entry, and the notes after it are still scanned. *)
Theorem parseFootnotes_keeps_the_accepted_notes :
  forall html : jstring,
  exists fs,
    parseFootnotes selectNotes html = Some fs
    /\ Forall2 builtFrom (filter accepted (selectNotes html)) fs.
Proof.
  intros html. unfold parseFootnotes.
  destruct (eachNote_spec (selectNotes html) []) as (fs & H & Hfs).
  exists fs. split; assumption.
Qed.

End Cheerio.

(** C3 fails as stated: the only note has the number 1, which parses, and
    yet no footnote comes out, its content being empty. *)
Lemma number_alone_is_not_enough :
  ~ length_decided_by_numbers (fun _ => [numberOnlyNote]) numberOnlyMarkup.
Proof.
  intros (fs & H & _ & Hiff).
  assert (Hfs : fs = []) by (vm_compute in H; congruence).
  subst fs. destruct Hiff as [_ Hall].
  specialize (Hall eq_refl). discriminate.
Qed.

Example negativeNote_parsed :
  parseFootnotes (fun _ => [negativeNote]) negativeMarkup
  = Some [{| id := js "note_-5"; number := (-5)%Z; type := [];
             content := js "Or spirit."; verseReferences := [] |}].
Proof. vm_compute. reflexivity. Qed.

(** C4 fails as stated: a note whose number is negative becomes a
    footnote. *)
Lemma negative_number_is_kept :
  ~ footnotes_of_nonnegative_notes (fun _ => [negativeNote]) negativeMarkup.
Proof.
  intros (fs & H & Hfs).
  rewrite negativeNote_parsed in H. injection H as <-.
  assert (E : filter (fun note => nonNegativeNumber note && hasContent note)%bool
                     [negativeNote] = [])
    by (vm_compute; reflexivity).
  rewrite E in Hfs. inversion Hfs.
Qed.

(** ** extractVerseReferences *)

(** The references of a note come from one strategy alone: the scan of the
    plain text runs if and only if the explicit tags yield no reference,
    and its result is then the whole list; otherwise the list is that of
    the explicit tags. *)
Lemma extractVerseReferences_cases :
  forall note : NoteElement,
  exists refs,
    extractVerseReferences note = Some refs
    /\ ((explicitReferences note = []
         /\ findBibleReferences (fullText note) = Some refs)
        \/ (explicitReferences note <> [] /\ refs = explicitReferences note)).
Proof.
  intros note. unfold extractVerseReferences, explicitReferences.
  destruct (dataRefReferences _) as [|r rs] eqn:E.
  - destruct (findBibleReferences_spec (fullText note)) as (ms1 & ms2 & H & _).
    rewrite H. simpl. eauto.
  - eexists. split; [reflexivity|]. right. split; [discriminate | reflexivity].
Qed.

Example twoCitations_references :
  option_map (map (fun r => (book r, display r)))
    (extractVerseReferences (plainNote twoCitations))
  = Some [(VStr (js "John"), js " John 3:16"); (VStr (js "Luke"), js " Luke 6:20");
          (VStr (js "John"), js "John 3:16"); (VStr (js "Luke"), js "Luke 6:20")].
Proof. vm_compute. reflexivity. Qed.

(** C6 fails as stated: both patterns find both citations, the second
    pattern after the first, so the third record lies left of the second. *)
Lemma fallback_is_not_left_to_right :
  ~ leftToRight (plainNote twoCitations).
Proof.
  intros H.
  destruct (extractVerseReferences (plainNote twoCitations)) as [refs|] eqn:E;
    [|vm_compute in E; discriminate].
  specialize (H refs E).
  vm_compute in E. injection E as <-.
  vm_compute in H. destruct H as (_ & H & _).
  inversion H as [|? ? Hle _]. apply Hle. reflexivity.
Qed.

(** C6, amended.  On the fallback path the list is the kept matches of the
    first pattern followed by the kept matches of the second; within each
    pattern the matches run from left to right, and every kept match gives a
    record of its own, so that a citation both patterns find is listed
    twice. *)
Theorem fallback_lists_each_pattern_left_to_right :
  forall note : NoteElement,
    explicitReferences note = [] ->
    exists ms1 ms2,
      extractVerseReferences note
      = Some (kept (fullText note) ms1 ++ kept (fullText note) ms2)
      /\ matchesFrom pattern1 (fullText note) 0 ms1
      /\ matchesFrom pattern2 (fullText note) 0 ms2
      /\ ascending (map m_index ms1)
      /\ ascending (map m_index ms2).
Proof.
  intros note Hex. unfold extractVerseReferences.
  unfold explicitReferences in Hex. rewrite Hex.
  destruct (findBibleReferences_spec (fullText note)) as (ms1 & ms2 & H & H1 & H2).
  exists ms1, ms2. rewrite H. simpl. repeat split; try assumption.
  - apply (matchesFrom_ascending pattern1 (fullText note)) with (i := 0);
      [rewrite minlen_pattern1; lia | assumption].
  - apply (matchesFrom_ascending pattern2 (fullText note)) with (i := 0);
      [rewrite minlen_pattern2; lia | assumption].
Qed.

Lemma fallback_lists_each_pattern_left_to_right_witness :
  explicitReferences (plainNote twoCitations) = []
  /\ exists ms1 ms2,
      extractVerseReferences (plainNote twoCitations)
      = Some (kept twoCitations ms1 ++ kept twoCitations ms2)
      /\ matchesFrom pattern1 twoCitations 0 ms1
      /\ matchesFrom pattern2 twoCitations 0 ms2
      /\ ascending (map m_index ms1)
      /\ ascending (map m_index ms2).
Proof.
  split; [vm_compute; reflexivity|].
  apply (fallback_lists_each_pattern_left_to_right (plainNote twoCitations)).
  vm_compute; reflexivity.
Defined.

(** ** The display texts of the references *)

Lemma parseDataRef_display ref d r : parseDataRef ref d = Some r -> display r = d.
Proof.
  unfold parseDataRef. destruct (match_ refGrammar ref); [|discriminate].
  intros H. injection H as <-. reflexivity.
Qed.

Lemma dataRefAnchored_display match0 mt :
  match_ dataRefAnchored match0 = Some mt -> grp match0 mt 2 <> [].
Proof.
  intros H. unfold grp.
  destruct (group_nonempty match0 (fun _ => 1) dataRefAnchored 0 mt 2) as (t & -> & Ht).
  - simpl. repeat split; auto.
  - exact H.
  - simpl. auto.
  - lia.
  - assumption.
Qed.

Lemma fold_left_Forall {A B} (P : A -> Prop) (f : list A -> B -> list A) l :
  (forall acc x, Forall P acc -> Forall P (f acc x)) ->
  forall acc, Forall P acc -> Forall P (fold_left f l acc).
Proof.
  intros Hf. induction l as [|x l IH]; simpl; auto.
Qed.

Lemma pushOpt_Forall (P : VerseReference -> Prop) acc o :
  Forall P acc -> (forall r, o = Some r -> P r) -> Forall P (pushOpt acc o).
Proof.
  intros Hacc Ho. destruct o as [r|]; simpl; [|assumption].
  apply Forall_app. split; [assumption|]. constructor; [auto | constructor].
Qed.

Lemma dataRefReferences_display html :
  Forall (fun r => display r <> []) (dataRefReferences html).
Proof.
  unfold dataRefReferences. apply fold_left_Forall; [|constructor].
  intros acc match0 Hacc.
  destruct (match_ dataRefAnchored match0) as [mt|] eqn:E; [|assumption].
  apply pushOpt_Forall; [assumption|].
  intros r Hr. rewrite (parseDataRef_display _ _ _ Hr).
  apply dataRefAnchored_display. assumption.
Qed.

Lemma referenceOfMatch_display text mt r :
  referenceOfMatch text mt = Some r -> display r = matched text mt.
Proof.
  unfold referenceOfMatch. destruct (isValidBookName _); [|discriminate].
  intros H. injection H as <-. reflexivity.
Qed.

Lemma kept_display r text :
  1 <= minlen r ->
  forall i ms, matchesFrom r text i ms ->
               Forall (fun ref => display ref <> []) (kept text ms).
Proof.
  intros Hmin i ms H. induction H as [i E | i mt ms E H IH]; simpl; [constructor|].
  destruct (referenceOfMatch text mt) as [ref|] eqn:Eref; [|assumption].
  constructor; [|assumption].
  rewrite (referenceOfMatch_display _ _ _ Eref).
  pose proof (exec_bounds _ _ _ _ E) as (? & ? & ?).
  intros Hnil. apply (f_equal (@length N)) in Hnil. unfold matched in Hnil.
  rewrite substring_length in Hnil by lia. simpl in Hnil. lia.
Qed.

(** Every reference the parser extracts has a display text that is not
    empty: the references of parsed footnotes meet the hypothesis under
    which the linking is studied. *)
Lemma extractVerseReferences_display note refs :
  extractVerseReferences note = Some refs ->
  Forall (fun r => display r <> []) refs.
Proof.
  unfold extractVerseReferences.
  pose proof (dataRefReferences_display
                (match innerHtml note with Some h => h | None => [] end)) as Hex.
  destruct (dataRefReferences _) as [|r0 rs].
  - destruct (findBibleReferences_spec (fullText note)) as (ms1 & ms2 & -> & H1 & H2).
    intros H. injection H as <-. simpl. apply Forall_app. split.
    + apply (kept_display pattern1 (fullText note)) with (i := 0);
        [rewrite minlen_pattern1; lia | assumption].
    + apply (kept_display pattern2 (fullText note)) with (i := 0);
        [rewrite minlen_pattern2; lia | assumption].
  - intros H. injection H as <-. assumption.
Qed.

Lemma parseFootnotes_display selectNotes html fs :
  parseFootnotes selectNotes html = Some fs ->
  Forall (fun f => Forall (fun r => display r <> []) (verseReferences f)) fs.
Proof.
  intros H. destruct (parseFootnotes_spec selectNotes html) as (fs' & H' & Hfs).
  rewrite H in H'. injection H' as <-. clear H.
  induction Hfs as [|note f notes fs0 Hb _ IH]; constructor; [|assumption].
  destruct Hb as (_ & _ & _ & _ & Hrefs).
  apply (extractVerseReferences_display note). assumption.
Qed.

(** ** The scenarios of the specification *)

(** Scenario A: one footnote, with one reference, to John 1:24. *)
Example scenario_tagged_note :
  parseFootnotes (fun _ => [taggedNote]) []
  = Some [{| id := js "note_1"; number := 1; type := js "sn";
             content := js "See 1:24.";
             verseReferences :=
               [{| book := VStr (js "John"); chapter := Num 1;
                   verse := Some (Num 24); endVerse := None;
                   display := js "1:24" |}] |}].
Proof. vm_compute. reflexivity. Qed.

(** Scenario B: the tags Mt 5:3 and Lu 6:20 give Matthew and Luke. *)
Example scenario_two_tags :
  map (fun r => (book r, chapter r, verse r, display r))
      (dataRefReferences (js "Compare " ++ dataTag "Mt 5:3" "Mt 5:3" ++ js " with "
                          ++ dataTag "Lu 6:20" "Lu 6:20" ++ js "."))
  = [(VStr (js "Matthew"), Num 5, Some (Num 3), js "Mt 5:3");
     (VStr (js "Luke"), Num 6, Some (Num 20), js "Lu 6:20")].
Proof. vm_compute. reflexivity. Qed.

(** Scenario D: a note numbered with a dash is left out, the notes around
    it are kept. *)
Example scenario_dash_number :
  option_map (map number)
    (parseFootnotes (fun _ => [taggedNote; dashNote; negativeNote]) [])
  = Some [1%Z; (-5)%Z].
Proof. vm_compute. reflexivity. Qed.

(** ** The book tables *)

Lemma jsval_eqb_eq a b : jsval_eqb a b = true -> a = b.
Proof.
  destruct a, b; simpl; intros H; try discriminate;
    apply jstring_eqb_eq in H; congruence.
Qed.

Lemma bookMap_checked : forallb knownCodeOk bookMap = true.
Proof. vm_compute. reflexivity. Qed.

Example bookMap_size : length bookMap = 67.
Proof. reflexivity. Qed.

Lemma nodupb_NoDup l : nodupb l = true -> NoDup l.
Proof.
  induction l as [|x l IH]; simpl; intros H; constructor;
    apply andb_true_iff in H; destruct H as [H1 H2]; [|auto].
  intros Hin. apply negb_true_iff in H1.
  assert (existsb (jstring_eqb x) l = true); [|congruence].
  apply existsb_exists. exists x. split; [assumption | apply jstring_eqb_refl].
Qed.

Example validBooks_size : length validBooks = 66 /\ NoDup validBooks.
Proof.
  split; [reflexivity|]. apply nodupb_NoDup. vm_compute. reflexivity.
Qed.

Lemma isValidBookName_In name : isValidBookName (VStr name) = true -> In name validBooks.
Proof.
  unfold isValidBookName. intros H. apply existsb_exists in H.
  destruct H as (b & Hin & Hb). apply jsval_eqb_eq in Hb. congruence.
Qed.

(** C10.  Every code of the table expands to one of the 66 canonical
    names; so the check of the fallback path lets through every candidate
    whose leading word is a code of the table. *)
Theorem known_codes_expand_to_canonical_names :
  forall code name : jstring,
    In (code, name) bookMap ->
    expandBookName code = VStr name
    /\ In name validBooks
    /\ isValidBookName (expandBookName code) = true
    /\ forall text mt,
         trim (grp text mt 1) = code ->
         exists r, referenceOfMatch text mt = Some r /\ book r = VStr name.
Proof.
  intros code name Hin.
  pose proof bookMap_checked as H. rewrite forallb_forall in H.
  specialize (H _ Hin). unfold knownCodeOk in H. simpl in H.
  apply andb_true_iff in H. destruct H as [H1 H2].
  apply jsval_eqb_eq in H1.
  repeat split.
  - assumption.
  - apply isValidBookName_In. assumption.
  - rewrite H1. assumption.
  - intros text mt Hcode. unfold referenceOfMatch.
    rewrite Hcode, H1, H2. eexists. split; reflexivity.
Qed.

Lemma known_codes_expand_to_canonical_names_witness :
  In (js "Jn", js "John") bookMap
  /\ expandBookName (js "Jn") = VStr (js "John")
  /\ In (js "John") validBooks
  /\ isValidBookName (expandBookName (js "Jn")) = true
  /\ forall text mt,
       trim (grp text mt 1) = js "Jn" ->
       exists r, referenceOfMatch text mt = Some r /\ book r = VStr (js "John").
Proof.
  assert (Hin : In (js "Jn", js "John") bookMap).
  { unfold bookMap. simpl. do 4 right. left. reflexivity. }
  split; [exact Hin|].
  exact (known_codes_expand_to_canonical_names (js "Jn") (js "John") Hin).
Defined.

(** A code that is neither in the table nor the name of a member every
    object inherits comes back unchanged. *)
Lemma expandBookName_unknown code :
  ownProp bookMap code = None ->
  existsb (jstring_eqb code) objectPrototypeKeys = false ->
  expandBookName code = VStr code.
Proof.
  unfold expandBookName, getProp. intros -> ->. reflexivity.
Qed.

(** C8 at the code [constructor]: the lookup in the table finds the member
    that the table inherits, which is not a string, and hands it back in
    place of the code; the explicit tag is accepted with that value as its
    book.  The code [Xy] of the scenario behaves as the claim says: kept
    unchanged from a tag, rejected in plain text. *)
Theorem expandBookName_on_inherited_name :
  expandBookName (js "constructor") = VInherited (js "constructor")
  /\ expandBookName (js "constructor") <> VStr (js "constructor")
  /\ parseDataRef (js "Bible:constructor 1:1") (js "x")
     = Some {| book := VInherited (js "constructor"); chapter := Num 1;
               verse := Some (Num 1); endVerse := None; display := js "x" |}
  /\ parseDataRef (js "Bible:Xy 1:2") (js "Xy 1:2")
     = Some {| book := VStr (js "Xy"); chapter := Num 1;
               verse := Some (Num 2); endVerse := None; display := js "Xy 1:2" |}
  /\ findBibleReferences (js "See Xy 1:2.") = Some [].
Proof.
  repeat split; try (vm_compute; reflexivity).
  vm_compute. discriminate.
Qed.

End ParserFacts.

(** * The rewrite of a footnote, on the scenarios of the specification *)

Module RewriteFacts.
Import MarkdownGenerator LinkingFacts.

(** Why the display texts must not be empty.  For an empty display text
    the pattern matches the empty string at a word boundary; after the first
    substitution the range just recorded starts at [matchEnd], so it is moved
    along with the others, and the next candidate, found where the search
    resumes, lies in it: [exec] then leaves [lastIndex] where it is and the
    loop turns for ever. *)
Example empty_display_does_not_end :
  linkIter noDisplay {| processed := js "a"; linkedRanges := []; lastIndex := 0 |}
  = Some stuck
  /\ linkIter noDisplay stuck = Some stuck
  /\ forall fuel,
       linkLoop fuel noDisplay
         {| processed := js "a"; linkedRanges := []; lastIndex := 0 |} = None.
Proof.
  assert (H0 : linkIter noDisplay
                 {| processed := js "a"; linkedRanges := []; lastIndex := 0 |}
               = Some stuck) by (vm_compute; reflexivity).
  assert (H1 : linkIter noDisplay stuck = Some stuck) by (vm_compute; reflexivity).
  assert (H2 : forall fuel, linkLoop fuel noDisplay stuck = None).
  { induction fuel as [|fuel IH]; [reflexivity|].
    cbn [linkLoop]. rewrite H1. exact IH. }
  repeat split; try assumption.
  intros [|fuel]; [reflexivity|]. cbn [linkLoop]. rewrite H0. apply H2.
Qed.


(** With the display texts 3:16 and John 3:16 among the references, in
    either order, the longer one is handled first, and these texts that
    contain John 3:16 come out with one link, over the whole phrase: the
    phrase alone, inside a sentence and between brackets, whether or not
    the footnote id names a book. *)
Example linked_phrase_instances :
  sortRefs [short; long] = [long; short]
  /\ forall refs id_ pre post,
       In refs [[short; long]; [long; short]] ->
       In id_ ["note_1"; "note_John_3_16"]%string ->
       In (pre, post) [("", ""); ("See ", " there."); ("(", ")")]%string ->
       let text := js pre ++ js "John 3:16" ++ js post in
       let linked := js pre ++ js "[[John 3#16|John 3:16]]" ++ js post in
       linkReferences text (Some (footnote id_ text refs))
       = Some (linked, [{| r_start := length (js pre);
                           r_end := length (js pre) + 23 |}])
       /\ processFootnoteContent text (Some (footnote id_ text refs)) = Some linked
       /\ occurrences (js "[[") linked = 1.
Proof.
  split; [reflexivity|].
  intros refs id_ pre post Hrefs Hid Hpp. simpl in Hrefs, Hid, Hpp.
  destruct Hrefs as [<-|[<-|[]]]; destruct Hid as [<-|[<-|[]]];
    destruct Hpp as [Hpp|[Hpp|[Hpp|[]]]]; injection Hpp as <- <-;
    repeat split; vm_compute; reflexivity.
Qed.

(** The expectations of the unit tests of the repository
    (linking.test.ts). *)
Example test_data_ref_becomes_link :
  processFootnoteContent
    (js "See reference in " ++ dataTag "Jn 1:24" "1:24" ++ js " for context.") None
  = Some (js "See reference in [[John 1#24|1:24]] for context.").
Proof. vm_compute. reflexivity. Qed.

Example test_two_data_refs :
  processFootnoteContent
    (js "Compare " ++ dataTag "Mt 5:3" "Mt 5:3" ++ js " with "
     ++ dataTag "Lu 6:20" "Lu 6:20" ++ js ".") None
  = Some (js "Compare [[Matthew 5#3|Mt 5:3]] with [[Luke 6#20|Lu 6:20]].").
Proof. vm_compute. reflexivity. Qed.

Example test_other_tags_removed :
  processFootnoteContent
    (js "Greek <i>pneuma</i> means <span class=" ++ dq ++ js "greek" ++ dq ++ js ">"
     ++ [960; 957; 949; 8166; 956; 945]%N ++ js "</span>.") None
  = Some (js "Greek pneuma means " ++ [960; 957; 949; 8166; 956; 945]%N ++ js ".").
Proof. vm_compute. reflexivity. Qed.

Example test_generateVerseLink :
  generateVerseLink (reference "John" 3 16 "John 3:16") = js "[[John 3#16|John 3:16]]"
  /\ generateVerseLink
       {| book := VStr (js "Matthew"); chapter := Num 5; verse := Some (Num 3);
          endVerse := Some (Num 5); display := js "Matt 5:3-5" |}
     = js "[[Matthew 5#3|Matt 5:3-5]]"
  /\ generateVerseLink (reference "Genesis" 1 0 "Genesis 1") = js "[[Genesis 1|Genesis 1]]".
Proof. repeat split; vm_compute; reflexivity. Qed.

(** The registry records the substitutions of step 3 alone.  A link that
    step 1 wrote for an explicit tag is not claimed, and a reference whose
    display text is the label of such a link is linked inside it. *)
Example links_of_step_1_are_not_claimed :
  processFootnoteContent (js "See " ++ dataTag "Jn 1:24" "1:24" ++ js ".")
    (Some (footnote "note_1" (js "See " ++ dataTag "Jn 1:24" "1:24" ++ js ".")
             [reference "John" 1 24 "1:24"]))
  = Some (js "See [[John 1#24|[[John 1#24|1:24]]]].").
Proof. vm_compute. reflexivity. Qed.

(** C7 at the token 1:0 in a footnote of John 3:1: the pass writes a link
    to the anchor of verse 0, where [generateVerseLink] links a reference
    whose verse is 0 to the chapter. *)
Theorem shorthand_links_verse_zero_to_an_anchor :
  processFootnoteContent (js "See 1:0.")
    (Some (footnote "note_John_3_1" (js "See 1:0.") []))
  = Some (js "See [[John 1#0|1:0]].")
  /\ generateVerseLink (reference "John" 1 0 "1:0") = js "[[John 1|1:0]]".
Proof. split; vm_compute; reflexivity. Qed.

Lemma rewriteDataRefs_plain text : ~ In 60%N text -> rewriteDataRefs text = text.
Proof.
  intros H. unfold rewriteDataRefs. apply replaceAll_none. intros i.
  unfold matchAt. simpl.
  destruct (nth_error text i) as [c|] eqn:E; [|reflexivity].
  destruct (N.eqb_spec c 60) as [->|]; [|reflexivity].
  exfalso. apply H. eapply nth_error_In. eassumption.
Qed.

Lemma stripTags_plain text : ~ In 60%N text -> stripTags text = text.
Proof.
  intros H. unfold stripTags. apply replaceAll_none. intros i.
  apply (matchAt_first_char 60 _ text i H).
Qed.

(** Without a book for the footnote the last pass changes nothing: the
    result is the text as steps 1 to 3 left it, and when the footnote has
    no references and the content no markup, the content itself, so that a
    bare 1:4 stays as it is. *)
Lemma shorthand_pass_needs_a_book :
  forall content_ f,
    extractBookFromFootnote f = None ->
    processFootnoteContent content_ f = beforeShorthand content_ f
    /\ (~ In 60%N content_ ->
        match f with Some fn => verseReferences fn = [] | None => True end ->
        processFootnoteContent content_ f = Some content_).
Proof.
  intros content_ f Hnone. split.
  - unfold processFootnoteContent, beforeShorthand. rewrite Hnone.
    destruct (linkReferences _ f) as [[p rs]|]; reflexivity.
  - intros Hplain Hrefs. unfold processFootnoteContent.
    rewrite Hnone, (rewriteDataRefs_plain _ Hplain), (stripTags_plain _ Hplain).
    destruct f as [fn|]; simpl; [rewrite Hrefs|]; reflexivity.
Qed.

(** The scenario of the id note_John_3_1: without the book a bare 1:4
    stays bare, with it the token becomes a link to verse 4 of John 1. *)
Example scenario_shorthand :
  extractBookFromFootnote (Some (footnote "note_7" (js "See 1:4.") [])) = None
  /\ processFootnoteContent (js "See 1:4.") (Some (footnote "note_7" (js "See 1:4.") []))
     = Some (js "See 1:4.")
  /\ processFootnoteContent (js "See 1:4.") None = Some (js "See 1:4.")
  /\ extractBookFromFootnote (Some (footnote "note_John_3_1" (js "See 1:4.") []))
     = Some (js "John")
  /\ processFootnoteContent (js "See 1:4.")
       (Some (footnote "note_John_3_1" (js "See 1:4.") []))
     = Some (js "See [[John 1#4|1:4]].").
Proof. repeat split; vm_compute; reflexivity. Qed.

(** C9 on a content of a footnote of John 3:1 that cites another book and
    then has a bare 1:4.  Step 3 links the citation of Mark; the pattern of
    the last pass then finds the bare 1:4 alone, at the end of the text,
    but the callback looks the matched text up with [indexOf], which finds
    the 1:4 in the label of the link: the test for a link around it is
    made there, and the bare token stays as it is.  The same token in a
    content without the citation is linked. *)
Theorem shorthand_lookup_finds_the_linked_token :
  FootnotesParser.parseNote markNote = Some (Some markFootnote)
  /\ extractBookFromFootnote (Some markFootnote) = Some (js "John")
  /\ beforeShorthand (content markFootnote) (Some markFootnote) = Some markLinked
  /\ matchAll shorthandPattern markLinked = [js "1:4"]
  /\ option_map m_index (exec shorthandPattern markLinked 0) = Some 35
  /\ indexOf markLinked (js "1:4") = Some 24
  /\ processFootnoteContent (content markFootnote) (Some markFootnote) = Some markLinked
  /\ processFootnoteContent (js "Compare Mark 1:4 with 1:4")
       (Some (footnote "note_John_3_1" (js "Compare Mark 1:4 with 1:4")
                [reference "Mark" 1 4 "Mark 1:4"]))
     = Some (js "Compare [[Mark 1#4|Mark 1:4]] with 1:4")
  /\ processFootnoteContent (js "Compare with 1:4")
       (Some (footnote "note_John_3_1" (js "Compare with 1:4") []))
     = Some (js "Compare with [[John 1#4|1:4]]").
Proof. repeat split; vm_compute; reflexivity. Qed.

End RewriteFacts.

(** * What a match looks like *)

Module ShapeFacts.

Lemma substring_empty (s : jstring) i : substring s i i = [].
Proof. unfold substring. rewrite Nat.sub_diag. reflexivity. Qed.

Lemma firstn_plus {A} (l : list A) a b :
  firstn a l ++ firstn b (skipn a l) = firstn (a + b) l.
Proof.
  revert l. induction a as [|a IH]; intros l; [reflexivity|].
  destruct l as [|x l]; simpl.
  - rewrite firstn_nil. reflexivity.
  - f_equal. apply IH.
Qed.

Lemma substring_app (s : jstring) i j k :
  i <= j -> j <= k -> substring s i j ++ substring s j k = substring s i k.
Proof.
  intros Hij Hjk. unfold substring.
  replace (skipn j s) with (skipn (j - i) (skipn i s))
    by (rewrite skipn_skipn; f_equal; lia).
  rewrite firstn_plus. f_equal. lia.
Qed.

Lemma substring_single (s : jstring) i ch :
  nth_error s i = Some ch -> substring s i (S i) = [ch].
Proof.
  unfold substring. replace (S i - i) with 1 by lia.
  revert s. induction i as [|i IH]; intros [|c s] H; simpl in *; try discriminate.
  - congruence.
  - apply IH. assumption.
Qed.

Section Fit.

Variable s : jstring.
Variable holds : nat -> jstring -> Prop.

Local Abbreviation groups_fit := (MatchText.groups_fit holds).
Local Abbreviation caps_fit := (MatchText.caps_fit s holds).
Local Abbreviation consumes := (MatchText.consumes s holds).

Ltac rest_here :=
  split; [lia|]; split; [lia|]; split; [|split; [auto | assumption]].

Lemma star_consumes a ma n :
  consumes a ma -> consumes (RStar a) (fun i c k => star_loop ma k n i c).
Proof.
  intros Hma. induction n as [|n IH]; intros i c k res Hi H; simpl in H.
  - exists i, c. rewrite substring_empty. rest_here.
    exists []. split; [reflexivity | constructor].
  - apply orElse_some in H. destruct H as [H | H].
    + apply Hma in H; [|assumption].
      destruct H as (j & c' & Hij & Hj & Hsh & Hc & H).
      destruct (Nat.ltb i j); [|discriminate].
      apply IH in H; [|assumption].
      destruct H as (j' & c'' & Hjj & Hj' & (ts & Hts & Hall) & Hc' & H).
      exists j', c''. rest_here.
      exists (substring s i j :: ts). split; [|constructor; assumption].
      simpl. rewrite <- Hts. symmetry. apply substring_app; assumption.
    + exists i, c. rewrite substring_empty. rest_here.
      exists []. split; [reflexivity | constructor].
Qed.

(** The matcher is sound for the shapes: what it consumes for [r] is of the
    shape of [r], and what its groups capture has the properties that their
    patterns guarantee. *)
Lemma m_consumes r : groups_fit r -> consumes r (m r s).
Proof.
  induction r as [| cl | a IHa b IHb | a IHa | a IHa | n a IHa | | | | cls | a IHa];
    intros Hok i c k res Hi H; simpl in H, Hok.
  - exists i, c. rewrite substring_empty. rest_here. reflexivity.
  - destruct (nth_error s i) as [ch|] eqn:E; [|discriminate].
    destruct (cmatch cl ch) eqn:Ecl; [|discriminate].
    assert (i < length s) by (apply nth_error_Some; congruence).
    exists (S i), c. rest_here.
    simpl. exists ch. split; [apply substring_single; assumption | assumption].
  - destruct Hok as [Hoka Hokb].
    apply (IHa Hoka) in H; [|assumption].
    destruct H as (j & c' & ? & ? & Hsa & Hca & H).
    apply (IHb Hokb) in H; [|assumption].
    destruct H as (j' & c'' & ? & ? & Hsb & Hcb & H).
    exists j', c''. rest_here.
    simpl. exists (substring s i j), (substring s j j').
    split; [symmetry; apply substring_app; assumption | auto].
  - apply (star_consumes a (m a s) (S (length s - i)) (IHa Hok)) in H; assumption.
  - apply orElse_some in H. destruct H as [H | H].
    + apply (IHa Hok) in H; [|assumption].
      destruct H as (j & c' & ? & ? & Hsa & Hca & H).
      destruct (Nat.ltb i j); [|discriminate].
      exists j, c'. rest_here. simpl. right. assumption.
    + exists i, c. rewrite substring_empty. rest_here. simpl. left. reflexivity.
  - destruct Hok as [Hn Hok].
    apply (IHa Hok) in H; [|assumption].
    destruct H as (j & c' & ? & ? & Hsa & Hca & H).
    exists j, ((n, (i, j)) :: c'). split; [lia|]. split; [assumption|].
    split; [exact Hsa|]. split; [|assumption].
    intros Hc g a0 b0. simpl. destruct (Nat.eqb_spec n g) as [->|Hne].
    + intros E. injection E as <- <-. repeat split; auto.
    + apply Hca. assumption.
  - destruct (Nat.eqb i 0); [|discriminate].
    exists i, c. rewrite substring_empty. rest_here. reflexivity.
  - destruct (Nat.eqb i (length s)); [|discriminate].
    exists i, c. rewrite substring_empty. rest_here. reflexivity.
  - destruct (xorb _ _); [|discriminate].
    exists i, c. rewrite substring_empty. rest_here. reflexivity.
  - destruct (behind s i cls); [discriminate|].
    exists i, c. rewrite substring_empty. rest_here. reflexivity.
  - destruct (m a s i c _); [discriminate|].
    exists i, c. rewrite substring_empty. rest_here. reflexivity.
Qed.

End Fit.

(** What [exec] finds is of the shape of the pattern, and so are the texts
    of its groups. *)
Lemma exec_shape s holds r i mt :
  groups_fit holds r -> exec r s i = Some mt ->
  shape r (matched s mt) /\ caps_fit s holds (m_caps mt).
Proof.
  intros Hok H. pose proof (exec_bounds _ _ _ _ H) as (_ & ? & ?).
  apply exec_index in H. unfold matchAt in H.
  destruct (m r s (m_index mt) [] _) as [[j c]|] eqn:E; [|discriminate].
  apply (m_consumes s holds r Hok) in E; [|lia].
  destruct E as (j' & c' & ? & ? & Hsh & Hc & E). injection E as -> ->.
  destruct mt as [a b cc]. simpl in *. injection H as <- <-.
  unfold matched. simpl. split; [assumption|].
  apply Hc. intros n a0 b0 E. discriminate.
Qed.

(** The text of a group that took part in the match. *)
Lemma group_holds s holds r i mt g t :
  groups_fit holds r -> exec r s i = Some mt ->
  group s mt g = Some t -> holds g t.
Proof.
  intros Hok H Hg. destruct (exec_shape s holds r i mt Hok H) as [_ Hc].
  unfold group in Hg. destruct (cap (m_caps mt) g) as [[a b]|] eqn:E; [|discriminate].
  injection Hg as <-. apply (Hc g a b E).
Qed.

End ShapeFacts.
Import ShapeFacts.

(** * The references the parser extracts *)

Module ReferenceFacts.
Import FootnotesParser.

Lemma plus_shape cl t :
  shape (RPlus (RSet cl)) t -> t <> [] /\ forallb (cmatch cl) t = true.
Proof.
  simpl. intros (t1 & t2 & -> & (ch & -> & Hch) & ts & -> & Hts).
  split; [discriminate|]. simpl. rewrite Hch. simpl.
  induction Hts as [|x ts (c & -> & Hc) _ IH]; [reflexivity|].
  simpl. rewrite Hc. exact IH.
Qed.

Lemma digits_shape t : shape (RPlus (RSet CDigit)) t -> digitsText t.
Proof. intros H. apply plus_shape in H. exact H. Qed.

Lemma needs_shape ch r : needs ch r = true -> forall t, shape r t -> In ch t.
Proof.
  induction r as [| cl | a IHa b IHb | a IHa | a IHa | n a IHa | | | | cls | a IHa];
    simpl; intros H t Ht; try discriminate.
  - destruct cl; try discriminate.
    destruct Ht as (c' & -> & Hc). simpl in Hc.
    apply N.eqb_eq in H. apply N.eqb_eq in Hc. subst. left. reflexivity.
  - destruct Ht as (t1 & t2 & -> & H1 & H2). apply in_or_app.
    apply orb_true_iff in H. destruct H; [left | right]; auto.
  - auto.
Qed.

(** ** parseInt on digits *)

Lemma isDigit_cases c :
  isDigit c = true ->
  c = 48%N \/ c = 49%N \/ c = 50%N \/ c = 51%N \/ c = 52%N \/ c = 53%N
  \/ c = 54%N \/ c = 55%N \/ c = 56%N \/ c = 57%N.
Proof.
  unfold isDigit, in_range. intros H. apply andb_true_iff in H.
  destruct H as [H1 H2]. apply N.leb_le in H1. apply N.leb_le in H2. lia.
Qed.

Lemma digitVal_digit c :
  isDigit c = true -> exists d, digitVal c = Some d /\ (0 <= d < 10)%Z.
Proof.
  intros H. apply isDigit_cases in H.
  repeat (destruct H as [->|H]); [..|subst c];
    (eexists; split; [reflexivity | lia]).
Qed.

Lemma digits_natural t :
  forallb isDigit t = true ->
  forall acc,
    (acc <> None \/ t <> []) ->
    (forall a, acc = Some a -> (0 <= a)%Z) ->
    exists v, digits 10 t acc = Some v /\ (0 <= v)%Z.
Proof.
  induction t as [|c t IH]; simpl; intros Hd acc Hne Hacc.
  - destruct acc as [a|]; [eauto | destruct Hne; congruence].
  - apply andb_true_iff in Hd. destruct Hd as [Hc Ht].
    destruct (digitVal_digit c Hc) as (d & -> & Hd).
    replace (d <? 10)%Z with true by (symmetry; apply Z.ltb_lt; lia).
    apply IH; [assumption | left; discriminate |].
    intros a Ha. injection Ha as <-.
    destruct acc as [a0|]; [specialize (Hacc a0 eq_refl); nia | lia].
Qed.

(** [parseInt] reads a text of digits as a number that is not negative. *)
Lemma parseInt_digits t : digitsText t -> natural (parseInt t).
Proof.
  intros [Hne Hd]. destruct t as [|c t]; [congruence|].
  assert (Hv : exists v, digits 10 (c :: t) None = Some v /\ (0 <= v)%Z).
  { apply digits_natural; [assumption | right; discriminate | discriminate]. }
  destruct Hv as (v & Hv & Hpos).
  assert (Hparse : parseInt (c :: t) = Num v).
  { unfold parseInt.
    simpl in Hd. apply andb_true_iff in Hd. destruct Hd as [Hc Ht].
    apply isDigit_cases in Hc.
    destruct t as [|c2 t].
    - repeat (destruct Hc as [->|Hc]); [..|subst c];
        simpl in Hv |- *; injection Hv as <-; reflexivity.
    - simpl in Ht. apply andb_true_iff in Ht. destruct Ht as [Hc2 Ht].
      apply isDigit_cases in Hc2.
      repeat (destruct Hc as [->|Hc]); try subst c;
        repeat (destruct Hc2 as [->|Hc2]); try subst c2;
        simpl in Hv |- *; rewrite Hv; destruct v; reflexivity. }
  exists v. split; assumption.
Qed.

(** ** The numbers of a citation *)

Lemma groups_fit_trivial r : groups_fit (fun _ _ => True) r.
Proof. induction r; simpl; auto. Qed.

Ltac fit :=
  repeat match goal with
         | |- _ /\ _ => split
         | |- True => exact I
         | |- forall t, _ -> numberGroups _ t =>
             let t := fresh "t" in
             let Ht := fresh "Ht" in
             let Hn := fresh "Hn" in
             intros t Ht Hn;
             first [exfalso; apply Hn; reflexivity | apply digits_shape; exact Ht]
         end.

Lemma refGrammar_fit : groups_fit numberGroups refGrammar.
Proof. unfold refGrammar. simpl. fit. Qed.

Lemma pattern1_fit : groups_fit numberGroups pattern1.
Proof. unfold pattern1. simpl. fit. Qed.

Lemma pattern2_fit : groups_fit numberGroups pattern2.
Proof. unfold pattern2. simpl. fit. Qed.

Lemma grp_group s mt n t : group s mt n = Some t -> FootnotesParser.grp s mt n = t.
Proof. unfold FootnotesParser.grp. intros ->. reflexivity. Qed.

(** The chapter, the verse and the end of the range that a citation
    pattern captured read as numbers that are not negative. *)
Lemma citation_numbers r s i mt :
  groups_fit numberGroups r ->
  In 2 (mandatory r) -> In 3 (mandatory r) ->
  exec r s i = Some mt ->
  natural (parseInt (FootnotesParser.grp s mt 2))
  /\ natural (parseInt (FootnotesParser.grp s mt 3))
  /\ (optParse (group s mt 4) = None
      \/ exists e, optParse (group s mt 4) = Some e /\ natural e).
Proof.
  intros Hfit H2 H3 Hex.
  destruct (exec_captures s (fun _ => 0) r i mt (groups_ok_zero r) Hex) as [_ Hset].
  assert (Hg : forall g, g <> 1 -> forall t, group s mt g = Some t -> digitsText t).
  { intros g Hg t Ht. exact (group_holds s numberGroups r i mt g t Hfit Hex Ht Hg). }
  assert (Hn : forall g, g <> 1 -> In g (mandatory r) ->
                         natural (parseInt (FootnotesParser.grp s mt g))).
  { intros g Hg1 Hin. specialize (Hset g Hin). unfold group in Hg.
    destruct (group s mt g) as [t|] eqn:E.
    - rewrite (grp_group _ _ _ _ E). apply parseInt_digits. apply (Hg g Hg1).
      exact E.
    - unfold group in E. destruct (cap (m_caps mt) g) as [[a b]|]; congruence. }
  split; [apply Hn; [discriminate | assumption]|].
  split; [apply Hn; [discriminate | assumption]|].
  destruct (group s mt 4) as [t|] eqn:E; [|left; reflexivity].
  right. assert (Hd : digitsText t) by (apply (Hg 4); [discriminate | exact E]).
  simpl. destruct (jstring_eqb t []) eqn:Et.
  - apply jstring_eqb_eq in Et. destruct Hd. congruence.
  - eexists. split; [reflexivity|]. apply parseInt_digits. assumption.
Qed.

Lemma parseDataRef_numbered ref d r : parseDataRef ref d = Some r -> numbered r.
Proof.
  unfold parseDataRef. destruct (match_ refGrammar ref) as [mt|] eqn:E; [|discriminate].
  intros H. injection H as <-. unfold numbered. cbn [chapter verse endVerse].
  destruct (citation_numbers refGrammar ref 0 mt refGrammar_fit) as (Hc & Hv & He);
    [simpl; auto | simpl; auto | exact E |].
  split; [assumption|]. split; [eauto | assumption].
Qed.

Lemma referenceOfMatch_numbered p text i mt r :
  groups_fit numberGroups p -> In 2 (mandatory p) -> In 3 (mandatory p) ->
  exec p text i = Some mt -> referenceOfMatch text mt = Some r -> numbered r.
Proof.
  intros Hfit H2 H3 Hex. unfold referenceOfMatch.
  destruct (isValidBookName _); [|discriminate].
  intros H. injection H as <-. unfold numbered. cbn [chapter verse endVerse].
  destruct (citation_numbers p text i mt Hfit H2 H3 Hex) as (Hc & Hv & He).
  split; [assumption|]. split; [eauto | assumption].
Qed.

Lemma kept_Forall (P : VerseReference -> Prop) p text :
  (forall i mt r, exec p text i = Some mt -> referenceOfMatch text mt = Some r -> P r) ->
  forall i ms, matchesFrom p text i ms -> Forall P (kept text ms).
Proof.
  intros HP i ms H. induction H as [i E | i mt ms E H IH]; simpl; [constructor|].
  destruct (referenceOfMatch text mt) as [r|] eqn:Er; [|assumption].
  constructor; [eapply HP; eassumption | assumption].
Qed.

Lemma dataRefReferences_Forall (P : VerseReference -> Prop) html :
  (forall ref d r, parseDataRef ref d = Some r -> P r) ->
  Forall P (dataRefReferences html).
Proof.
  intros HP. unfold dataRefReferences.
  apply ParserFacts.fold_left_Forall; [|constructor].
  intros acc match0 Hacc.
  destruct (match_ dataRefAnchored match0) as [mt|]; [|assumption].
  apply ParserFacts.pushOpt_Forall; [assumption|]. intros r Hr. eapply HP. exact Hr.
Qed.

Lemma findBibleReferences_Forall (P : VerseReference -> Prop) text :
  (forall p i mt r, In p patterns -> exec p text i = Some mt ->
                    referenceOfMatch text mt = Some r -> P r) ->
  exists refs, findBibleReferences text = Some refs /\ Forall P refs.
Proof.
  intros HP.
  destruct (ParserFacts.findBibleReferences_spec text) as (ms1 & ms2 & -> & H1 & H2).
  eexists. split; [reflexivity|]. apply Forall_app. split.
  - apply (kept_Forall P pattern1 text) with (i := 0); [|assumption].
    intros i mt r. apply HP. simpl. auto.
  - apply (kept_Forall P pattern2 text) with (i := 0); [|assumption].
    intros i mt r. apply HP. simpl. auto.
Qed.

(** X1: whichever way a reference was extracted, its chapter and verse are
    numbers that are not negative, never NaN, and so is the end of its
    range when it has one. *)
Theorem extracted_references_are_numbered :
  forall note : NoteElement,
  exists refs,
    extractVerseReferences note = Some refs /\ Forall numbered refs.
Proof.
  intros note. unfold extractVerseReferences.
  pose proof (dataRefReferences_Forall numbered
                (match innerHtml note with Some h => h | None => [] end)
                parseDataRef_numbered) as Hex.
  destruct (dataRefReferences _) as [|r0 rs].
  - destruct (findBibleReferences_Forall numbered (fullText note)) as (rs & -> & Hrs).
    + intros p i mt r [<-|[<-|[]]] Hexec Hr.
      * apply (referenceOfMatch_numbered pattern1 (fullText note) i mt r pattern1_fit);
          simpl; auto.
      * apply (referenceOfMatch_numbered pattern2 (fullText note) i mt r pattern2_fit);
          simpl; auto.
    + exists rs. split; [reflexivity | exact Hrs].
  - exists (r0 :: rs). split; [reflexivity | exact Hex].
Qed.

(** ** What the text scan gives *)

Lemma isValidBookName_VStr v :
  isValidBookName v = true -> exists name, v = VStr name /\ In name validBooks.
Proof.
  unfold isValidBookName. intros H. apply existsb_exists in H.
  destruct H as (b & Hin & Hb). apply ParserFacts.jsval_eqb_eq in Hb.
  exists b. split; [congruence | assumption].
Qed.

Lemma referenceOfMatch_scanned p text i mt r :
  5 <= minlen p -> needs 58 p = true ->
  exec p text i = Some mt -> referenceOfMatch text mt = Some r -> scanned text r.
Proof.
  intros Hmin Hneeds Hex. unfold referenceOfMatch.
  destruct (isValidBookName _) eqn:Hvalid; [|discriminate].
  intros H. injection H as <-. unfold scanned. cbn [book display].
  pose proof (exec_bounds _ _ _ _ Hex) as (_ & Hlen & Hend).
  assert (Hl : length (matched text mt) = m_end mt - m_index mt)
    by (apply substring_length; lia).
  split; [apply isValidBookName_VStr; assumption|]. split.
  - exists (m_index mt). rewrite Hl. split; [lia|]. unfold matched. f_equal. lia.
  - split; [lia|].
    apply (needs_shape 58 p Hneeds).
    apply (exec_shape text (fun _ _ => True) p i mt (groups_fit_trivial p) Hex).
Qed.

(** X2: every reference of the text scan has one of the 66 canonical names for
    its book, since an inherited member is never canonical, and a display
    text that is a part of the scanned text, five code units long at least,
    with its colon. *)
Theorem scan_references_are_canonical_and_present :
  forall text : jstring,
  exists refs,
    findBibleReferences text = Some refs /\ Forall (scanned text) refs.
Proof.
  intros text. apply findBibleReferences_Forall.
  intros p i mt r [<-|[<-|[]]] Hex Hr.
  - apply (referenceOfMatch_scanned pattern1 text i mt r);
      [rewrite ParserFacts.minlen_pattern1; lia | reflexivity | assumption | assumption].
  - apply (referenceOfMatch_scanned pattern2 text i mt r);
      [rewrite ParserFacts.minlen_pattern2; lia | reflexivity | assumption | assumption].
Qed.

Lemma validBooks_checked :
  forallb (fun name => jsval_eqb (expandBookName name) (VStr name)) validBooks = true.
Proof. vm_compute. reflexivity. Qed.

(** X3: a canonical name is left as it is by the expansion of codes: no
    canonical name is a code for another book.  So the text scan keeps a
    citation whose leading words are a canonical name, as it keeps one
    whose leading word is a code. *)
Theorem canonical_names_expand_to_themselves :
  forall name : jstring,
    In name validBooks ->
    expandBookName name = VStr name
    /\ forall text mt,
         trim (FootnotesParser.grp text mt 1) = name ->
         exists r, referenceOfMatch text mt = Some r /\ book r = VStr name.
Proof.
  intros name Hin. pose proof validBooks_checked as H.
  rewrite forallb_forall in H. specialize (H _ Hin).
  apply ParserFacts.jsval_eqb_eq in H. split; [assumption|].
  intros text mt Hname. unfold referenceOfMatch. rewrite Hname, H.
  replace (isValidBookName (VStr name)) with true; [eexists; split; reflexivity|].
  symmetry. unfold isValidBookName. apply existsb_exists. exists name.
  split; [assumption|]. simpl. apply JSFacts.jstring_eqb_refl.
Qed.

Lemma canonical_names_expand_to_themselves_witness :
  In (js "1 Corinthians") validBooks
  /\ expandBookName (js "1 Corinthians") = VStr (js "1 Corinthians")
  /\ forall text mt,
       trim (FootnotesParser.grp text mt 1) = js "1 Corinthians" ->
       exists r, referenceOfMatch text mt = Some r
                 /\ book r = VStr (js "1 Corinthians").
Proof.
  assert (Hin : In (js "1 Corinthians") validBooks).
  { unfold validBooks. apply in_map. simpl. tauto. }
  split; [exact Hin|].
  exact (canonical_names_expand_to_themselves (js "1 Corinthians") Hin).
Defined.

End ReferenceFacts.

(** * Merging references *)

Module DedupFacts.
Import MarkdownGenerator JSFacts.

Lemma seen_In key seen : existsb (jstring_eqb key) seen = true <-> In key seen.
Proof.
  rewrite existsb_exists. split.
  - intros (k & Hin & Hk). apply jstring_eqb_eq in Hk. congruence.
  - intros H. exists key. split; [assumption | apply jstring_eqb_eq; reflexivity].
Qed.

Lemma jstring_eqb_sym a b : jstring_eqb a b = jstring_eqb b a.
Proof.
  destruct (jstring_eqb a b) eqn:E1, (jstring_eqb b a) eqn:E2; try reflexivity.
  - apply jstring_eqb_eq in E1. subst. rewrite (proj2 (jstring_eqb_eq b b) eq_refl) in E2.
    discriminate.
  - apply jstring_eqb_eq in E2. subst. rewrite (proj2 (jstring_eqb_eq a a) eq_refl) in E1.
    discriminate.
Qed.

Lemma dedupFrom_snoc references ref : forall seen,
  dedupFrom seen (references ++ [ref]) =
    if (existsb (jstring_eqb (referenceKey ref)) seen
        || existsb (fun r => jstring_eqb (referenceKey r) (referenceKey ref)) references)%bool
    then dedupFrom seen references
    else dedupFrom seen references ++ [ref].
Proof.
  induction references as [|x l IH]; intros seen; simpl.
  - rewrite orb_false_r. destruct (existsb _ seen); reflexivity.
  - destruct (existsb (jstring_eqb (referenceKey x)) seen) eqn:Ex.
    + rewrite IH.
      destruct (jstring_eqb (referenceKey x) (referenceKey ref)) eqn:Exr.
      * apply jstring_eqb_eq in Exr. rewrite <- Exr, Ex. reflexivity.
      * reflexivity.
    + rewrite IH. simpl. rewrite (jstring_eqb_sym (referenceKey ref) (referenceKey x)).
      destruct (jstring_eqb (referenceKey x) (referenceKey ref)) eqn:Exr; simpl.
      * rewrite orb_true_r. reflexivity.
      * destruct (_ || _)%bool; reflexivity.
Qed.

Lemma dedupFrom_fresh references : forall seen,
  NoDup (map referenceKey (dedupFrom seen references))
  /\ forall r, In r (dedupFrom seen references) -> ~ In (referenceKey r) seen.
Proof.
  induction references as [|x l IH]; intros seen; simpl.
  - split; [constructor | intros r []].
  - destruct (existsb (jstring_eqb (referenceKey x)) seen) eqn:Ex; [apply IH|].
    destruct (IH (referenceKey x :: seen)) as [Hnd Hfresh].
    assert (Hx : ~ In (referenceKey x) seen).
    { intros H. apply seen_In in H. congruence. }
    split.
    + simpl. constructor; [|assumption]. intros Hin. apply in_map_iff in Hin.
      destruct Hin as (r & Hk & Hr). apply (Hfresh r Hr). left. congruence.
    + intros r [<-|Hr]; [assumption|]. intros Hin. apply (Hfresh r Hr). right.
      assumption.
Qed.

Lemma dedupFrom_again references : forall seen seen',
  (forall k, In k seen' -> In k seen) ->
  dedupFrom seen' (dedupFrom seen references) = dedupFrom seen references.
Proof.
  induction references as [|x l IH]; intros seen seen' Hincl; simpl; [reflexivity|].
  destruct (existsb (jstring_eqb (referenceKey x)) seen) eqn:Ex; [apply IH; assumption|].
  simpl. destruct (existsb (jstring_eqb (referenceKey x)) seen') eqn:Ex'.
  - apply seen_In in Ex'. apply Hincl in Ex'. apply seen_In in Ex'. congruence.
  - f_equal. apply IH. intros k [<-|Hk]; [left; reflexivity | right; auto].
Qed.

(** X12: a reference is kept exactly when no reference before it in the list
    has the same book, chapter and verse; the kept ones stay in their
    order.  The end of a range and the display text play no part. *)
Theorem deduplicateReferences_keeps_the_first_of_a_key :
  forall (references : list VerseReference) (ref : VerseReference),
    deduplicateReferences (references ++ [ref]) =
      if existsb (fun r => jstring_eqb (referenceKey r) (referenceKey ref)) references
      then deduplicateReferences references
      else deduplicateReferences references ++ [ref].
Proof.
  intros references ref. unfold deduplicateReferences.
  rewrite dedupFrom_snoc. reflexivity.
Qed.

(** X13: the references that are left have keys that differ two by two, and
    merging them again changes nothing. *)
Theorem deduplicateReferences_leaves_distinct_keys :
  forall references : list VerseReference,
    NoDup (map referenceKey (deduplicateReferences references))
    /\ deduplicateReferences (deduplicateReferences references)
       = deduplicateReferences references.
Proof.
  intros references. split.
  - apply dedupFrom_fresh.
  - apply dedupFrom_again. auto.
Qed.

End DedupFacts.

(** * Patterns of one class *)

Module RunFacts.

Lemma skipn_nth (s : jstring) : forall i ch,
  nth_error s i = Some ch -> skipn i s = ch :: skipn (S i) s.
Proof.
  induction s as [|x s IH]; intros [|i] ch H; simpl in *; try discriminate.
  - congruence.
  - apply IH. assumption.
Qed.

Lemma skipn_none (s : jstring) i : nth_error s i = None -> skipn i s = [].
Proof. intros H. apply skipn_all2. apply nth_error_None. assumption. Qed.

Lemma run_length cl t : run cl t <= length t.
Proof. induction t as [|c t IH]; simpl; [lia|]. destruct (cmatch cl c); simpl; lia. Qed.

(** The greedy star of one class goes to the end of the run when the rest
    of the pattern succeeds there, or fails everywhere inside the run. *)
Lemma star_skip cl s k : forall n i c,
  length s - i <= n ->
  (forall j c', i <= j < i + run cl (skipn i s) -> k j c' = None)
  \/ k (i + run cl (skipn i s)) c <> None ->
  star_loop (m (RSet cl) s) k n i c = k (i + run cl (skipn i s)) c.
Proof.
  induction n as [|n IH]; intros i c Hn Hk.
  - rewrite skipn_all2 by lia. simpl. rewrite Nat.add_0_r. reflexivity.
  - cbn [star_loop m]. destruct (nth_error s i) as [ch|] eqn:E.
    + rewrite (skipn_nth s i ch E) in *. cbn [run] in *.
      destruct (cmatch cl ch) eqn:Ec.
      * replace (Nat.ltb i (S i)) with true by (symmetry; apply Nat.ltb_lt; lia).
        replace (i + S (run cl (skipn (S i) s))) with (S i + run cl (skipn (S i) s)) in *
          by lia.
        rewrite IH.
        -- destruct (k (S i + run cl (skipn (S i) s)) c) eqn:Ek; [reflexivity|].
           simpl. destruct Hk as [Hk|Hk]; [|congruence]. apply Hk. lia.
        -- lia.
        -- destruct Hk as [Hk|Hk]; [left | right; assumption].
           intros j c' Hj. apply Hk. lia.
      * simpl. rewrite Nat.add_0_r. reflexivity.
    + rewrite (skipn_none s i E). simpl. rewrite Nat.add_0_r. reflexivity.
Qed.

Lemma plus_hit cl s k i c :
  hit cl s i = true ->
  (forall j c', S i <= j < S i + run cl (skipn (S i) s) -> k j c' = None)
  \/ k (S i + run cl (skipn (S i) s)) c <> None ->
  m (RPlus (RSet cl)) s i c k = k (S i + run cl (skipn (S i) s)) c.
Proof.
  unfold hit, RPlus. intros Hh Hk. cbn [m].
  destruct (nth_error s i) as [ch|]; [|discriminate]. rewrite Hh.
  apply star_skip; [lia | assumption].
Qed.

Lemma plus_miss cl s k i c : hit cl s i = false -> m (RPlus (RSet cl)) s i c k = None.
Proof.
  unfold hit, RPlus. intros Hh. cbn [m].
  destruct (nth_error s i) as [ch|]; [rewrite Hh|]; reflexivity.
Qed.

Lemma plus_matchAt cl s i :
  matchAt (RPlus (RSet cl)) s i =
    if hit cl s i
    then Some {| m_index := i; m_end := S i + run cl (skipn (S i) s); m_caps := [] |}
    else None.
Proof.
  unfold matchAt. destruct (hit cl s i) eqn:Eh.
  - rewrite plus_hit; [reflexivity | assumption | right; discriminate].
  - rewrite plus_miss by assumption. reflexivity.
Qed.

Lemma set_matchAt cl s i :
  matchAt (RSet cl) s i =
    if hit cl s i
    then Some {| m_index := i; m_end := S i + 0; m_caps := [] |}
    else None.
Proof.
  unfold matchAt, hit. cbn [m]. destruct (nth_error s i) as [ch|]; [|reflexivity].
  destruct (cmatch cl ch); [|reflexivity]. rewrite Nat.add_0_r. reflexivity.
Qed.

Section Starts.

Variable r : regex.
Variable starts : jstring -> option nat.
Variable f : rmatch -> jstring.
Variable out : jstring -> jstring.
Variable s : jstring.

(** The pattern looks at nothing but the text from the place of the match
    on, and so does the replacement. *)
Hypothesis matchAt_starts : forall i,
  i <= length s ->
  match starts (skipn i s) with
  | Some n =>
      exists mt, matchAt r s i = Some mt
                 /\ m_index mt = i /\ m_end mt = i + S n /\ f mt = out (skipn i s)
  | None => matchAt r s i = None
  end.

Hypothesis starts_length : forall t n, starts t = Some n -> S n <= length t.

Lemma starts_nil : starts [] = None.
Proof.
  destruct (starts []) as [n|] eqn:E; [|reflexivity].
  apply starts_length in E. simpl in E. lia.
Qed.

Lemma gap_length t : gap starts t <= length t.
Proof. induction t as [|c t IH]; simpl; [lia|]. destruct (starts (c :: t)); simpl; lia. Qed.

Lemma gap_none t : starts (skipn (gap starts t) t) = None -> gap starts t = length t.
Proof.
  induction t as [|c t IH]; [reflexivity|]. cbn [gap].
  destruct (starts (c :: t)) eqn:E.
  - cbn [skipn]. congruence.
  - cbn [skipn length]. intros H. f_equal. apply IH. assumption.
Qed.

Lemma scan_gap : forall k i,
  i + k = S (length s) ->
  match starts (skipn (i + gap starts (skipn i s)) s) with
  | Some n =>
      exists mt, scan r s k i = Some mt
                 /\ m_index mt = i + gap starts (skipn i s)
                 /\ m_end mt = i + gap starts (skipn i s) + S n
                 /\ f mt = out (skipn (i + gap starts (skipn i s)) s)
  | None => scan r s k i = None
  end.
Proof.
  induction k as [|k IH]; intros i Hi; cbn [scan].
  - rewrite (skipn_all2 (n := i + gap starts (skipn i s))) by lia.
    rewrite starts_nil. reflexivity.
  - pose proof (matchAt_starts i) as Hm.
    destruct (nth_error s i) as [ch|] eqn:E.
    + rewrite (skipn_nth s i ch E) in *. cbn [gap].
      destruct (starts (ch :: skipn (S i) s)) as [n|] eqn:Es.
      * rewrite Nat.add_0_r, (skipn_nth s i ch E), Es.
        destruct Hm as (mt & -> & Hmt); [lia|]. exists mt. auto.
      * rewrite Hm by lia.
        replace (i + S (gap starts (skipn (S i) s)))
          with (S i + gap starts (skipn (S i) s)) by lia.
        apply IH. lia.
    + rewrite (skipn_none s i E) in *. rewrite starts_nil in Hm. rewrite Hm by lia.
      assert (Hlen : length s <= i) by (apply nth_error_None; assumption).
      specialize (IH (S i)). rewrite !skipn_all2 in * by (simpl; lia).
      rewrite starts_nil in *. apply IH. lia.
Qed.

Lemma rewritten_skip : forall t k,
  k <= length t -> rewritten starts out k t = rewritten starts out 0 (skipn k t).
Proof.
  induction t as [|c t IH]; intros [|k] Hk; simpl in *; try reflexivity; try lia.
  apply IH. lia.
Qed.

Lemma rewritten_gap : forall t,
  rewritten starts out 0 t
  = firstn (gap starts t) t ++ rewritten starts out 0 (skipn (gap starts t) t).
Proof.
  induction t as [|c t IH]; [reflexivity|]. cbn [gap].
  destruct (starts (c :: t)) eqn:E.
  - reflexivity.
  - cbn [rewritten firstn skipn app]. rewrite E. f_equal. apply IH.
Qed.

Lemma splice_rewritten : forall n i,
  i <= length s -> length s - i < n ->
  splice s f (allMatches r s n i) i = rewritten starts out 0 (skipn i s).
Proof.
  induction n as [|n IH]; intros i Hi Hn; [lia|].
  cbn [allMatches]. unfold exec.
  pose proof (scan_gap (S (length s) - i) i) as Hscan.
  rewrite (rewritten_gap (skipn i s)).
  pose proof (gap_length (skipn i s)) as Hg. rewrite length_skipn in Hg.
  pose proof (gap_none (skipn i s)) as Hnone.
  rewrite skipn_skipn in *. rewrite (Nat.add_comm (gap starts (skipn i s)) i) in *.
  set (j := i + gap starts (skipn i s)) in *.
  destruct (starts (skipn j s)) as [w|] eqn:Es.
  - destruct Hscan as (mt & -> & Hidx & Hend & Hf); [lia|].
    pose proof (starts_length _ _ Es) as Hw. rewrite length_skipn in Hw.
    unfold nextIndex. rewrite Hend, Hidx.
    replace (Nat.eqb (j + S w) j) with false by (symmetry; apply Nat.eqb_neq; lia).
    cbn [splice]. rewrite Hend, Hidx, Hf. rewrite IH by lia.
    unfold substring. replace (j - i) with (gap starts (skipn i s)) by (unfold j; lia).
    f_equal. destruct (nth_error s j) as [ch|] eqn:E.
    + rewrite (skipn_nth s j ch E) in *. cbn [rewritten]. rewrite Es. f_equal.
      rewrite (rewritten_skip (skipn (S j) s) w) by (rewrite length_skipn; lia).
      rewrite skipn_skipn. f_equal. f_equal. lia.
    + apply nth_error_None in E. lia.
  - rewrite Hscan by lia. cbn [splice]. unfold substringFrom. specialize (Hnone eq_refl).
    rewrite length_skipn in Hnone. rewrite firstn_all2 by (rewrite length_skipn; lia).
    rewrite (skipn_all2 (n := j)) by (unfold j; lia).
    simpl. rewrite app_nil_r. reflexivity.
Qed.

(** [s.replace(r, f)]: the text read from left to right, each match giving
    way to its replacement. *)
Lemma replaceAll_rewritten :
  replaceAll r s f = rewritten starts out 0 s.
Proof. unfold replaceAll. rewrite splice_rewritten by lia. reflexivity. Qed.

Lemma texts_skip : forall t k,
  k <= length t -> texts starts k t = texts starts 0 (skipn k t).
Proof.
  induction t as [|c t IH]; intros [|k] Hk; simpl in *; try reflexivity; try lia.
  apply IH. lia.
Qed.

Lemma texts_gap : forall t,
  texts starts 0 t = texts starts 0 (skipn (gap starts t) t).
Proof.
  induction t as [|c t IH]; [reflexivity|]. cbn [gap].
  destruct (starts (c :: t)) eqn:E; [reflexivity|].
  cbn [texts skipn]. rewrite E. apply IH.
Qed.

Lemma matched_texts : forall n i,
  i <= length s -> length s - i < n ->
  map (matched s) (allMatches r s n i) = texts starts 0 (skipn i s).
Proof.
  induction n as [|n IH]; intros i Hi Hn; [lia|].
  cbn [allMatches]. unfold exec.
  pose proof (scan_gap (S (length s) - i) i) as Hscan.
  rewrite (texts_gap (skipn i s)).
  pose proof (gap_length (skipn i s)) as Hg. rewrite length_skipn in Hg.
  pose proof (gap_none (skipn i s)) as Hnone.
  rewrite skipn_skipn in *. rewrite (Nat.add_comm (gap starts (skipn i s)) i) in *.
  set (j := i + gap starts (skipn i s)) in *.
  destruct (starts (skipn j s)) as [w|] eqn:Es.
  - destruct Hscan as (mt & -> & Hidx & Hend & _); [lia|].
    pose proof (starts_length _ _ Es) as Hw. rewrite length_skipn in Hw.
    unfold nextIndex. rewrite Hend, Hidx.
    replace (Nat.eqb (j + S w) j) with false by (symmetry; apply Nat.eqb_neq; lia).
    cbn [map]. rewrite IH by lia. unfold matched, substring. rewrite Hend, Hidx.
    replace (j + S w - j) with (S w) by lia.
    destruct (nth_error s j) as [ch|] eqn:E.
    + rewrite (skipn_nth s j ch E) in *. cbn [texts]. rewrite Es. f_equal.
      rewrite (texts_skip (skipn (S j) s) w) by (rewrite length_skipn; lia).
      rewrite skipn_skipn. f_equal. f_equal. lia.
    + apply nth_error_None in E. lia.
  - rewrite Hscan by lia. specialize (Hnone eq_refl).
    rewrite length_skipn in Hnone.
    rewrite (skipn_all2 (n := j)) by (unfold j; lia). reflexivity.
Qed.

(** [s.match(r)] with the [g] flag: the texts of the matches. *)
Lemma matchAll_texts : matchAll r s = texts starts 0 s.
Proof. unfold matchAll. rewrite matched_texts by lia. reflexivity. Qed.

End Starts.

Lemma class_matchAt r cl w (rep : jstring) s :
  (forall i,
     matchAt r s i =
       if hit cl s i
       then Some {| m_index := i; m_end := S i + w (skipn (S i) s); m_caps := [] |}
       else None) ->
  forall i,
    i <= length s ->
    match classStart cl w (skipn i s) with
    | Some n =>
        exists mt, matchAt r s i = Some mt
                   /\ m_index mt = i /\ m_end mt = i + S n
                   /\ (fun _ : rmatch => rep) mt = (fun _ : jstring => rep) (skipn i s)
    | None => matchAt r s i = None
    end.
Proof.
  intros H i _. rewrite H. unfold hit, classStart.
  destruct (nth_error s i) as [ch|] eqn:E.
  - rewrite (skipn_nth s i ch E). destruct (cmatch cl ch); [|reflexivity].
    eexists. split; [reflexivity|]. cbn [m_index m_end]. repeat split. lia.
  - rewrite (skipn_none s i E). reflexivity.
Qed.

Lemma classStart_length cl w :
  (forall t, w t <= length t) ->
  forall t n, classStart cl w t = Some n -> S n <= length t.
Proof.
  intros Hw [|c t] n; simpl; [discriminate|].
  destruct (cmatch cl c); [|discriminate]. intros H. injection H as <-.
  specialize (Hw t). lia.
Qed.

Lemma rewritten_squeeze cl rep t :
  rewritten (classStart cl (run cl)) (fun _ => rep) 0 t = squeeze cl rep false t
  /\ rewritten (classStart cl (run cl)) (fun _ => rep) (run cl t) t
     = squeeze cl rep true t.
Proof.
  induction t as [|c t [IH0 IH1]]; [split; reflexivity|].
  cbn [rewritten squeeze run classStart]. destruct (cmatch cl c) eqn:E.
  - rewrite IH1. split; reflexivity.
  - cbn [rewritten classStart]. rewrite ?E, IH0. split; reflexivity.
Qed.

Lemma rewritten_filter cl t :
  rewritten (classStart cl (fun _ => 0)) (fun _ => []) 0 t
  = filter (fun c => negb (cmatch cl c)) t.
Proof.
  induction t as [|c t IH]; [reflexivity|]. cbn [rewritten filter classStart].
  destruct (cmatch cl c); simpl; congruence.
Qed.

(** [s.replace(/[...]+/g, rep)] puts [rep] in the place of each longest run
    of the class. *)
Lemma replace_runs cl rep s :
  replaceAll (RPlus (RSet cl)) s (fun _ => rep) = squeeze cl rep false s.
Proof.
  rewrite (replaceAll_rewritten (RPlus (RSet cl)) (classStart cl (run cl))
             (fun _ => rep) (fun _ => rep) s).
  - apply rewritten_squeeze.
  - apply class_matchAt. intros i. apply plus_matchAt.
  - apply classStart_length. intros t. apply run_length.
Qed.

(** [s.replace(/[...]/g, '')] leaves the code units outside the class. *)
Lemma replace_each cl s :
  replaceAll (RSet cl) s (fun _ => []) = filter (fun c => negb (cmatch cl c)) s.
Proof.
  rewrite (replaceAll_rewritten (RSet cl) (classStart cl (fun _ => 0))
             (fun _ => []) (fun _ => []) s).
  - apply rewritten_filter.
  - apply class_matchAt. intros i. apply set_matchAt.
  - apply classStart_length. intros t. lia.
Qed.

End RunFacts.

(** * White space *)

Module CleanFacts.
Import FootnotesParser FileWriter RunFacts.

Lemma trimStart_split u :
  exists p, u = p ++ trimStart u /\ forallb isSpace p = true.
Proof.
  induction u as [|c u (p & Hp & Hs)]; simpl.
  - exists []. auto.
  - destruct (isSpace c) eqn:E.
    + exists (c :: p). simpl. rewrite E, Hs, <- Hp. auto.
    + exists []. auto.
Qed.

Lemma startsClean_trimStart u : startsClean (trimStart u) = true.
Proof.
  induction u as [|c u IH]; simpl; [reflexivity|].
  destruct (isSpace c) eqn:E; [assumption|]. simpl. rewrite E. reflexivity.
Qed.

Lemma trimStart_clean u : startsClean u = true -> trimStart u = u.
Proof.
  destruct u as [|c u]; simpl; [reflexivity|].
  destruct (isSpace c); [discriminate | reflexivity].
Qed.

Lemma forallb_rev {A} (p : A -> bool) l : forallb p l = true -> forallb p (rev l) = true.
Proof.
  rewrite !forallb_forall. intros H x Hx. apply H. apply in_rev. assumption.
Qed.

Lemma trimEnd_split u :
  exists q, u = trimEnd u ++ q /\ forallb isSpace q = true.
Proof.
  destruct (trimStart_split (rev u)) as (p & Hp & Hs).
  exists (rev p). split; [|apply forallb_rev; assumption].
  unfold trimEnd. rewrite <- rev_app_distr, <- Hp, rev_involutive. reflexivity.
Qed.

Lemma startsClean_app a b : startsClean (a ++ b) = true -> startsClean a = true.
Proof. destruct a; simpl; auto. Qed.

Lemma trim_ends u : startsClean (trim u) = true /\ startsClean (rev (trim u)) = true.
Proof.
  unfold trim. split.
  - destruct (trimEnd_split (trimStart u)) as (q & Hq & _).
    apply (startsClean_app _ q). rewrite <- Hq. apply startsClean_trimStart.
  - unfold trimEnd. rewrite rev_involutive. apply startsClean_trimStart.
Qed.

Lemma trim_fixed t :
  startsClean t = true -> startsClean (rev t) = true -> trim t = t.
Proof.
  intros H1 H2. unfold trim, trimEnd.
  rewrite (trimStart_clean t H1), (trimStart_clean (rev t) H2).
  apply rev_involutive.
Qed.

Lemma trim_trim u : trim (trim u) = trim u.
Proof. destruct (trim_ends u). apply trim_fixed; assumption. Qed.

Lemma trim_split u :
  exists p q, u = p ++ trim u ++ q
              /\ forallb isSpace p = true /\ forallb isSpace q = true.
Proof.
  destruct (trimStart_split u) as (p & Hp & Hps).
  destruct (trimEnd_split (trimStart u)) as (q & Hq & Hqs).
  exists p, q. unfold trim. rewrite <- Hq. auto.
Qed.

Lemma singleSpaces_app_r p t : singleSpaces (p ++ t) = true -> singleSpaces t = true.
Proof.
  induction p as [|c p IH]; simpl; [auto|].
  intros H. apply andb_true_iff in H. apply IH. tauto.
Qed.

Lemma singleSpaces_app_l a b : singleSpaces (a ++ b) = true -> singleSpaces a = true.
Proof.
  induction a as [|c a IH]; simpl; [reflexivity|].
  intros H. apply andb_true_iff in H. destruct H as [H1 H2].
  rewrite (IH H2), andb_true_r. destruct (isSpace c); [|reflexivity].
  apply andb_true_iff in H1. destruct H1 as [-> H1].
  rewrite (startsClean_app _ _ H1). reflexivity.
Qed.

Lemma singleSpaces_trim u : singleSpaces u = true -> singleSpaces (trim u) = true.
Proof.
  destruct (trim_split u) as (p & q & Hu & _). intros H. rewrite Hu in H.
  apply singleSpaces_app_r in H. apply singleSpaces_app_l in H. assumption.
Qed.

Lemma squeeze_single t :
  (forall b, singleSpaces (squeeze CSpace [32%N] b t) = true)
  /\ startsClean (squeeze CSpace [32%N] true t) = true.
Proof.
  induction t as [|c t [IH1 IH2]]; [split; [intros b|]; reflexivity|].
  cbn [squeeze cmatch]. destruct (isSpace c) eqn:E.
  - split; [|assumption]. intros [|]; [apply IH1|].
    cbn [app singleSpaces]. rewrite IH2, IH1. reflexivity.
  - split.
    + intros b. cbn [singleSpaces]. rewrite E. apply IH1.
    + simpl. rewrite E. reflexivity.
Qed.

Lemma squeeze_fixed t :
  singleSpaces t = true ->
  squeeze CSpace [32%N] false t = t
  /\ (startsClean t = true -> squeeze CSpace [32%N] true t = t).
Proof.
  induction t as [|c t IH]; [split; reflexivity|].
  cbn [singleSpaces squeeze cmatch startsClean]. intros H.
  apply andb_true_iff in H. destruct H as [H1 H2]. destruct (IH H2) as [IH1 IH2].
  destruct (isSpace c) eqn:E.
  - apply andb_true_iff in H1. destruct H1 as [Hc Hs]. apply N.eqb_eq in Hc. subst c.
    split; [|discriminate]. simpl. rewrite (IH2 Hs). reflexivity.
  - rewrite IH1. split; reflexivity.
Qed.

Lemma squeeze_In cl rep c t : forall b,
  In c (squeeze cl rep b t) -> In c rep \/ In c t.
Proof.
  induction t as [|x t IH]; intros b; cbn [squeeze]; [intros []|].
  destruct (cmatch cl x).
  - destruct b.
    + intros H. destruct (IH _ H); [left | right; right]; assumption.
    + intros H. apply in_app_or in H. destruct H as [H|H]; [left; assumption|].
      destruct (IH _ H); [left | right; right]; assumption.
  - intros [<-|H]; [right; left; reflexivity|].
    destruct (IH _ H); [left | right; right]; assumption.
Qed.

Lemma trim_In c u : In c (trim u) -> In c u.
Proof.
  destruct (trim_split u) as (p & q & Hu & _). intros H. rewrite Hu.
  apply in_or_app. right. apply in_or_app. left. assumption.
Qed.

Lemma ink_spaces p : forallb isSpace p = true -> ink p = [].
Proof.
  induction p as [|c p IH]; simpl; [reflexivity|].
  intros H. apply andb_true_iff in H. destruct H as [-> H]. simpl. auto.
Qed.

Lemma ink_app a b : ink (a ++ b) = ink a ++ ink b.
Proof. apply filter_app. Qed.

Lemma ink_trim u : ink (trim u) = ink u.
Proof.
  destruct (trim_split u) as (p & q & Hu & Hp & Hq).
  rewrite Hu at 2. rewrite !ink_app, (ink_spaces p Hp), (ink_spaces q Hq), app_nil_r.
  reflexivity.
Qed.

Lemma ink_squeeze t : forall b, ink (squeeze CSpace [32%N] b t) = ink t.
Proof.
  induction t as [|c t IH]; intros b; [reflexivity|].
  cbn [squeeze cmatch]. unfold ink in *. cbn [filter].
  destruct (isSpace c) eqn:E; simpl.
  - destruct b; [apply IH|]. simpl. apply IH.
  - rewrite E. simpl. f_equal. apply IH.
Qed.

Lemma ink_nil t : startsClean t = true -> ink t = [] -> t = [].
Proof.
  destruct t as [|c t]; [reflexivity|]. simpl. intros H. unfold ink. simpl.
  rewrite H. discriminate.
Qed.

Lemma cleanContent_squeeze s :
  cleanContent s = trim (squeeze CSpace [32%N] false s).
Proof. unfold cleanContent. rewrite replace_runs. reflexivity. Qed.

Lemma cleanContent_cleaned s : cleaned (cleanContent s).
Proof.
  rewrite cleanContent_squeeze. split.
  - apply singleSpaces_trim. apply squeeze_single.
  - apply trim_trim.
Qed.

Lemma cleanContent_fixed t : cleaned t -> cleanContent t = t.
Proof.
  intros [Hs Ht]. rewrite cleanContent_squeeze.
  destruct (squeeze_fixed t Hs) as [-> _]. assumption.
Qed.

Lemma cleanContent_ink s : ink (cleanContent s) = ink s.
Proof. rewrite cleanContent_squeeze, ink_trim. apply ink_squeeze. Qed.

Lemma cleanContent_In c s : In c (cleanContent s) -> c = 32%N \/ In c s.
Proof.
  rewrite cleanContent_squeeze. intros H. apply trim_In in H.
  apply squeeze_In in H. destruct H as [[<-|[]]|H]; auto.
Qed.

(** X5: collapsing the white space gives a text whose only white space is
    single U+0020 between other code units; the code units that are not
    white space are those of the given text, in their order; and the texts
    that the operation leaves as they are are exactly the texts of this
    form. *)
Theorem cleanContent_gives_single_spaces :
  forall s : jstring,
    cleaned (cleanContent s)
    /\ ink (cleanContent s) = ink s
    /\ (cleanContent s = s <-> cleaned s).
Proof.
  intros s. split; [apply cleanContent_cleaned|].
  split; [apply cleanContent_ink|]. split.
  - intros H. rewrite <- H. apply cleanContent_cleaned.
  - apply cleanContent_fixed.
Qed.

Lemma parseFootnotes_Forall (P : ParsedFootnote -> Prop)
    (selectNotes : jstring -> list NoteElement) html :
  (forall note f, accepted note = true -> builtFrom note f -> P f) ->
  exists fs, parseFootnotes selectNotes html = Some fs /\ Forall P fs.
Proof.
  intros HP.
  destruct (ParserFacts.parseFootnotes_spec selectNotes html) as (fs & H & Hfs).
  exists fs. split; [assumption|]. clear H.
  assert (Hacc : Forall (fun note => accepted note = true)
                   (filter accepted (selectNotes html))).
  { apply Forall_forall. intros note Hin. apply filter_In in Hin. tauto. }
  induction Hfs as [|note f notes fs0 Hb _ IH]; constructor.
  - apply (HP note); [|assumption]. inversion Hacc. assumption.
  - apply IH. inversion Hacc. assumption.
Qed.

(** X4: the content of every footnote that [parseFootnotes] returns is not
    empty, begins and ends with a code unit that is not white space, and has
    no white space but single U+0020. *)
Theorem parsed_content_is_cleaned :
  forall (selectNotes : jstring -> list NoteElement) (html : jstring),
  exists fs,
    parseFootnotes selectNotes html = Some fs
    /\ Forall (fun f => content f <> [] /\ cleaned (content f)) fs.
Proof.
  intros selectNotes html. apply parseFootnotes_Forall.
  intros note f Hacc (_ & _ & _ & Hc & _). rewrite Hc. split.
  - unfold accepted, hasContent in Hacc. apply andb_true_iff in Hacc.
    destruct Hacc as [_ Hacc]. intros He. rewrite He in Hacc. discriminate.
  - apply cleanContent_cleaned.
Qed.

(** ** Names of files *)

Lemma sanitizeFileName_cleanContent fileName :
  sanitizeFileName fileName
  = cleanContent (filter (fun c => negb (cmatch forbiddenChars c)) fileName).
Proof. unfold sanitizeFileName, cleanContent. rewrite replace_each. reflexivity. Qed.

Lemma filter_fixed {A} (p : A -> bool) l :
  (forall x, In x l -> p x = true) -> filter p l = l.
Proof.
  induction l as [|x l IH]; simpl; [reflexivity|]. intros H.
  rewrite (H x) by auto. f_equal. apply IH. auto.
Qed.

Lemma sanitizeFileName_allowed fileName c :
  In c (sanitizeFileName fileName) -> cmatch forbiddenChars c = false.
Proof.
  rewrite sanitizeFileName_cleanContent. intros H. apply cleanContent_In in H.
  destruct H as [->|H]; [reflexivity|]. apply filter_In in H.
  destruct H as [_ H]. apply negb_true_iff in H. assumption.
Qed.

(** X14: a sanitized name has none of the characters that a file name may not
    have, and no white space but single U+0020 between other code units;
    sanitizing it again changes nothing; and it is empty exactly when the
    given name had nothing but such characters and white space. *)
Theorem sanitizeFileName_gives_a_clean_name :
  forall fileName : jstring,
    (forall c, In c (sanitizeFileName fileName) -> cmatch forbiddenChars c = false)
    /\ cleaned (sanitizeFileName fileName)
    /\ sanitizeFileName (sanitizeFileName fileName) = sanitizeFileName fileName
    /\ (sanitizeFileName fileName = [] <->
        forallb (fun c => cmatch forbiddenChars c || isSpace c)%bool fileName = true).
Proof.
  intros fileName.
  assert (Hcl : cleaned (sanitizeFileName fileName)).
  { rewrite sanitizeFileName_cleanContent. apply cleanContent_cleaned. }
  split; [apply sanitizeFileName_allowed|]. split; [assumption|]. split.
  - rewrite (sanitizeFileName_cleanContent (sanitizeFileName fileName)).
    rewrite filter_fixed.
    + apply cleanContent_fixed. assumption.
    + intros c Hc. rewrite (sanitizeFileName_allowed fileName c Hc). reflexivity.
  - assert (Hink : ink (sanitizeFileName fileName) = []
                   <-> forallb (fun c => cmatch forbiddenChars c || isSpace c)%bool
                         fileName = true).
    { rewrite sanitizeFileName_cleanContent, cleanContent_ink.
      induction fileName as [|c l IH]; [simpl; tauto|].
      cbn [filter forallb]. destruct (cmatch forbiddenChars c); cbn [negb orb andb].
      - apply IH.
        rewrite sanitizeFileName_cleanContent. apply cleanContent_cleaned.
      - unfold ink in *. cbn [filter]. destruct (isSpace c); cbn [negb andb].
        + apply IH. rewrite sanitizeFileName_cleanContent. apply cleanContent_cleaned.
        + split; discriminate. }
    split.
    + intros H. apply Hink. rewrite H. reflexivity.
    + intros H. apply ink_nil; [|apply Hink; assumption].
      destruct Hcl as [_ Ht]. rewrite <- Ht. apply trim_ends.
Qed.

End CleanFacts.

(** * The link back to the verse *)

Module BackLinkFacts.
Import FootnotesParser MarkdownGenerator RunFacts.

Lemma run_all cl t : Nat.eqb (run cl t) (length t) = forallb (cmatch cl) t.
Proof.
  induction t as [|c t IH]; [reflexivity|]. simpl.
  destruct (cmatch cl c); simpl; [assumption | reflexivity].
Qed.

Lemma trailing_matchAt s i :
  matchAt trailingNumber s i =
    if (hit CDigit s i && Nat.eqb (S i + run CDigit (skipn (S i) s)) (length s))%bool
    then Some {| m_index := i; m_end := length s; m_caps := [(1, (i, length s))] |}
    else None.
Proof.
  unfold matchAt, trailingNumber, RCat. cbn [fold_right]. cbn [m].
  fold (RPlus (RSet CDigit)).
  destruct (hit CDigit s i) eqn:Eh; cbn [andb].
  - rewrite plus_hit; [| assumption |].
    + destruct (Nat.eqb_spec (S i + run CDigit (skipn (S i) s)) (length s)) as [->|];
        reflexivity.
    + left. intros j c' Hj.
      pose proof (run_length CDigit (skipn (S i) s)) as Hr. rewrite length_skipn in Hr.
      assert (Hi : i < length s).
      { unfold hit in Eh. destruct (nth_error s i) eqn:E; [|discriminate].
        apply nth_error_Some. congruence. }
      replace (Nat.eqb j (length s)) with false; [reflexivity|].
      symmetry. apply Nat.eqb_neq. lia.
  - rewrite plus_miss by assumption. reflexivity.
Qed.

Lemma trailing_scan s : forall k i,
  i + k = S (length s) ->
  scan trailingNumber s k i =
    match digitTail (skipn i s) with
    | [] => None
    | _ :: _ =>
        let a := length s - length (digitTail (skipn i s)) in
        Some {| m_index := a; m_end := length s; m_caps := [(1, (a, length s))] |}
    end.
Proof.
  induction k as [|k IH]; intros i Hi; cbn [scan].
  - rewrite skipn_all2 by lia. reflexivity.
  - rewrite trailing_matchAt. unfold hit.
    destruct (nth_error s i) as [ch|] eqn:E.
    + assert (Hlen : i < length s) by (apply nth_error_Some; congruence).
      rewrite (skipn_nth s i ch E). cbn [digitTail forallb cmatch].
      replace (Nat.eqb (S i + run CDigit (skipn (S i) s)) (length s))
        with (forallb isDigit (skipn (S i) s)).
      * destruct (isDigit ch && forallb isDigit (skipn (S i) s))%bool eqn:Ed.
        -- cbv zeta. cbn [length]. rewrite length_skipn.
           replace (length s - S (length s - S i)) with i by lia. reflexivity.
        -- rewrite IH by lia. reflexivity.
      * change isDigit with (cmatch CDigit). rewrite <- run_all, length_skipn.
        destruct (Nat.eqb_spec (run CDigit (skipn (S i) s)) (length s - S i));
          symmetry; [apply Nat.eqb_eq | apply Nat.eqb_neq]; lia.
    + cbn [andb]. rewrite IH by lia. rewrite (skipn_none s i E).
      assert (Hlen : length s <= i) by (apply nth_error_None; assumption).
      rewrite skipn_all2 by lia. reflexivity.
Qed.

Lemma digitTail_suffix s : exists pre, s = pre ++ digitTail s.
Proof.
  induction s as [|c s (pre & IH)]; [exists []; reflexivity|].
  cbn [digitTail]. destruct (forallb isDigit (c :: s)).
  - exists []. reflexivity.
  - exists (c :: pre). simpl. congruence.
Qed.

Lemma digitTail_digits s : forallb isDigit (digitTail s) = true.
Proof.
  induction s as [|c s IH]; [reflexivity|]. cbn [digitTail].
  destruct (forallb isDigit (c :: s)) eqn:E; assumption.
Qed.

Lemma digitTail_longest s : forall pre v,
  s = pre ++ v -> forallb isDigit v = true -> length v <= length (digitTail s).
Proof.
  induction s as [|c s IH]; intros pre v Hs Hv.
  - destruct pre, v; try discriminate. simpl. lia.
  - cbn [digitTail]. destruct (forallb isDigit (c :: s)) eqn:E.
    + rewrite Hs, length_app. lia.
    + destruct pre as [|x pre].
      * simpl in Hs. subst v. congruence.
      * injection Hs as _ Hs. apply (IH pre v); assumption.
Qed.

Lemma digitTail_all v : forallb isDigit v = true -> digitTail v = v.
Proof. destruct v as [|c v]; [reflexivity|]. cbn [digitTail]. intros ->. reflexivity. Qed.

Lemma digitTail_after pre c v :
  isDigit c = false -> forallb isDigit v = true -> digitTail (pre ++ c :: v) = v.
Proof.
  intros Hc Hv. induction pre as [|x pre IH].
  - cbn [app digitTail forallb]. rewrite Hc. cbn [andb]. apply digitTail_all. assumption.
  - cbn [app digitTail].
    replace (forallb isDigit (x :: pre ++ c :: v)) with false; [assumption|].
    symmetry. cbn [forallb]. rewrite forallb_app. cbn [forallb]. rewrite Hc.
    rewrite andb_false_r. cbn [andb]. apply andb_false_r.
Qed.

Lemma getFootnoteVerseLink_digitTail footnote book_ chapter_ :
  getFootnoteVerseLink footnote book_ chapter_ =
    match digitTail (id footnote) with
    | [] => []
    | _ :: _ =>
        js "[[" ++ book_ ++ js " " ++ num_to_js chapter_ ++ js "#"
        ++ digitTail (id footnote) ++ js "|" ++ upArrow ++ js "]]"
    end.
Proof.
  unfold getFootnoteVerseLink, match_, exec.
  rewrite trailing_scan by lia. cbn [skipn].
  destruct (digitTail_suffix (id footnote)) as (pre & Hpre).
  destruct (digitTail (id footnote)) as [|d v] eqn:E; [reflexivity|].
  cbv zeta. unfold MarkdownGenerator.grp, FootnotesParser.grp, group.
  cbn [m_caps cap Nat.eqb].
  replace (substring (id footnote) (length (id footnote) - length (d :: v))
             (length (id footnote))) with (d :: v); [reflexivity|].
  unfold substring. rewrite Hpre at 1 2 3 4. rewrite length_app.
  replace (length pre + length (d :: v) - length (d :: v)) with (length pre) by lia.
  replace (length pre + length (d :: v) - length pre) with (length (d :: v)) by lia.
  rewrite skipn_app, skipn_all, Nat.sub_diag. cbn [skipn app].
  rewrite firstn_all. reflexivity.
Qed.

(** X10: the link back to the verse is made from the longest run of digits
    that ends the id of the footnote, and there is no link when the id does
    not end with a digit.  The book and the chapter are those of the
    caller. *)
Theorem back_link_is_the_number_that_ends_the_id :
  forall (footnote : ParsedFootnote) (book_ : jstring) (chapter_ : jsnum),
  exists pre v,
    id footnote = pre ++ v
    /\ forallb isDigit v = true
    /\ (forall pre' v', id footnote = pre' ++ v' -> forallb isDigit v' = true ->
                        length v' <= length v)
    /\ getFootnoteVerseLink footnote book_ chapter_ =
         match v with
         | [] => []
         | _ :: _ =>
             js "[[" ++ book_ ++ js " " ++ num_to_js chapter_ ++ js "#" ++ v
             ++ js "|" ++ upArrow ++ js "]]"
         end.
Proof.
  intros footnote book_ chapter_.
  destruct (digitTail_suffix (id footnote)) as (pre & Hpre).
  exists pre, (digitTail (id footnote)).
  split; [assumption|]. split; [apply digitTail_digits|].
  split; [apply digitTail_longest|]. apply getFootnoteVerseLink_digitTail.
Qed.

(** ** Ids made from the number *)

Lemma uint_digits d : forallb isDigit (js (DecimalString.NilEmpty.string_of_uint d)) = true.
Proof. induction d; simpl; auto. Qed.

Lemma Z_to_js_pos p :
  Z_to_js (Z.pos p) <> [] /\ forallb isDigit (Z_to_js (Z.pos p)) = true.
Proof.
  unfold Z_to_js. cbn [Z.to_int DecimalString.NilZero.string_of_int].
  unfold DecimalString.NilZero.string_of_uint.
  pose proof (uint_digits (Pos.to_uint p)) as H.
  pose proof (DecimalPos.Unsigned.to_uint_nonnil p) as Hn.
  destruct (Pos.to_uint p); try contradiction; (split; [discriminate | exact H]).
Qed.

Lemma Z_to_js_neg p : Z_to_js (Z.neg p) = 45%N :: Z_to_js (Z.pos p).
Proof. reflexivity. Qed.

Lemma defaultId_digitTail z :
  digitTail (defaultId (Some (Num z)))
  = if Z.eqb z 0 then [] else Z_to_js (Z.abs z).
Proof.
  unfold defaultId, num_truthy, num_to_js. destruct z as [|p|p]; cbn [Z.eqb negb Z.abs].
  - reflexivity.
  - destruct (Z_to_js_pos p) as [_ Hd].
    change (js "note_" ++ Z_to_js (Z.pos p))
      with (js "note" ++ 95%N :: Z_to_js (Z.pos p)).
    apply digitTail_after; [reflexivity | assumption].
  - destruct (Z_to_js_pos p) as [_ Hd]. rewrite Z_to_js_neg.
    change (js "note_" ++ 45%N :: Z_to_js (Z.pos p))
      with (js "note_" ++ 45%N :: Z_to_js (Z.pos p)).
    apply digitTail_after; [reflexivity | assumption].
Qed.

Lemma parseNote_built note f : parseNote note = Some (Some f) -> builtFrom note f.
Proof.
  intros H. destruct (ParserFacts.parseNote_spec note) as [(_ & f' & H' & Hb) | (_ & H')];
    rewrite H in H'; [|discriminate].
  injection H' as <-. assumption.
Qed.

(** X11: when the marker of a note has no id, or an empty one, and the
    number of its footnote is at most 2^53 in size, the link back goes to
    the verse that has the number of the footnote, without its sign; the
    footnote with the number 0 has no link back.  Up to 2^53 a number is
    read and printed digit by digit; the id of a larger number is printed
    with an exponent or as Infinity, and is not covered here. *)
Theorem back_link_of_a_note_without_id :
  forall (note : NoteElement) (f : ParsedFootnote) (book_ : jstring) (chapter_ : jsnum),
    superId note = None \/ superId note = Some [] ->
    parseNote note = Some (Some f) ->
    (Z.abs (number f) <= 2 ^ 53)%Z ->
    getFootnoteVerseLink f book_ chapter_ =
      if Z.eqb (number f) 0 then []
      else js "[[" ++ book_ ++ js " " ++ num_to_js chapter_ ++ js "#"
           ++ Z_to_js (Z.abs (number f)) ++ js "|" ++ upArrow ++ js "]]".
Proof.
  intros note f book_ chapter_ Hid Hf _.
  destruct (parseNote_built note f Hf) as (Hn & Hi & _).
  rewrite getFootnoteVerseLink_digitTail, Hi.
  assert (Hd : noteId note (noteNumber note) = defaultId (Some (Num (number f)))).
  { unfold noteId. rewrite Hn. destruct Hid as [-> | ->]; reflexivity. }
  rewrite Hd, defaultId_digitTail.
  destruct (Z.eqb_spec (number f) 0) as [|Hz]; [reflexivity|].
  destruct (Z.abs (number f)) as [|p|p] eqn:Ea; try lia.
  destruct (Z_to_js_pos p) as [Hne _].
  destruct (Z_to_js (Z.pos p)); [congruence | reflexivity].
Qed.

Lemma back_link_of_a_note_without_id_witness :
  (superId negativeNote = None \/ superId negativeNote = Some [])
  /\ parseNote negativeNote = Some (Some negativeFootnote)
  /\ (Z.abs (number negativeFootnote) <= 2 ^ 53)%Z
  /\ getFootnoteVerseLink negativeFootnote (js "John") (Num 3)
     = js "[[John 3#5|" ++ upArrow ++ js "]]".
Proof.
  assert (H1 : superId negativeNote = None \/ superId negativeNote = Some [])
    by (left; reflexivity).
  assert (H2 : parseNote negativeNote = Some (Some negativeFootnote))
    by (vm_compute; reflexivity).
  assert (H3 : (Z.abs (number negativeFootnote) <= 2 ^ 53)%Z)
    by (vm_compute; discriminate).
  split; [exact H1|]. split; [exact H2|]. split; [exact H3|].
  exact (back_link_of_a_note_without_id negativeNote negativeFootnote (js "John") (Num 3)
           H1 H2 H3).
Defined.

End BackLinkFacts.

(** * The book of a footnote *)

Module HintFacts.
Import FootnotesParser MarkdownGenerator ReferenceFacts.

Lemma count_app ch a b : count ch (a ++ b) = count ch a + count ch b.
Proof. apply count_occ_app. Qed.

Lemma times_shape ch r : forall t, shape r t -> times ch r <= count ch t.
Proof.
  induction r as [| cl | a IHa b IHb | a IHa | a IHa | n a IHa | | | | cls | a IHa];
    simpl; intros t Ht; try lia.
  - destruct cl; try lia. destruct Ht as (c' & -> & Hc). simpl in Hc.
    apply N.eqb_eq in Hc. subst c'. destruct (N.eqb_spec c ch) as [->|]; [|lia].
    unfold count. simpl. destruct (N.eq_dec ch ch); [lia | congruence].
  - destruct Ht as (t1 & t2 & -> & H1 & H2). rewrite count_app.
    specialize (IHa t1 H1). specialize (IHb t2 H2). lia.
  - auto.
Qed.

Lemma count_substring ch (s : jstring) a b : count ch (substring s a b) <= count ch s.
Proof.
  unfold substring.
  rewrite <- (firstn_skipn a s) at 2. rewrite count_app.
  rewrite <- (firstn_skipn (b - a) (skipn a s)) at 2. rewrite count_app. lia.
Qed.

(** A text in which a pattern finds a match has every literal code unit of
    the pattern as often as the pattern. *)
Lemma exec_times ch r s i mt : exec r s i = Some mt -> times ch r <= count ch s.
Proof.
  intros E.
  destruct (exec_shape s (fun _ _ => True) r i mt (groups_fit_trivial r) E) as [Hsh _].
  apply (times_shape ch) in Hsh. unfold matched in Hsh.
  pose proof (count_substring ch s (m_index mt) (m_end mt)). lia.
Qed.

Lemma extractBookFromFootnote_underscores f :
  count 95 (id f) < 3 -> extractBookFromFootnote (Some f) = None.
Proof.
  intros H. unfold extractBookFromFootnote.
  destruct (jstring_eqb (id f) []); [reflexivity|].
  unfold match_. destruct (exec idPattern (id f) 0) as [mt|] eqn:E; [|reflexivity].
  apply (exec_times 95) in E. change (times 95 idPattern) with 3 in E. lia.
Qed.

Lemma count_digits t : forallb isDigit t = true -> count 95 t = 0.
Proof.
  intros H. apply count_occ_not_In. intros Hin.
  rewrite forallb_forall in H. specialize (H _ Hin). discriminate.
Qed.

Lemma defaultId_underscores n : count 95 (defaultId n) = 1.
Proof.
  unfold defaultId. rewrite count_app. change (count 95 (js "note_")) with 1.
  destruct n as [[|z]|]; cbn [num_truthy]; try reflexivity.
  destruct z as [|p|p]; cbn [Z.eqb negb num_to_js]; try reflexivity.
  - destruct (BackLinkFacts.Z_to_js_pos p) as [_ Hd]. rewrite (count_digits _ Hd).
    reflexivity.
  - rewrite BackLinkFacts.Z_to_js_neg.
    destruct (BackLinkFacts.Z_to_js_pos p) as [_ Hd].
    change (45%N :: Z_to_js (Z.pos p)) with ([45%N] ++ Z_to_js (Z.pos p)).
    rewrite count_app, (count_digits _ Hd). reflexivity.
Qed.

Lemma idPattern_fit : groups_fit lettersGroup idPattern.
Proof.
  unfold idPattern. simpl. repeat split; auto.
  - apply (plus_shape CAlpha). assumption.
  - apply (plus_shape CAlpha) in H. tauto.
Qed.

(** X8: the book that is read off the id of a footnote is a word of ASCII
    letters, one at least: an id names no book that has a digit or a space
    in its name, such as 1 John. *)
Theorem book_of_an_id_is_a_word_of_letters :
  forall (f : ParsedFootnote) (currentBook : jstring),
    extractBookFromFootnote (Some f) = Some currentBook ->
    currentBook <> [] /\ forallb isAlpha currentBook = true.
Proof.
  intros f b. unfold extractBookFromFootnote.
  destruct (jstring_eqb (id f) []); [discriminate|]. unfold match_.
  destruct (exec idPattern (id f) 0) as [mt|] eqn:E; [|discriminate].
  intros H. injection H as <-.
  destruct (exec_captures (id f) (fun _ => 0) idPattern 0 mt (groups_ok_zero _) E)
    as [_ Hset].
  assert (H1 : cap (m_caps mt) 1 <> None) by (apply Hset; simpl; auto).
  unfold MarkdownGenerator.grp, FootnotesParser.grp.
  destruct (group (id f) mt 1) as [t|] eqn:Eg.
  - apply (group_holds (id f) lettersGroup idPattern 0 mt 1 t idPattern_fit E Eg).
    reflexivity.
  - unfold group in Eg. destruct (cap (m_caps mt) 1) as [[a b]|]; congruence.
Qed.

(** X9: when the marker of a note has no id, or an empty one, the id that
    is made from the number tells no book, and the last pass leaves every
    chapter:verse of the footnote as it is: the text is what the linking of
    the references made of it. *)
Theorem notes_without_id_get_no_shorthand_links :
  forall (note : NoteElement) (f : ParsedFootnote) (content_ : jstring),
    superId note = None \/ superId note = Some [] ->
    parseNote note = Some (Some f) ->
    extractBookFromFootnote (Some f) = None
    /\ processFootnoteContent content_ (Some f)
       = option_map fst (linkReferences (stripTags (rewriteDataRefs content_)) (Some f)).
Proof.
  intros note f content_ Hid Hf.
  destruct (BackLinkFacts.parseNote_built note f Hf) as (Hn & Hi & _).
  assert (Hnone : extractBookFromFootnote (Some f) = None).
  { apply extractBookFromFootnote_underscores. rewrite Hi.
    replace (noteId note (noteNumber note)) with (defaultId (noteNumber note)).
    - rewrite defaultId_underscores. lia.
    - unfold noteId. destruct Hid as [-> | ->]; reflexivity. }
  split; [assumption|]. unfold processFootnoteContent. rewrite Hnone.
  destruct (linkReferences _ _) as [[out rs]|]; reflexivity.
Qed.

Lemma book_of_an_id_is_a_word_of_letters_witness :
  extractBookFromFootnote (Some johnFootnote) = Some (js "John")
  /\ js "John" <> [] /\ forallb isAlpha (js "John") = true.
Proof.
  assert (H : extractBookFromFootnote (Some johnFootnote) = Some (js "John"))
    by (vm_compute; reflexivity).
  split; [exact H|].
  exact (book_of_an_id_is_a_word_of_letters johnFootnote (js "John") H).
Defined.

Lemma notes_without_id_get_no_shorthand_links_witness :
  (superId negativeNote = None \/ superId negativeNote = Some [])
  /\ parseNote negativeNote = Some (Some negativeFootnote)
  /\ extractBookFromFootnote (Some negativeFootnote) = None
  /\ processFootnoteContent (js "See 1:4.") (Some negativeFootnote)
     = option_map fst
         (linkReferences (stripTags (rewriteDataRefs (js "See 1:4.")))
            (Some negativeFootnote)).
Proof.
  assert (H1 : superId negativeNote = None \/ superId negativeNote = Some [])
    by (left; reflexivity).
  assert (H2 : parseNote negativeNote = Some (Some negativeFootnote))
    by (vm_compute; reflexivity).
  split; [exact H1|]. split; [exact H2|].
  exact (notes_without_id_get_no_shorthand_links negativeNote negativeFootnote
           (js "See 1:4.") H1 H2).
Defined.

End HintFacts.

(** * From the parser to the generator *)

Module PipelineFacts.
Import FootnotesParser MarkdownGenerator.

(** X6: the rewrite of the content returns for every footnote that
    [parseFootnotes] returns, whatever the text it is given: no reference of
    the parser has an empty display text, on which the loop of the linking
    would not end. *)
Theorem parsed_footnotes_can_be_processed :
  forall (selectNotes : jstring -> list NoteElement) (html : jstring),
  exists fs,
    parseFootnotes selectNotes html = Some fs
    /\ Forall (fun f => forall content_,
                 exists out, processFootnoteContent content_ (Some f) = Some out) fs.
Proof.
  intros selectNotes html.
  destruct (ParserFacts.parseFootnotes_spec selectNotes html) as (fs & H & _).
  exists fs. split; [assumption|].
  pose proof (ParserFacts.parseFootnotes_display selectNotes html fs H) as Hd.
  apply Forall_forall. intros f Hin content_.
  rewrite Forall_forall in Hd. specialize (Hd f Hin).
  unfold processFootnoteContent. rewrite LinkingFacts.linkReferences_linkRefs.
  destruct (LinkingFacts.linkRefs_terminates (stripTags (rewriteDataRefs content_))
              (verseReferences f) (sortRefs (verseReferences f))
              (stripTags (rewriteDataRefs content_)) [])
    as (out & rs & -> & _).
  - apply Forall_forall. intros ref Href.
    apply (proj1 (LinkingFacts.sortRefs_In _ _)) in Href.
    rewrite Forall_forall in Hd. auto.
  - constructor.
  - eauto.
Qed.

Lemma linkIter_absent ref st :
  ~ occursIn (display ref) (processed st) -> linkIter ref st = None.
Proof.
  intros H. unfold linkIter.
  destruct (exec (displayPattern (display ref)) (processed st) (lastIndex st))
    as [mt|] eqn:E; [|reflexivity].
  exfalso. apply H. apply LinkingFacts.display_exec in E.
  destruct E as (_ & He & Hlen & Hm). exists (m_index mt).
  split; [lia|]. unfold matched in Hm. rewrite <- He. exact Hm.
Qed.

Lemma linkRefs_absent refs text : forall rs,
  Forall (fun ref => ~ occursIn (display ref) text) refs ->
  linkRefs refs text rs = Some (text, rs).
Proof.
  induction refs as [|ref refs IH]; intros rs H; [reflexivity|].
  inversion H as [|? ? Href Hrefs]; subst. cbn [linkRefs linkLoop].
  rewrite linkIter_absent by exact Href. cbn [processed linkedRanges].
  apply IH. assumption.
Qed.

(** X19: the linking of the references leaves the text as it is, and claims
    no range, when no display text of the references occurs in the text. *)
Theorem linking_needs_an_occurrence :
  forall (text : jstring) (f : ParsedFootnote),
    Forall (fun ref => ~ occursIn (display ref) text) (verseReferences f) ->
    linkReferences text (Some f) = Some (text, []).
Proof.
  intros text f H. rewrite LinkingFacts.linkReferences_linkRefs.
  apply linkRefs_absent. apply Forall_forall. intros ref Hin.
  apply (proj1 (LinkingFacts.sortRefs_In _ _)) in Hin.
  rewrite Forall_forall in H. auto.
Qed.

Lemma linking_needs_an_occurrence_witness :
  Forall (fun ref => ~ occursIn (display ref) (js "See the note."))
         (verseReferences (footnote "note_1" (js "See the note.") [long]))
  /\ linkReferences (js "See the note.")
       (Some (footnote "note_1" (js "See the note.") [long]))
     = Some (js "See the note.", []).
Proof.
  assert (H : Forall (fun ref => ~ occursIn (display ref) (js "See the note."))
                     (verseReferences (footnote "note_1" (js "See the note.") [long]))).
  { constructor; [|constructor]. intros (i & Hi & Ho). simpl in Hi.
    do 5 (destruct i as [|i]; [vm_compute in Ho; discriminate|]). lia. }
  split; [exact H|].
  exact (linking_needs_an_occurrence (js "See the note.")
           (footnote "note_1" (js "See the note.") [long]) H).
Defined.

End PipelineFacts.

(** * Markup *)

Module TagFacts.
Import MarkdownGenerator RunFacts.

Lemma run_nth cl t : forall n,
  n < run cl t -> exists ch, nth_error t n = Some ch /\ cmatch cl ch = true.
Proof.
  induction t as [|c t IH]; simpl; intros n Hn; [lia|].
  destruct (cmatch cl c) eqn:E; [|lia].
  destruct n as [|n]; simpl; [eauto|]. apply IH. lia.
Qed.

Lemma run_stop cl t ch : nth_error t (run cl t) = Some ch -> cmatch cl ch = false.
Proof.
  induction t as [|c t IH]; simpl; [discriminate|].
  destruct (cmatch cl c) eqn:E; simpl; [assumption|]. congruence.
Qed.

Lemma run_miss cl (s : jstring) j : hit cl s j = false -> run cl (skipn j s) = 0.
Proof.
  unfold hit. destruct (nth_error s j) as [ch|] eqn:E.
  - rewrite (skipn_nth s j ch E). simpl. intros ->. reflexivity.
  - rewrite (skipn_none s j E). reflexivity.
Qed.

Lemma run_app cl x c rest :
  forallb (cmatch cl) x = true -> cmatch cl c = false ->
  run cl (x ++ c :: rest) = length x.
Proof.
  intros Hx Hc. induction x as [|y x IH]; simpl in *; [rewrite Hc; reflexivity|].
  apply andb_true_iff in Hx. destruct Hx as [-> Hx]. f_equal. auto.
Qed.

Lemma run_whole cl t : forallb (cmatch cl) t = true -> run cl t = length t.
Proof.
  intros H. pose proof (BackLinkFacts.run_all cl t) as Ha. rewrite H in Ha.
  apply Nat.eqb_eq. assumption.
Qed.

Lemma notGt_In x : forallb (cmatch (CNoneOf [62%N])) x = true <-> ~ In 62%N x.
Proof.
  rewrite forallb_forall. simpl. split.
  - intros H Hin. specialize (H _ Hin). discriminate.
  - intros H c Hc. destruct (N.eqb_spec c 62) as [->|]; [contradiction | reflexivity].
Qed.

Lemma tag_matchAt s i :
  i <= length s ->
  match tagStart (skipn i s) with
  | Some n =>
      exists mt, matchAt tagPattern s i = Some mt
                 /\ m_index mt = i /\ m_end mt = i + S n
                 /\ (fun _ : rmatch => @nil N) mt = (fun _ : jstring => []) (skipn i s)
  | None => matchAt tagPattern s i = None
  end.
Proof.
  intros _.
  assert (H : matchAt tagPattern s i =
              match tagStart (skipn i s) with
              | Some n => Some {| m_index := i; m_end := i + S n; m_caps := [] |}
              | None => None
              end).
  { unfold matchAt, tagPattern, RCat. cbn [fold_right]. cbn [m].
    destruct (nth_error s i) as [ch|] eqn:E.
    2: { rewrite (skipn_none s i E). reflexivity. }
    rewrite (skipn_nth s i ch E). cbn [tagStart cmatch].
    destruct (N.eqb ch 60); [|reflexivity].
    change (js ">") with [62%N].
    destruct (hit (CNoneOf [62%N]) s (S i)) eqn:Eh.
    - rewrite plus_hit; [| assumption |].
      + unfold hit in Eh. destruct (nth_error s (S i)) as [c|] eqn:E1; [|discriminate].
        rewrite (skipn_nth s (S i) c E1). cbn [run]. rewrite Eh.
        cbn [nth_error]. rewrite nth_error_skipn.
        destruct (nth_error s (S (S i) + run (CNoneOf [62%N]) (skipn (S (S i)) s)))
          as [e|] eqn:E2; [|reflexivity].
        rewrite <- nth_error_skipn in E2. apply run_stop in E2. simpl in E2.
        rewrite orb_false_r in E2. apply negb_false_iff in E2. rewrite E2.
        do 2 f_equal. lia.
      + left. intros j c' Hj.
        destruct (run_nth (CNoneOf [62%N]) (skipn (S (S i)) s) (j - S (S i)))
          as (e & He & Hc); [lia|].
        rewrite nth_error_skipn in He.
        replace (S (S i) + (j - S (S i))) with j in He by lia. rewrite He.
        simpl in Hc. rewrite orb_false_r in Hc. apply negb_true_iff in Hc. rewrite Hc.
        reflexivity.
    - rewrite plus_miss by assumption. rewrite (run_miss _ _ _ Eh). reflexivity. }
  rewrite H. destruct (tagStart (skipn i s)) as [n|]; [|reflexivity].
  eexists. split; [reflexivity|]. auto.
Qed.

Lemma tagStart_length t n : tagStart t = Some n -> S n <= length t.
Proof.
  destruct t as [|c t]; cbn [tagStart length]; [discriminate|].
  destruct (N.eqb c 60); [|discriminate].
  destruct (run (CNoneOf [62%N]) t) as [|r]; [discriminate|].
  destruct (nth_error t (S r)) eqn:E; [|discriminate].
  intros H. injection H as <-.
  assert (S r < length t) by (apply nth_error_Some; congruence). lia.
Qed.

Lemma stripTags_rewritten s : stripTags s = rewritten tagStart (fun _ => []) 0 s.
Proof.
  unfold stripTags. apply replaceAll_rewritten.
  - apply tag_matchAt.
  - apply tagStart_length.
Qed.

Lemma rewritten_In starts c t :
  forall k, In c (rewritten starts (fun _ => []) k t) -> In c t.
Proof.
  induction t as [|x t IH]; intros k; cbn [rewritten]; [intros []|].
  destruct k as [|k].
  - destruct (starts (x :: t)); cbn [app].
    + intros H. right. eapply IH. eassumption.
    + intros [<-|H]; [left; reflexivity | right; eapply IH; eassumption].
  - intros H. right. eapply IH. eassumption.
Qed.

Lemma tagStart_none_cases t :
  tagStart (60%N :: t) = None ->
  t = [] \/ (exists t', t = 62%N :: t') \/ ~ In 62%N t.
Proof.
  cbn [tagStart N.eqb Pos.eqb]. destruct t as [|c t]; [auto|].
  cbn [run]. destruct (cmatch (CNoneOf [62%N]) c) eqn:Ec.
  - destruct (nth_error (c :: t) (S (run (CNoneOf [62%N]) t))) eqn:E; [discriminate|].
    intros _. right. right. apply notGt_In.
    apply nth_error_None in E. cbn [length] in E.
    pose proof (run_length (CNoneOf [62%N]) t).
    cbn [forallb]. rewrite Ec. cbn [andb].
    rewrite <- BackLinkFacts.run_all. apply Nat.eqb_eq. lia.
  - intros _. right. left. exists t. f_equal.
    simpl in Ec. rewrite orb_false_r in Ec. apply negb_false_iff in Ec.
    apply N.eqb_eq. assumption.
Qed.

Lemma tagStart_none_intro t :
  t = [] \/ (exists t', t = 62%N :: t') \/ ~ In 62%N t ->
  tagStart (60%N :: t) = None.
Proof.
  cbn [tagStart N.eqb Pos.eqb]. intros [->|[(t' & ->)|H]]; try reflexivity.
  apply notGt_In in H. rewrite (run_whole _ _ H).
  destruct (length t) as [|n] eqn:El; [reflexivity|].
  replace (nth_error t (S n)) with (@None N); [reflexivity|].
  symmetry. apply nth_error_None. lia.
Qed.

Lemma tagged_tagStart t : tagged t -> tagStart t <> None.
Proof.
  intros (x & rest & -> & Hx & Hn). cbn [tagStart N.eqb Pos.eqb].
  rewrite run_app; [| apply notGt_In; assumption | reflexivity].
  destruct x as [|c x]; [congruence|]. cbn [length].
  replace (nth_error ((c :: x) ++ 62%N :: rest) (S (length x))) with (Some 62%N);
    [discriminate|].
  symmetry. change (S (length x)) with (length (c :: x)).
  rewrite nth_error_app2 by lia. rewrite Nat.sub_diag. reflexivity.
Qed.

Lemma rewritten_tagless t : forall k a b,
  rewritten tagStart (fun _ => []) k t = a ++ b -> tagStart b = None.
Proof.
  induction t as [|c t IH]; intros k a b; cbn [rewritten].
  - intros H. symmetry in H. apply app_eq_nil in H. destruct H as [_ ->]. reflexivity.
  - destruct k as [|k]; [|apply IH].
    destruct (tagStart (c :: t)) as [n|] eqn:Es; cbn [app]; [apply IH|].
    destruct a as [|x a]; cbn [app]; intros H.
    + subst b. destruct (N.eqb_spec c 60) as [->|Hc].
      * apply tagStart_none_intro. apply tagStart_none_cases in Es.
        destruct Es as [->|[(t' & ->)|Hn]].
        -- left. reflexivity.
        -- right. left. cbn [rewritten tagStart N.eqb Pos.eqb]. eauto.
        -- right. right. intros Hin. apply Hn. eapply rewritten_In. eassumption.
      * cbn [tagStart]. apply N.eqb_neq in Hc. rewrite Hc. reflexivity.
    + injection H as _ H. eapply IH. eassumption.
Qed.

Lemma rewritten_same u :
  (forall a b, u = a ++ b -> tagStart b = None) ->
  rewritten tagStart (fun _ => []) 0 u = u.
Proof.
  induction u as [|c u IH]; intros H; [reflexivity|]. cbn [rewritten].
  rewrite (H [] (c :: u) eq_refl). f_equal. apply IH.
  intros a b Hab. apply (H (c :: a) b). rewrite Hab. reflexivity.
Qed.

(** X7: after the second step no tag is left in the text: no [<] that is
    followed by one code unit or more other than [>] and then by [>].
    Taking the tags out of the result again changes nothing. *)
Theorem stripTags_leaves_no_tag :
  forall processed : jstring,
    tagless (stripTags processed)
    /\ stripTags (stripTags processed) = stripTags processed.
Proof.
  intros processed. split.
  - intros a b H Ht. apply tagged_tagStart in Ht. apply Ht.
    rewrite stripTags_rewritten in H. eapply rewritten_tagless. eassumption.
  - rewrite (stripTags_rewritten (stripTags processed)). apply rewritten_same.
    intros a b H. rewrite stripTags_rewritten in H. eapply rewritten_tagless.
    eassumption.
Qed.

End TagFacts.

(** * The tags of step 1 *)

Module DataTagFacts.
Import FootnotesParser MarkdownGenerator RunFacts.

Lemma skipn_plus {A} (a b : list A) n : skipn (length a + n) (a ++ b) = skipn n b.
Proof. induction a as [|x a IH]; simpl; auto. Qed.

Lemma skipn_exact {A} (a b : list A) : skipn (length a) (a ++ b) = b.
Proof. rewrite <- (Nat.add_0_r (length a)). rewrite skipn_plus. reflexivity. Qed.

Lemma firstn_exact {A} (a b : list A) : firstn (length a) (a ++ b) = a.
Proof. induction a as [|x a IH]; simpl; congruence. Qed.

Lemma m_seq a b s i c k :
  m (RSeq a b) s i c k = m a s i c (fun j c' => m b s j c' k).
Proof. reflexivity. Qed.

Lemma m_group n a s i c k :
  m (RGroup n a) s i c k = m a s i c (fun j c' => k j ((n, (i, j)) :: c')).
Proof. reflexivity. Qed.

Lemma m_bol s c k : m RBol s 0 c k = k 0 c.
Proof. reflexivity. Qed.

Lemma m_set cl s i c k :
  m (RSet cl) s i c k =
    match nth_error s i with
    | Some ch => if cmatch cl ch then k (S i) c else None
    | None => None
    end.
Proof. reflexivity. Qed.

(** A literal matches where the text has it. *)
Lemma lit_m l : forall s i c k,
  m (RLit l) s i c k = if startsWith l (skipn i s) then k (i + length l) c else None.
Proof.
  induction l as [|x l IH]; intros s i c k.
  - simpl. rewrite Nat.add_0_r. reflexivity.
  - cbn [RLit m length]. destruct (nth_error s i) as [ch|] eqn:E.
    + rewrite (skipn_nth s i ch E). cbn [startsWith cmatch]. rewrite N.eqb_sym.
      destruct (N.eqb x ch); cbn [andb]; [|reflexivity].
      rewrite IH. replace (S i + length l) with (i + S (length l)) by lia. reflexivity.
    + rewrite (skipn_none s i E). reflexivity.
Qed.

Lemma hit_run cl s i : hit cl s i = Nat.ltb 0 (run cl (skipn i s)).
Proof.
  unfold hit. destruct (nth_error s i) as [ch|] eqn:E.
  - rewrite (skipn_nth s i ch E). simpl. destruct (cmatch cl ch); reflexivity.
  - rewrite (skipn_none s i E). reflexivity.
Qed.

Lemma run_step cl s i :
  hit cl s i = true -> S i + run cl (skipn (S i) s) = i + run cl (skipn i s).
Proof.
  unfold hit. destruct (nth_error s i) as [ch|] eqn:E; [|discriminate].
  rewrite (skipn_nth s i ch E). simpl. intros ->. lia.
Qed.

(** [cl+] takes the whole run of the class when the rest of the pattern
    succeeds after it, or fails everywhere inside it. *)
Lemma plus_run cl s i c k :
  (forall j c', i < j < i + run cl (skipn i s) -> k j c' = None)
  \/ k (i + run cl (skipn i s)) c <> None ->
  m (RPlus (RSet cl)) s i c k =
    if Nat.ltb 0 (run cl (skipn i s)) then k (i + run cl (skipn i s)) c else None.
Proof.
  intros Hk. rewrite <- hit_run. destruct (hit cl s i) eqn:Eh.
  - rewrite <- (run_step cl s i Eh) in *. apply plus_hit; [assumption|].
    destruct Hk as [Hk|Hk]; [left | right; assumption].
    intros j c' Hj. apply Hk. lia.
  - apply plus_miss. assumption.
Qed.

Lemma startsWith_head x l t :
  startsWith (x :: l) t = true -> exists t', t = x :: t'.
Proof.
  destruct t as [|y t]; simpl; [discriminate|].
  intros H. apply andb_true_iff in H. destruct H as [H _].
  apply N.eqb_eq in H. subst. eauto.
Qed.

Lemma startsWith_app l : forall t, startsWith l t = true -> t = l ++ skipn (length l) t.
Proof.
  induction l as [|x l IH]; intros t H; [reflexivity|].
  destruct t as [|y t]; simpl in H; [discriminate|].
  apply andb_true_iff in H. destruct H as [Hx H]. apply N.eqb_eq in Hx. subst y.
  simpl. f_equal. apply IH. assumption.
Qed.

Lemma startsWith_prefix l t : startsWith l (l ++ t) = true.
Proof.
  induction l as [|x l IH]; [reflexivity|]. simpl. rewrite N.eqb_refl. assumption.
Qed.

(** Inside a run of a class the text does not have a literal that begins
    outside the class. *)
Lemma inside_run cl x l s i j :
  cmatch cl x = false ->
  i <= j < i + run cl (skipn i s) ->
  startsWith (x :: l) (skipn j s) = false.
Proof.
  intros Hx Hj.
  destruct (TagFacts.run_nth cl (skipn i s) (j - i)) as (ch & He & Hc); [lia|].
  rewrite nth_error_skipn in He. replace (i + (j - i)) with j in He by lia.
  rewrite (skipn_nth s j ch He). simpl.
  destruct (N.eqb_spec x ch) as [->|]; [congruence | reflexivity].
Qed.

Lemma dataRefPattern_parts :
  dataRefPattern =
    RSeq (RLit tagHead)
      (RSeq (RGroup 1 (RPlus (RSet (CNoneOf dq))))
         (RSeq (RLit tagMid)
            (RSeq (RGroup 2 (RPlus (RSet (CNoneOf (js "<")))))
               (RSeq (RLit tagEnd) REps)))).
Proof. reflexivity. Qed.

(** Where the parts of the pattern of the tags match, and what they
    capture, whatever follows them in the pattern. *)
Lemma data_parts_m tail s i c k :
  m (RSeq (RLit tagHead)
       (RSeq (RGroup 1 (RPlus (RSet (CNoneOf dq))))
          (RSeq (RLit tagMid)
             (RSeq (RGroup 2 (RPlus (RSet (CNoneOf (js "<")))))
                (RSeq (RLit tagEnd) tail))))) s i c k =
    match dataRuns (skipn i s) with
    | Some (r1, r2) =>
        m tail s (i + (length tagHead + r1 + length tagMid + r2 + length tagEnd))
          ((2, (i + (length tagHead + r1 + length tagMid),
                i + (length tagHead + r1 + length tagMid + r2)))
           :: (1, (i + length tagHead, i + (length tagHead + r1))) :: c) k
    | None => None
    end.
Proof.
  unfold dataRuns.
  rewrite m_seq, lit_m.
  destruct (startsWith tagHead (skipn i s)) eqn:EA; [|reflexivity].
  rewrite m_seq, m_group.
  rewrite !skipn_skipn.
  replace (length tagHead + i) with (i + length tagHead) by lia.
  set (i1 := i + length tagHead).
  set (r1 := run (CNoneOf dq) (skipn i1 s)).
  rewrite plus_run.
  2: { left. intros j c' Hj. rewrite m_seq, lit_m.
       replace (startsWith tagMid (skipn j s)) with false; [reflexivity|].
       symmetry. apply (inside_run (CNoneOf dq) 34%N (js ">") s i1 j);
         [reflexivity | fold r1; lia]. }
  fold r1. destruct (Nat.ltb 0 r1) eqn:E1; cbn [andb]; [|reflexivity].
  rewrite m_seq, lit_m.
  replace (length tagHead + r1 + i) with (i1 + r1) by (unfold i1; lia).
  destruct (startsWith tagMid (skipn (i1 + r1) s)) eqn:EB; [|reflexivity].
  rewrite m_seq, m_group.
  replace (length tagHead + r1 + length tagMid + i) with (i1 + r1 + length tagMid)
    by (unfold i1; lia).
  set (i2 := i1 + r1 + length tagMid).
  set (r2 := run (CNoneOf (js "<")) (skipn i2 s)).
  rewrite plus_run.
  2: { left. intros j c' Hj. rewrite m_seq, lit_m.
       replace (startsWith tagEnd (skipn j s)) with false; [reflexivity|].
       symmetry. apply (inside_run (CNoneOf (js "<")) 60%N (js "/data>") s i2 j);
         [reflexivity | fold r2; lia]. }
  fold r2. destruct (Nat.ltb 0 r2) eqn:E2; cbn [andb]; [|reflexivity].
  rewrite m_seq, lit_m.
  replace (length tagHead + r1 + length tagMid + r2 + i) with (i2 + r2)
    by (unfold i2, i1; lia).
  destruct (startsWith tagEnd (skipn (i2 + r2) s)) eqn:EC; [|reflexivity].
  unfold i2, i1. repeat (f_equal; try lia).
Qed.

Lemma data_m s i :
  m dataRefPattern s i [] (fun j c => Some (j, c)) =
    match dataRuns (skipn i s) with
    | Some (r1, r2) =>
        Some (i + (length tagHead + r1 + length tagMid + r2 + length tagEnd),
              [(2, (i + (length tagHead + r1 + length tagMid),
                    i + (length tagHead + r1 + length tagMid + r2)));
               (1, (i + length tagHead, i + (length tagHead + r1)))])
    | None => None
    end.
Proof.
  rewrite dataRefPattern_parts, data_parts_m.
  destruct (dataRuns (skipn i s)) as [[r1 r2]|]; reflexivity.
Qed.

Lemma tag_lengths : length tagHead = 17 /\ length tagMid = 2 /\ length tagEnd = 7.
Proof. repeat split. Qed.

Lemma data_matchAt s i :
  i <= length s ->
  match dataStart (skipn i s) with
  | Some n =>
      exists mt, matchAt dataRefPattern s i = Some mt
                 /\ m_index mt = i /\ m_end mt = i + S n
                 /\ rewriteDataRef s mt = dataOut (skipn i s)
  | None => matchAt dataRefPattern s i = None
  end.
Proof.
  intros _. unfold matchAt. rewrite data_m. unfold dataStart, dataOut.
  destruct (dataRuns (skipn i s)) as [[r1 r2]|]; [|reflexivity].
  eexists. split; [reflexivity|]. cbn [m_index m_end].
  destruct tag_lengths as (HA & HB & HC).
  split; [reflexivity|]. split; [lia|].
  unfold rewriteDataRef, tagLink, MarkdownGenerator.grp, FootnotesParser.grp, group.
  cbn [m_caps cap Nat.eqb]. unfold substring.
  replace (i + (length tagHead + r1) - (i + length tagHead)) with r1 by lia.
  replace (i + (length tagHead + r1 + length tagMid + r2)
           - (i + (length tagHead + r1 + length tagMid))) with r2 by lia.
  rewrite !skipn_skipn.
  replace (length tagHead + i) with (i + length tagHead) by lia.
  replace (length tagHead + r1 + length tagMid + i)
    with (i + (length tagHead + r1 + length tagMid)) by lia.
  reflexivity.
Qed.

Lemma startsWith_length l : forall t, startsWith l t = true -> length l <= length t.
Proof.
  induction l as [|x l IH]; intros [|y t]; simpl; try lia; try discriminate.
  intros H. apply andb_true_iff in H. destruct H as [_ H]. apply IH in H. lia.
Qed.

Lemma dataStart_length t n : dataStart t = Some n -> S n <= length t.
Proof.
  unfold dataStart, dataRuns.
  destruct (startsWith tagHead t); [|discriminate].
  destruct (_ && _)%bool; [|discriminate].
  destruct (Nat.ltb 0 _ && startsWith tagEnd _)%bool eqn:E; [|discriminate].
  apply andb_true_iff in E. destruct E as [_ E].
  apply startsWith_length in E. rewrite length_skipn in E.
  match goal with |- Some ?x = Some n -> _ => set (k := x) end.
  intros H. assert (Hn : n = k) by congruence. subst n. unfold k.
  destruct tag_lengths as (HA & HB & HC). lia.
Qed.

Lemma rewriteDataRefs_rewritten s :
  rewriteDataRefs s = rewritten dataStart dataOut 0 s.
Proof.
  unfold rewriteDataRefs. apply replaceAll_rewritten.
  - apply data_matchAt.
  - apply dataStart_length.
Qed.

Lemma startsWith_occurs l (s : jstring) i :
  startsWith l (skipn i s) = true -> occursIn l s.
Proof.
  intros H. pose proof (startsWith_length _ _ H) as Hlen.
  apply startsWith_app in H. rewrite length_skipn in Hlen.
  destruct l as [|x l].
  - exists 0. split; [simpl; lia | reflexivity].
  - exists i. split; [simpl in *; lia|]. unfold substring.
    replace (i + length (x :: l) - i) with (length (x :: l)) by lia.
    rewrite H. apply firstn_exact.
Qed.

Lemma startsWith_split l : forall a u,
  startsWith l (a ++ u) = true ->
  startsWith l a = true \/ exists l', l = a ++ l' /\ startsWith l' u = true.
Proof.
  induction l as [|x l IH]; intros a u H; [left; reflexivity|].
  destruct a as [|y a]; [right; exists (x :: l); auto|].
  cbn [app startsWith] in *. apply andb_true_iff in H. destruct H as [Hx H].
  rewrite Hx. cbn [andb]. apply N.eqb_eq in Hx. subst y.
  destruct (IH a u H) as [Ha | (l' & -> & Hl')]; [left; assumption|].
  right. exists l'. auto.
Qed.

Lemma occursIn_tail l c (s : jstring) : ~ occursIn l (c :: s) -> ~ occursIn l s.
Proof.
  intros H (i & Hi & Hs). apply H. exists (S i). split; [simpl; lia|]. exact Hs.
Qed.

(** A tag does not begin in a text that has no [<data ref=%Bible:], with %
    written for the double quote, even when a tag follows the text. *)
Lemma no_head_inside c pre u :
  ~ occursIn tagHead (c :: pre) -> startsWith tagHead u = true ->
  startsWith tagHead (c :: pre ++ u) = false.
Proof.
  intros Hno Hu. destruct (startsWith tagHead (c :: pre ++ u)) eqn:E; [|reflexivity].
  exfalso. change (c :: pre ++ u) with ((c :: pre) ++ u) in E.
  apply startsWith_split in E. destruct E as [E | (l' & Hl & E)].
  - apply Hno. apply (startsWith_occurs tagHead (c :: pre) 0). exact E.
  - destruct l' as [|x l'].
    + apply Hno. apply (startsWith_occurs tagHead (c :: pre) 0).
      rewrite app_nil_r in Hl. cbn [skipn]. rewrite <- Hl.
      pose proof (startsWith_prefix tagHead []) as Hp. rewrite app_nil_r in Hp.
      exact Hp.
    + apply startsWith_head in E. destruct E as (u' & ->).
      apply startsWith_head in Hu. destruct Hu as (u'' & Hu). injection Hu as Hx _.
      subst x. assert (Hin : In 60%N (tl tagHead)).
      { rewrite Hl. cbn [tl app]. apply in_or_app. right. left. reflexivity. }
      vm_compute in Hin. intuition discriminate.
Qed.

Lemma dataStart_inside c pre u :
  ~ occursIn tagHead (c :: pre) -> startsWith tagHead u = true ->
  dataStart (c :: pre ++ u) = None.
Proof.
  intros Hno Hu. unfold dataStart, dataRuns.
  rewrite (no_head_inside c pre u Hno Hu). reflexivity.
Qed.

Lemma rewritten_plain pre u :
  ~ occursIn tagHead pre -> startsWith tagHead u = true ->
  rewritten dataStart dataOut 0 (pre ++ u) = pre ++ rewritten dataStart dataOut 0 u.
Proof.
  intros H Hu. induction pre as [|c pre IH]; [reflexivity|].
  cbn [app rewritten]. rewrite (dataStart_inside c pre u H Hu).
  f_equal. apply IH. apply (occursIn_tail _ c). assumption.
Qed.

Lemma dataTagOf_head ref d post : startsWith tagHead (dataTagOf ref d ++ post) = true.
Proof. unfold dataTagOf. rewrite <- !app_assoc. apply startsWith_prefix. Qed.

Lemma rewritten_at starts out t n :
  starts t = Some n -> S n <= length t ->
  rewritten starts out 0 t = out t ++ rewritten starts out 0 (skipn (S n) t).
Proof.
  destruct t as [|c t]; simpl; [lia|]. intros -> Hn. f_equal.
  apply rewritten_skip. lia.
Qed.

Lemma noneOf_In c x :
  ~ In c x -> forallb (cmatch (CNoneOf [c])) x = true.
Proof.
  intros H. apply forallb_forall. intros y Hy. simpl.
  destruct (N.eqb_spec y c) as [->|]; [contradiction | reflexivity].
Qed.

Lemma dataRuns_tag ref d post :
  ref <> [] -> ~ In 34%N ref -> d <> [] -> ~ In 60%N d ->
  dataRuns (dataTagOf ref d ++ post) = Some (length ref, length d).
Proof.
  intros Hr Hq Hd Hl. unfold dataRuns, dataTagOf. rewrite <- !app_assoc.
  rewrite startsWith_prefix. rewrite skipn_exact.
  assert (R1 : run (CNoneOf dq) (ref ++ tagMid ++ d ++ tagEnd ++ post) = length ref).
  { apply (TagFacts.run_app (CNoneOf dq) ref 34%N); [apply noneOf_In; assumption|].
    reflexivity. }
  rewrite R1.
  replace (Nat.ltb 0 (length ref)) with true
    by (destruct ref; [congruence | reflexivity]).
  rewrite skipn_plus, skipn_exact, startsWith_prefix. cbn [andb].
  rewrite <- Nat.add_assoc, skipn_plus, skipn_plus, skipn_exact.
  assert (R2 : run (CNoneOf (js "<")) (d ++ tagEnd ++ post) = length d).
  { apply (TagFacts.run_app (CNoneOf (js "<")) d 60%N); [apply noneOf_In; assumption|].
    reflexivity. }
  rewrite R2.
  replace (Nat.ltb 0 (length d)) with true by (destruct d; [congruence | reflexivity]).
  rewrite <- !Nat.add_assoc, !skipn_plus, skipn_exact, startsWith_prefix. reflexivity.
Qed.

(** Step 1 leaves the text before a tag as it is, when it has no [<], puts
    in the place of the tag what the callback makes of its reference and its
    display text, and goes on after the tag. *)
Lemma rewriteDataRefs_tag pre ref d post :
  ~ occursIn tagHead pre -> ref <> [] -> ~ In 34%N ref -> d <> [] -> ~ In 60%N d ->
  rewriteDataRefs (pre ++ dataTagOf ref d ++ post)
  = pre ++ tagLink ref d ++ rewriteDataRefs post.
Proof.
  intros Hpre Hr Hq Hd Hl.
  rewrite !rewriteDataRefs_rewritten.
  rewrite rewritten_plain by (try assumption; apply dataTagOf_head). f_equal.
  pose proof (dataRuns_tag ref d post Hr Hq Hd Hl) as Hruns.
  destruct tag_lengths as (HA & HB & HC).
  assert (Hlen : length (dataTagOf ref d)
                 = length tagHead + length ref + length tagMid + length d + length tagEnd).
  { unfold dataTagOf. rewrite !length_app. lia. }
  rewrite (rewritten_at dataStart dataOut (dataTagOf ref d ++ post)
             (length (dataTagOf ref d) - 1)).
  - replace (S (length (dataTagOf ref d) - 1)) with (length (dataTagOf ref d)) by lia.
    rewrite skipn_exact. f_equal.
    unfold dataOut. rewrite Hruns. unfold dataTagOf. rewrite <- !app_assoc.
    rewrite skipn_exact, firstn_exact.
    rewrite <- Nat.add_assoc, skipn_plus, skipn_plus, skipn_exact, firstn_exact.
    reflexivity.
  - unfold dataStart. rewrite Hruns. f_equal. lia.
  - rewrite length_app. lia.
Qed.

(** ** The grammar of a reference *)

Lemma first_miss r : forall cl s j c k,
  firstSet r = Some cl -> hit cl s j = false -> m r s j c k = None.
Proof.
  induction r as [| cl0 | a IHa b IHb | a IHa | a IHa | n a IHa | | | | cls | a IHa];
    intros cl s j c k Hf Hh; simpl in Hf; try discriminate.
  - injection Hf as ->. cbn [m]. unfold hit in Hh.
    destruct (nth_error s j); [rewrite Hh|]; reflexivity.
  - rewrite m_seq. eapply IHa; eassumption.
  - rewrite m_group. eapply IHa; eassumption.
Qed.

Lemma run_over cl x rest :
  forallb (cmatch cl) x = true -> run cl rest = 0 -> run cl (x ++ rest) = length x.
Proof.
  intros Hx Hr. induction x as [|c x IH]; simpl in *; [assumption|].
  apply andb_true_iff in Hx. destruct Hx as [-> Hx]. f_equal. auto.
Qed.

Lemma skipn_over (s : jstring) i x rest :
  skipn i s = x ++ rest -> skipn (i + length x) s = rest.
Proof.
  intros H. rewrite Nat.add_comm, <- skipn_skipn, H. apply skipn_exact.
Qed.

Lemma inside_over (s : jstring) i x rest j :
  skipn i s = x ++ rest -> i <= j < i + length x ->
  exists ch, nth_error s j = Some ch /\ In ch x.
Proof.
  intros H Hj. replace j with (i + (j - i)) by lia.
  rewrite <- nth_error_skipn, H, nth_error_app1 by lia.
  destruct (nth_error x (j - i)) as [ch|] eqn:E.
  - exists ch. split; [reflexivity|]. eapply nth_error_In. eassumption.
  - apply nth_error_None in E. lia.
Qed.

Lemma hit_inside cl' (s : jstring) i x rest j :
  skipn i s = x ++ rest -> i <= j < i + length x ->
  (forall ch, In ch x -> cmatch cl' ch = false) ->
  hit cl' s j = false.
Proof.
  intros H Hj Hx. destruct (inside_over s i x rest j H Hj) as (ch & E & Hin).
  unfold hit. rewrite E. auto.
Qed.

(** [cl+] on a text that has the run [x] of the class at [i], when the rest
    of the pattern fails inside the run. *)
Lemma plus_over cl s i x rest c k :
  skipn i s = x ++ rest -> x <> [] ->
  forallb (cmatch cl) x = true -> run cl rest = 0 ->
  (forall j c', i < j < i + length x -> k j c' = None) ->
  m (RPlus (RSet cl)) s i c k = k (i + length x) c.
Proof.
  intros Hs Hx Hcl Hrest Hk.
  assert (Hrun : run cl (skipn i s) = length x) by (rewrite Hs; apply run_over; assumption).
  rewrite plus_run; rewrite Hrun.
  - destruct x; [congruence | reflexivity].
  - left. assumption.
Qed.

Lemma word_not_space ch : isWord ch = true -> isSpace ch = false.
Proof.
  intros H. destruct (isSpace ch) eqn:E; [exfalso | reflexivity].
  unfold isWord, isSpace, isDigit, in_range in *.
  repeat rewrite ?orb_true_iff, ?andb_true_iff, ?N.leb_le, ?N.eqb_eq in *. lia.
Qed.

Lemma space_not_digit ch : isSpace ch = true -> isDigit ch = false.
Proof.
  intros H. destruct (isDigit ch) eqn:E; [exfalso | reflexivity].
  unfold isSpace, isDigit, in_range in *.
  repeat rewrite ?orb_true_iff, ?andb_true_iff, ?N.leb_le, ?N.eqb_eq in *. lia.
Qed.

Lemma digit_not ch c0 :
  isDigit ch = true -> (c0 < 48 \/ 57 < c0)%N -> N.eqb ch c0 = false.
Proof.
  intros H Hc. apply N.eqb_neq. unfold isDigit, in_range in H.
  rewrite andb_true_iff, !N.leb_le in H. lia.
Qed.

Lemma forallb_In {A} (p : A -> bool) l x : forallb p l = true -> In x l -> p x = true.
Proof. intros H Hin. rewrite forallb_forall in H. auto. Qed.

Local Abbreviation refTail :=
  (RSeq (ROpt (RSeq (RSet (CChar 45)) (RGroup 4 (RPlus (RSet CDigit)))))
     (RSeq REol REps)).

(** [(\w+)\s+(\d+):(\d+)(?:-(\d+))?$], the part that the two patterns of the
    references share. *)
Local Abbreviation citation :=
  (RSeq (RGroup 1 (RPlus (RSet CWord)))
     (RSeq (RPlus (RSet CSpace))
        (RSeq (RGroup 2 (RPlus (RSet CDigit)))
           (RSeq (RSet (CChar 58))
              (RSeq (RGroup 3 (RPlus (RSet CDigit))) refTail))))).

Local Abbreviation done := (fun (j : nat) (c : caps) => Some (j, c)).

Lemma refPattern_parts : refPattern = RSeq RBol citation.
Proof. reflexivity. Qed.

Lemma refGrammar_parts : refGrammar = RSeq RBol (RSeq (RLit (js "Bible:")) citation).
Proof. reflexivity. Qed.

(** The end of the pattern fails before the end of the text on a digit. *)
Lemma tail_inside s j c ch :
  nth_error s j = Some ch -> isDigit ch = true -> m refTail s j c done = None.
Proof.
  intros E Hd. rewrite m_seq. cbn [m].
  rewrite E. cbn [cmatch]. rewrite (digit_not ch 45 Hd) by lia. cbn [orElse].
  assert (Hj : j < length s) by (apply nth_error_Some; congruence).
  replace (Nat.eqb j (length s)) with false; [reflexivity|].
  symmetry. apply Nat.eqb_neq. lia.
Qed.

Lemma tail_end s c : m refTail s (length s) c done = Some (length s, c).
Proof.
  rewrite m_seq. cbn [m].
  replace (nth_error s (length s)) with (@None N)
    by (symmetry; apply nth_error_None; lia).
  cbn [orElse]. rewrite Nat.eqb_refl. reflexivity.
Qed.

Lemma tail_range s p e c :
  skipn p s = 45%N :: e -> digitsText e ->
  m refTail s p c done = Some (length s, (4, (S p, length s)) :: c).
Proof.
  intros Hs [He Hd]. rewrite m_seq. cbn [m].
  assert (E : nth_error s p = Some 45%N).
  { rewrite <- (Nat.add_0_r p), <- nth_error_skipn, Hs. reflexivity. }
  rewrite E. cbn [cmatch N.eqb Pos.eqb].
  assert (Hse : skipn (S p) s = e ++ []).
  { rewrite app_nil_r. rewrite (skipn_nth s p _ E) in Hs. congruence. }
  assert (Hlen : S p + length e = length s).
  { apply (f_equal (@length N)) in Hse. rewrite length_skipn, length_app in Hse.
    simpl in Hse. assert (p < length s) by (apply nth_error_Some; congruence). lia. }
  rewrite (plus_over CDigit s (S p) e [] _ _ Hse He Hd eq_refl).
  - rewrite Hlen. replace (Nat.ltb p (length s)) with true
      by (symmetry; apply Nat.ltb_lt; lia).
    rewrite Nat.eqb_refl. reflexivity.
  - intros j c' Hj. destruct (Nat.ltb p j); [|reflexivity].
    replace (Nat.eqb j (length s)) with false; [reflexivity|].
    symmetry. apply Nat.eqb_neq. lia.
Qed.

(** Up to the verse, the pattern goes one way on a reference of the form
    code, white space, chapter, colon, verse. *)
Lemma citation_head s i code sp c v rest caps0 :
  wordText code -> spaceText sp -> digitsText c -> digitsText v ->
  run CDigit rest = 0 ->
  skipn i s = code ++ sp ++ c ++ 58%N :: v ++ rest ->
  let p2 := i + length code + length sp in
  let p3 := p2 + length c + 1 in
  m citation s i caps0 done
  = m refTail s (p3 + length v)
      ((3, (p3, p3 + length v)) :: (2, (p2, p2 + length c))
       :: (1, (i, i + length code)) :: caps0)
      done.
Proof.
  intros [Hcode Wcode] [Hsp Wsp] [Hc Wc] [Hv Wv] Hrest S0 p2 p3.
  pose proof (skipn_over s i code _ S0) as S1.
  pose proof (skipn_over s _ sp _ S1) as S2. fold p2 in S2.
  pose proof (skipn_over s _ c _ S2) as S3.
  assert (E3 : nth_error s (p2 + length c) = Some 58%N).
  { rewrite <- (Nat.add_0_r (p2 + length c)), <- nth_error_skipn, S3. reflexivity. }
  assert (S4 : skipn p3 s = v ++ rest).
  { unfold p3. rewrite Nat.add_1_r. rewrite (skipn_nth s _ _ E3) in S3. congruence. }
  rewrite m_seq, m_group.
  rewrite (plus_over CWord s i code _ _ _ S0 Hcode Wcode).
  2: { destruct sp as [|s0 sp']; [congruence|]. simpl in Wsp |- *.
       apply andb_true_iff in Wsp. destruct Wsp as [Ws0 _].
       destruct (isWord s0) eqn:E; [|reflexivity].
       apply word_not_space in E. congruence. }
  2: { intros j c' Hj. cbv beta. rewrite m_seq.
       apply (first_miss _ CSpace); [reflexivity|].
       apply (hit_inside CSpace s i code _ j S0); [lia|].
       intros ch Hin. apply word_not_space. apply (forallb_In _ _ _ Wcode Hin). }
  cbv beta. rewrite m_seq.
  rewrite (plus_over CSpace s (i + length code) sp _ _ _ S1 Hsp Wsp).
  2: { destruct c as [|c0 c']; [congruence|]. simpl in Wc |- *.
       apply andb_true_iff in Wc. destruct Wc as [Wc0 _].
       destruct (isSpace c0) eqn:E; [|reflexivity].
       apply space_not_digit in E. congruence. }
  2: { intros j c' Hj. rewrite m_seq.
       apply (first_miss _ CDigit); [reflexivity|].
       apply (hit_inside CDigit s (i + length code) sp _ j S1); [lia|].
       intros ch Hin. apply space_not_digit. apply (forallb_In _ _ _ Wsp Hin). }
  fold p2.
  rewrite m_seq, m_group.
  rewrite (plus_over CDigit s p2 c _ _ _ S2 Hc Wc eq_refl).
  2: { intros j c' Hj. cbv beta. rewrite m_seq.
       apply (first_miss _ (CChar 58)); [reflexivity|].
       apply (hit_inside (CChar 58) s p2 c _ j S2); [lia|].
       intros ch Hin. simpl. apply digit_not; [|lia]. apply (forallb_In _ _ _ Wc Hin). }
  cbv beta. rewrite m_seq, m_set, E3. cbn [cmatch N.eqb Pos.eqb].
  replace (S (p2 + length c)) with p3 by (unfold p3; lia).
  rewrite m_seq, m_group.
  rewrite (plus_over CDigit s p3 v _ _ _ S4 Hv Wv Hrest).
  2: { intros j c' Hj. cbv beta.
       destruct (inside_over s p3 v rest j S4) as (ch & E & Hin); [lia|].
       apply (tail_inside s j _ ch E). apply (forallb_In _ _ _ Wv Hin). }
  reflexivity.
Qed.

(** The end of the range of a reference, if it has one. *)
Lemma citation_groups s i code sp c v range :
  wordText code -> spaceText sp -> digitsText c -> digitsText v ->
  range = [] \/ (exists e, digitsText e /\ range = 45%N :: e) ->
  skipn i s = code ++ sp ++ c ++ 58%N :: v ++ range ->
  exists cs,
    m citation s i [] done = Some (length s, cs)
    /\ forall mt, m_caps mt = cs ->
         group s mt 1 = Some code /\ group s mt 2 = Some c /\ group s mt 3 = Some v
         /\ group s mt 4 = match range with [] => None | _ :: e => Some e end.
Proof.
  intros Hcode Hsp Hc Hv Hrange S0.
  set (p2 := i + length code + length sp). set (p3 := p2 + length c + 1).
  pose proof (skipn_over s i code _ S0) as S1.
  pose proof (skipn_over s _ sp _ S1) as S2. fold p2 in S2.
  assert (S4 : skipn p3 s = v ++ range).
  { unfold p3. rewrite <- Nat.add_assoc, Nat.add_comm, <- skipn_skipn, S2.
    rewrite Nat.add_comm, <- skipn_skipn, skipn_exact. reflexivity. }
  pose proof (skipn_over s _ v _ S4) as S5.
  assert (Hrest : run CDigit range = 0).
  { destruct Hrange as [->|(e & _ & ->)]; reflexivity. }
  pose proof (citation_head s i code sp c v range [] Hcode Hsp Hc Hv Hrest S0) as Hm.
  cbv zeta in Hm. fold p2 p3 in Hm. rewrite Hm.
  assert (Hsub : substring s i (i + length code) = code
                 /\ substring s p2 (p2 + length c) = c
                 /\ substring s p3 (p3 + length v) = v).
  { unfold substring.
    replace (i + length code - i) with (length code) by lia.
    replace (p2 + length c - p2) with (length c) by lia.
    replace (p3 + length v - p3) with (length v) by lia.
    rewrite S0, S2, S4, !firstn_exact. auto. }
  destruct Hsub as (G1 & G2 & G3).
  destruct Hrange as [->|(e & He & ->)].
  - rewrite app_nil_r in S4.
    assert (Hlen : p3 + length v = length s).
    { apply (f_equal (@length N)) in S4. rewrite length_skipn in S4.
      assert (0 < length v) by (destruct Hv as [Hv _]; destruct v; simpl; [congruence | lia]).
      lia. }
    rewrite Hlen, tail_end. eexists. split; [reflexivity|].
    intros mt Hmt. unfold group. rewrite Hmt. cbn [cap Nat.eqb].
    rewrite <- Hlen, G1, G2, G3. auto.
  - rewrite (tail_range s (p3 + length v) e _ S5 He). eexists. split; [reflexivity|].
    intros mt Hmt. unfold group. rewrite Hmt. cbn [cap Nat.eqb]. rewrite G1, G2, G3.
    repeat split. f_equal. unfold substring.
    assert (E5 : nth_error s (p3 + length v) = Some 45%N).
    { rewrite <- (Nat.add_0_r (p3 + length v)), <- nth_error_skipn, S5. reflexivity. }
    assert (S6 : skipn (S (p3 + length v)) s = e).
    { rewrite (skipn_nth s _ _ E5) in S5. congruence. }
    rewrite S6. apply firstn_all2.
    apply (f_equal (@length N)) in S6. rewrite length_skipn in S6. lia.
Qed.

Lemma scan_first r s n mt : matchAt r s 0 = Some mt -> scan r s (S n) 0 = Some mt.
Proof. intros H. cbn [scan]. rewrite H. reflexivity. Qed.

(** What the callback makes of a reference of the form code, white space,
    chapter, colon, verse, with or without the end of a range. *)
Lemma tagLink_reference code sp c v range d :
  wordText code -> spaceText sp -> digitsText c -> digitsText v ->
  range = [] \/ (exists e, digitsText e /\ range = 45%N :: e) ->
  tagLink (code ++ sp ++ c ++ 58%N :: v ++ range) d
  = js "[[" ++ val_to_js (expandBookCode code) ++ js " " ++ c ++ js "#" ++ v
    ++ js "|" ++ d ++ js "]]".
Proof.
  intros Hcode Hsp Hc Hv Hrange.
  set (ref := code ++ sp ++ c ++ 58%N :: v ++ range).
  destruct (citation_groups ref 0 code sp c v range Hcode Hsp Hc Hv Hrange eq_refl)
    as (cs & Hm & Hg).
  assert (Hmt : matchAt refPattern ref 0
                = Some {| m_index := 0; m_end := length ref; m_caps := cs |}).
  { unfold matchAt. rewrite refPattern_parts, m_seq, m_bol, Hm. reflexivity. }
  unfold tagLink, match_, exec. rewrite Nat.sub_0_r, (scan_first _ _ _ _ Hmt).
  destruct (Hg {| m_index := 0; m_end := length ref; m_caps := cs |} eq_refl)
    as (G1 & G2 & G3 & _).
  unfold MarkdownGenerator.grp, FootnotesParser.grp. rewrite G1, G2, G3. reflexivity.
Qed.

Lemma reference_unquoted code sp c v range :
  wordText code -> spaceText sp -> digitsText c -> digitsText v ->
  range = [] \/ (exists e, digitsText e /\ range = 45%N :: e) ->
  code ++ sp ++ c ++ 58%N :: v ++ range <> []
  /\ ~ In 34%N (code ++ sp ++ c ++ 58%N :: v ++ range).
Proof.
  intros [Hcode Wcode] [_ Wsp] [_ Wc] [_ Wv] Hrange. split.
  - destruct code; [congruence | discriminate].
  - assert (Hd : forall t, forallb isDigit t = true -> ~ In 34%N t).
    { intros t Ht Hin. apply (forallb_In _ _ _ Ht) in Hin. discriminate. }
    intros Hin. repeat (apply in_app_or in Hin; destruct Hin as [Hin|Hin]).
    + apply (forallb_In _ _ _ Wcode) in Hin. discriminate.
    + apply (forallb_In _ _ _ Wsp) in Hin. discriminate.
    + exact (Hd c Wc Hin).
    + destruct Hin as [Hin|Hin]; [discriminate|].
      apply in_app_or in Hin. destruct Hin as [Hin|Hin]; [exact (Hd v Wv Hin)|].
      destruct Hrange as [->|(e & [_ We] & ->)]; [contradiction|].
      destruct Hin as [Hin|Hin]; [discriminate | exact (Hd e We Hin)].
Qed.

(** A reference without a colon does not fit the grammar. *)
Lemma tagLink_no_colon ref d : ~ In 58%N ref -> tagLink ref d = d.
Proof.
  intros H. unfold tagLink, match_.
  destruct (exec refPattern ref 0) as [mt|] eqn:E; [|reflexivity].
  apply (HintFacts.exec_times 58) in E. change (times 58 refPattern) with 1 in E.
  unfold count in E. rewrite (count_occ_not_In N.eq_dec ref 58%N) in H. lia.
Qed.

Lemma parseDataRef_no_colon ref d :
  ~ In 58%N ref -> parseDataRef (js "Bible:" ++ ref) d = None.
Proof.
  intros H. unfold parseDataRef, match_.
  destruct (exec refGrammar (js "Bible:" ++ ref) 0) as [mt|] eqn:E; [|reflexivity].
  apply (HintFacts.exec_times 58) in E. change (times 58 refGrammar) with 2 in E.
  rewrite HintFacts.count_app in E. change (count 58 (js "Bible:")) with 1 in E.
  unfold count in E. rewrite (count_occ_not_In N.eq_dec ref 58%N) in H. lia.
Qed.

(** X15: in step 1 a tag whose reference has the form code, white space,
    chapter, colon, verse, with or without the end of a range, becomes the
    link to that verse of the book the code expands to, with the display
    text of the tag as its label; the end of the range plays no part.  The
    text before the tag stays, and the text after it is rewritten in the
    same way. *)
Theorem step_1_links_a_well_formed_tag :
  forall pre code sp c v range display_ post : jstring,
    ~ occursIn tagHead pre ->
    wordText code -> spaceText sp -> digitsText c -> digitsText v ->
    range = [] \/ (exists e, digitsText e /\ range = 45%N :: e) ->
    display_ <> [] -> ~ In 60%N display_ ->
    rewriteDataRefs
      (pre ++ dataTagOf (code ++ sp ++ c ++ 58%N :: v ++ range) display_ ++ post)
    = pre
      ++ (js "[[" ++ val_to_js (expandBookCode code) ++ js " " ++ c ++ js "#" ++ v
          ++ js "|" ++ display_ ++ js "]]")
      ++ rewriteDataRefs post.
Proof.
  intros pre code sp c v range d post Hpre Hcode Hsp Hc Hv Hrange Hd Hl.
  destruct (reference_unquoted code sp c v range Hcode Hsp Hc Hv Hrange) as [Hne Hq].
  rewrite <- (tagLink_reference code sp c v range d Hcode Hsp Hc Hv Hrange).
  apply rewriteDataRefs_tag; assumption.
Qed.

Lemma step_1_links_a_well_formed_tag_witness :
  ~ occursIn tagHead (js "<sup>1</sup> See ")
  /\ wordText (js "Jn") /\ spaceText (js " ") /\ digitsText (js "1")
  /\ digitsText (js "24")
  /\ (@nil N = [] \/ (exists e, digitsText e /\ @nil N = 45%N :: e))
  /\ js "1:24" <> [] /\ ~ In 60%N (js "1:24")
  /\ rewriteDataRefs
       (js "<sup>1</sup> See " ++ dataTagOf (js "Jn" ++ js " " ++ js "1" ++ 58%N :: js "24" ++ [])
                       (js "1:24") ++ js ".")
     = js "<sup>1</sup> See "
       ++ (js "[[" ++ val_to_js (expandBookCode (js "Jn")) ++ js " " ++ js "1"
           ++ js "#" ++ js "24" ++ js "|" ++ js "1:24" ++ js "]]")
       ++ rewriteDataRefs (js ".").
Proof.
  assert (H1 : ~ occursIn tagHead (js "<sup>1</sup> See ")).
  { intros (i & Hi & Ho). simpl in Hi. destruct i; [|lia].
    vm_compute in Ho. discriminate. }
  assert (H2 : wordText (js "Jn")) by (split; [discriminate | reflexivity]).
  assert (H3 : spaceText (js " ")) by (split; [discriminate | reflexivity]).
  assert (H4 : digitsText (js "1")) by (split; [discriminate | reflexivity]).
  assert (H5 : digitsText (js "24")) by (split; [discriminate | reflexivity]).
  assert (H6 : @nil N = [] \/ (exists e, digitsText e /\ @nil N = 45%N :: e))
    by (left; reflexivity).
  assert (H7 : js "1:24" <> []) by discriminate.
  assert (H8 : ~ In 60%N (js "1:24")) by (simpl; intuition discriminate).
  repeat (split; [assumption|]).
  exact (step_1_links_a_well_formed_tag (js "<sup>1</sup> See ") (js "Jn") (js " ") (js "1")
           (js "24") [] (js "1:24") (js ".") H1 H2 H3 H4 H5 H6 H7 H8).
Defined.

(** X16: in step 1 a tag whose reference has no colon, and so does not fit
    the grammar, gives way to its display text alone, without a link. *)
Theorem step_1_keeps_the_display_of_a_malformed_tag :
  forall pre ref display_ post : jstring,
    ~ occursIn tagHead pre ->
    ref <> [] -> ~ In 34%N ref -> ~ In 58%N ref ->
    display_ <> [] -> ~ In 60%N display_ ->
    rewriteDataRefs (pre ++ dataTagOf ref display_ ++ post)
    = pre ++ display_ ++ rewriteDataRefs post.
Proof.
  intros pre ref d post Hpre Hr Hq Hcolon Hd Hl.
  rewrite rewriteDataRefs_tag by assumption.
  rewrite (tagLink_no_colon ref d Hcolon). reflexivity.
Qed.

Lemma step_1_keeps_the_display_of_a_malformed_tag_witness :
  ~ occursIn tagHead (js "<sup>1</sup> See ")
  /\ js "John" <> [] /\ ~ In 34%N (js "John") /\ ~ In 58%N (js "John")
  /\ js "there" <> [] /\ ~ In 60%N (js "there")
  /\ rewriteDataRefs (js "<sup>1</sup> See " ++ dataTagOf (js "John") (js "there") ++ js ".")
     = js "<sup>1</sup> See " ++ js "there" ++ rewriteDataRefs (js ".").
Proof.
  assert (H1 : ~ occursIn tagHead (js "<sup>1</sup> See ")).
  { intros (i & Hi & Ho). simpl in Hi. destruct i; [|lia].
    vm_compute in Ho. discriminate. }
  assert (H2 : js "John" <> []) by discriminate.
  assert (H3 : ~ In 34%N (js "John")) by (simpl; intuition discriminate).
  assert (H4 : ~ In 58%N (js "John")) by (simpl; intuition discriminate).
  assert (H5 : js "there" <> []) by discriminate.
  assert (H6 : ~ In 60%N (js "there")) by (simpl; intuition discriminate).
  repeat (split; [assumption|]).
  exact (step_1_keeps_the_display_of_a_malformed_tag (js "<sup>1</sup> See ") (js "John")
           (js "there") (js ".") H1 H2 H3 H4 H5 H6).
Defined.

(** ** The references of the tags *)

Lemma matchAll_data html : matchAll dataRefPattern html = texts dataStart 0 html.
Proof.
  apply (matchAll_texts dataRefPattern dataStart (rewriteDataRef html) dataOut html).
  - apply data_matchAt.
  - apply dataStart_length.
Qed.

Lemma texts_plain pre u :
  ~ occursIn tagHead pre -> startsWith tagHead u = true ->
  texts dataStart 0 (pre ++ u) = texts dataStart 0 u.
Proof.
  intros H Hu. induction pre as [|c pre IH]; [reflexivity|].
  cbn [app texts]. rewrite (dataStart_inside c pre u H Hu).
  apply IH. apply (occursIn_tail _ c). assumption.
Qed.

Lemma texts_at starts t n :
  starts t = Some n -> S n <= length t ->
  texts starts 0 t = firstn (S n) t :: texts starts 0 (skipn (S n) t).
Proof.
  destruct t as [|c t]; [simpl; lia|]. cbn [texts length]. intros -> Hn.
  cbn [skipn]. rewrite (texts_skip starts t n) by lia. reflexivity.
Qed.

Lemma texts_tag pre ref d post :
  ~ occursIn tagHead pre -> ref <> [] -> ~ In 34%N ref -> d <> [] -> ~ In 60%N d ->
  texts dataStart 0 (pre ++ dataTagOf ref d ++ post)
  = dataTagOf ref d :: texts dataStart 0 post.
Proof.
  intros Hpre Hr Hq Hd Hl.
  rewrite texts_plain by (try assumption; apply dataTagOf_head).
  pose proof (dataRuns_tag ref d post Hr Hq Hd Hl) as Hruns.
  destruct tag_lengths as (HA & HB & HC).
  assert (Hlen : length (dataTagOf ref d)
                 = length tagHead + length ref + length tagMid + length d + length tagEnd).
  { unfold dataTagOf. rewrite !length_app. lia. }
  rewrite (texts_at dataStart (dataTagOf ref d ++ post) (length (dataTagOf ref d) - 1)).
  - replace (S (length (dataTagOf ref d) - 1)) with (length (dataTagOf ref d)) by lia.
    rewrite skipn_exact, firstn_exact. reflexivity.
  - unfold dataStart. rewrite Hruns. f_equal. lia.
  - rewrite length_app. lia.
Qed.

Lemma dataRefAnchored_parts :
  dataRefAnchored =
    RSeq RBol
      (RSeq (RLit tagHead)
         (RSeq (RGroup 1 (RPlus (RSet (CNoneOf dq))))
            (RSeq (RLit tagMid)
               (RSeq (RGroup 2 (RPlus (RSet (CNoneOf (js "<")))))
                  (RSeq (RLit tagEnd) (RSeq REol REps)))))).
Proof. reflexivity. Qed.

(** The anchored pattern finds in a tag its reference and its display
    text. *)
Lemma anchored_tag ref d :
  ref <> [] -> ~ In 34%N ref -> d <> [] -> ~ In 60%N d ->
  exists mt,
    match_ dataRefAnchored (dataTagOf ref d) = Some mt
    /\ FootnotesParser.grp (dataTagOf ref d) mt 1 = ref
    /\ FootnotesParser.grp (dataTagOf ref d) mt 2 = d.
Proof.
  intros Hr Hq Hd Hl.
  pose proof (dataRuns_tag ref d [] Hr Hq Hd Hl) as Hruns. rewrite app_nil_r in Hruns.
  destruct tag_lengths as (HA & HB & HC).
  assert (Hlen : length (dataTagOf ref d)
                 = length tagHead + length ref + length tagMid + length d + length tagEnd).
  { unfold dataTagOf. rewrite !length_app. lia. }
  eexists. split.
  - unfold match_, exec. rewrite Nat.sub_0_r. apply scan_first.
    unfold matchAt. rewrite dataRefAnchored_parts, m_seq, m_bol, data_parts_m.
    cbn [skipn]. rewrite Hruns. rewrite m_seq. cbn [m]. cbn [plus].
    rewrite <- Hlen, Nat.eqb_refl. reflexivity.
  - unfold FootnotesParser.grp, group. cbn [m_caps cap Nat.eqb plus]. unfold substring.
    replace (length tagHead + length ref - length tagHead) with (length ref) by lia.
    replace (length tagHead + length ref + length tagMid + length d
             - (length tagHead + length ref + length tagMid)) with (length d) by lia.
    unfold dataTagOf.
    rewrite skipn_exact, firstn_exact.
    rewrite <- Nat.add_assoc, skipn_plus, skipn_plus, skipn_exact, firstn_exact.
    auto.
Qed.

(** What [parseDataRef] makes of a reference of the form code, white space,
    chapter, colon, verse, with or without the end of a range. *)
Lemma parseDataRef_reference code sp c v range d :
  wordText code -> spaceText sp -> digitsText c -> digitsText v ->
  range = [] \/ (exists e, digitsText e /\ range = 45%N :: e) ->
  parseDataRef (js "Bible:" ++ code ++ sp ++ c ++ 58%N :: v ++ range) d
  = Some (taggedReference code c v range d).
Proof.
  intros Hcode Hsp Hc Hv Hrange.
  set (ref := code ++ sp ++ c ++ 58%N :: v ++ range).
  set (s := js "Bible:" ++ ref).
  assert (S0 : skipn (0 + length (js "Bible:")) s = ref) by reflexivity.
  destruct (citation_groups s _ code sp c v range Hcode Hsp Hc Hv Hrange S0)
    as (cs & Hm & Hg).
  assert (Hmt : matchAt refGrammar s 0
                = Some {| m_index := 0; m_end := length s; m_caps := cs |}).
  { unfold matchAt. rewrite refGrammar_parts, m_seq, m_bol, m_seq, lit_m.
    cbn [skipn]. unfold s at 1. rewrite startsWith_prefix, Hm. reflexivity. }
  unfold parseDataRef, match_, exec. rewrite Nat.sub_0_r, (scan_first _ _ _ _ Hmt).
  destruct (Hg {| m_index := 0; m_end := length s; m_caps := cs |} eq_refl)
    as (G1 & G2 & G3 & G4).
  unfold FootnotesParser.grp. rewrite G1, G2, G3, G4. unfold taggedReference.
  do 2 f_equal. destruct Hrange as [->|(e & [He _] & ->)]; [reflexivity|].
  cbn [optParse]. destruct (jstring_eqb e []) eqn:E; [|reflexivity].
  apply JSFacts.jstring_eqb_eq in E. congruence.
Qed.

Lemma dataRefReferences_app l : forall acc,
  fold_left
    (fun references match0 =>
       match match_ dataRefAnchored match0 with
       | Some mt =>
           pushOpt references
             (parseDataRef (js "Bible:" ++ FootnotesParser.grp match0 mt 1)
                (FootnotesParser.grp match0 mt 2))
       | None => references
       end) l acc
  = acc ++ fold_left
      (fun references match0 =>
         match match_ dataRefAnchored match0 with
         | Some mt =>
             pushOpt references
               (parseDataRef (js "Bible:" ++ FootnotesParser.grp match0 mt 1)
                  (FootnotesParser.grp match0 mt 2))
         | None => references
         end) l [].
Proof.
  induction l as [|x l IH]; intros acc; cbn [fold_left]; [symmetry; apply app_nil_r|].
  rewrite IH. rewrite (IH (match match_ dataRefAnchored x with
                           | Some mt => pushOpt [] _
                           | None => []
                           end)).
  rewrite app_assoc. f_equal.
  destruct (match_ dataRefAnchored x) as [mt|]; [|symmetry; apply app_nil_r].
  rewrite !ParserFacts.pushOpt_app. reflexivity.
Qed.

(** The references of the explicit tags are read tag by tag. *)
Lemma dataRefReferences_tag pre ref d post :
  ~ occursIn tagHead pre -> ref <> [] -> ~ In 34%N ref -> d <> [] -> ~ In 60%N d ->
  dataRefReferences (pre ++ dataTagOf ref d ++ post)
  = pushOpt [] (parseDataRef (js "Bible:" ++ ref) d) ++ dataRefReferences post.
Proof.
  intros Hpre Hne Hq Hd Hl.
  unfold dataRefReferences. rewrite !matchAll_data.
  rewrite (texts_tag pre ref d post Hpre Hne Hq Hd Hl). cbn [fold_left].
  rewrite dataRefReferences_app.
  destruct (anchored_tag ref d Hne Hq Hd Hl) as (mt & -> & -> & ->).
  reflexivity.
Qed.

(** X17: among the explicit tags of a note, a tag whose reference has the
    form code, white space, chapter, colon, verse, with or without the end
    of a range, gives one reference, with the book that the code expands
    to, the chapter, the verse and the end of the range read as numbers,
    and the display text of the tag; the references of the rest of the
    markup follow. *)
Theorem explicit_tag_gives_its_reference :
  forall pre code sp c v range display_ post : jstring,
    ~ occursIn tagHead pre ->
    wordText code -> spaceText sp -> digitsText c -> digitsText v ->
    range = [] \/ (exists e, digitsText e /\ range = 45%N :: e) ->
    display_ <> [] -> ~ In 60%N display_ ->
    dataRefReferences
      (pre ++ dataTagOf (code ++ sp ++ c ++ 58%N :: v ++ range) display_ ++ post)
    = taggedReference code c v range display_ :: dataRefReferences post.
Proof.
  intros pre code sp c v range d post Hpre Hcode Hsp Hc Hv Hrange Hd Hl.
  destruct (reference_unquoted code sp c v range Hcode Hsp Hc Hv Hrange) as [Hne Hq].
  rewrite dataRefReferences_tag by assumption.
  rewrite (parseDataRef_reference code sp c v range d Hcode Hsp Hc Hv Hrange).
  reflexivity.
Qed.

Lemma explicit_tag_gives_its_reference_witness :
  ~ occursIn tagHead (js "<sup>1</sup> See ")
  /\ wordText (js "Xy") /\ spaceText (js " ") /\ digitsText (js "3")
  /\ digitsText (js "16")
  /\ (js "-18" = [] \/ (exists e, digitsText e /\ js "-18" = 45%N :: e))
  /\ js "3:16-18" <> [] /\ ~ In 60%N (js "3:16-18")
  /\ dataRefReferences
       (js "<sup>1</sup> See " ++ dataTagOf (js "Xy" ++ js " " ++ js "3" ++ 58%N :: js "16" ++ js "-18")
                       (js "3:16-18") ++ js ".")
     = taggedReference (js "Xy") (js "3") (js "16") (js "-18") (js "3:16-18")
       :: dataRefReferences (js ".").
Proof.
  assert (H1 : ~ occursIn tagHead (js "<sup>1</sup> See ")).
  { intros (i & Hi & Ho). simpl in Hi. destruct i; [|lia].
    vm_compute in Ho. discriminate. }
  assert (H2 : wordText (js "Xy")) by (split; [discriminate | reflexivity]).
  assert (H3 : spaceText (js " ")) by (split; [discriminate | reflexivity]).
  assert (H4 : digitsText (js "3")) by (split; [discriminate | reflexivity]).
  assert (H5 : digitsText (js "16")) by (split; [discriminate | reflexivity]).
  assert (H6 : js "-18" = [] \/ (exists e, digitsText e /\ js "-18" = 45%N :: e)).
  { right. exists (js "18"). split; [split; [discriminate | reflexivity] | reflexivity]. }
  assert (H7 : js "3:16-18" <> []) by discriminate.
  assert (H8 : ~ In 60%N (js "3:16-18")) by (simpl; intuition discriminate).
  repeat (split; [assumption|]).
  exact (explicit_tag_gives_its_reference (js "<sup>1</sup> See ") (js "Xy") (js " ") (js "3")
           (js "16") (js "-18") (js "3:16-18") (js ".") H1 H2 H3 H4 H5 H6 H7 H8).
Defined.

(** X18: a tag whose reference has no colon, and so does not fit the
    grammar, gives no reference; the tags after it give theirs as if it
    were not there. *)
Theorem malformed_tag_is_dropped_alone :
  forall pre ref display_ post : jstring,
    ~ occursIn tagHead pre ->
    ref <> [] -> ~ In 34%N ref -> ~ In 58%N ref ->
    display_ <> [] -> ~ In 60%N display_ ->
    dataRefReferences (pre ++ dataTagOf ref display_ ++ post)
    = dataRefReferences post.
Proof.
  intros pre ref d post Hpre Hr Hq Hcolon Hd Hl.
  rewrite dataRefReferences_tag by assumption.
  rewrite (parseDataRef_no_colon ref d Hcolon). reflexivity.
Qed.

Lemma malformed_tag_is_dropped_alone_witness :
  ~ occursIn tagHead (js "<sup>1</sup> See ")
  /\ js "John" <> [] /\ ~ In 34%N (js "John") /\ ~ In 58%N (js "John")
  /\ js "there" <> [] /\ ~ In 60%N (js "there")
  /\ dataRefReferences (js "<sup>1</sup> See " ++ dataTagOf (js "John") (js "there") ++ js ".")
     = dataRefReferences (js ".").
Proof.
  assert (H1 : ~ occursIn tagHead (js "<sup>1</sup> See ")).
  { intros (i & Hi & Ho). simpl in Hi. destruct i; [|lia].
    vm_compute in Ho. discriminate. }
  assert (H2 : js "John" <> []) by discriminate.
  assert (H3 : ~ In 34%N (js "John")) by (simpl; intuition discriminate).
  assert (H4 : ~ In 58%N (js "John")) by (simpl; intuition discriminate).
  assert (H5 : js "there" <> []) by discriminate.
  assert (H6 : ~ In 60%N (js "there")) by (simpl; intuition discriminate).
  repeat (split; [assumption|]).
  exact (malformed_tag_is_dropped_alone (js "<sup>1</sup> See ") (js "John") (js "there") (js ".")
           H1 H2 H3 H4 H5 H6).
Defined.

End DataTagFacts.

(** * One occurrence of a display text *)

Module OccurrenceFacts.
Import MarkdownGenerator RunFacts DataTagFacts.

Lemma display_matchAt d s i :
  matchAt (displayPattern d) s i =
    if (boundary s i && startsWith d (skipn i s) && boundary s (i + length d))%bool
    then Some {| m_index := i; m_end := i + length d; m_caps := [] |}
    else None.
Proof.
  unfold matchAt, displayPattern, RCat, boundary. cbn [fold_right m].
  destruct (xorb (wordBefore s i) (wordAt s i)); [|reflexivity].
  cbn [andb]. rewrite lit_m.
  destruct (startsWith d (skipn i s)); [|reflexivity]. cbn [andb].
  destruct (xorb (wordBefore s (i + length d)) (wordAt s (i + length d))); reflexivity.
Qed.

Lemma scan_to r s mt p : forall k i,
  i <= p -> p < i + k ->
  (forall j, i <= j < p -> matchAt r s j = None) ->
  matchAt r s p = Some mt ->
  scan r s k i = Some mt.
Proof.
  induction k as [|k IH]; intros i Hi Hp Hnone Hm; [lia|]. cbn [scan].
  destruct (Nat.eq_dec i p) as [->|Hne].
  - rewrite Hm. reflexivity.
  - rewrite Hnone by lia. apply IH; [lia | lia | | assumption].
    intros j Hj. apply Hnone. lia.
Qed.

Lemma scan_none_from r s : forall k i,
  (forall j, i <= j -> matchAt r s j = None) -> scan r s k i = None.
Proof.
  induction k as [|k IH]; intros i H; [reflexivity|]. cbn [scan].
  rewrite H by lia. apply IH. intros j Hj. apply H. lia.
Qed.

Lemma startsWith_further (d pre link post : jstring) j :
  length pre + length link <= j ->
  skipn j (pre ++ link ++ post)
  = skipn (j - length link + length d) (pre ++ d ++ post).
Proof.
  intros Hj.
  replace j with (length pre + (length link + (j - length pre - length link))) at 1 by lia.
  rewrite !skipn_plus.
  replace (j - length link + length d)
    with (length pre + (length d + (j - length pre - length link))) by lia.
  rewrite !skipn_plus. reflexivity.
Qed.

(** X20: a display text that stands in the text once, between two word
    boundaries, gives way to the link of its reference; the text around it
    stays, and the range of the link is claimed. *)
Theorem single_occurrence_is_linked :
  forall (pre post : jstring) (f : ParsedFootnote) (ref : VerseReference),
    verseReferences f = [ref] ->
    display ref <> [] ->
    onlyAt (display ref) (pre ++ display ref ++ post) (length pre) ->
    boundary (pre ++ display ref ++ post) (length pre) = true ->
    boundary (pre ++ display ref ++ post) (length pre + length (display ref)) = true ->
    linkReferences (pre ++ display ref ++ post) (Some f)
    = Some (pre ++ wikiLink ref ++ post,
            [{| r_start := length pre;
                r_end := length pre + length (wikiLink ref) |}]).
Proof.
  intros pre post f ref Hrefs Hd Honly Hb1 Hb2.
  set (d := display ref) in *. set (text := pre ++ d ++ post) in *.
  set (p := length pre) in *.
  assert (Hmt : matchAt (displayPattern d) text p
                = Some {| m_index := p; m_end := p + length d; m_caps := [] |}).
  { rewrite display_matchAt, Hb1, Hb2, (proj2 (Honly p) eq_refl). reflexivity. }
  assert (Hex : exec (displayPattern d) text 0
                = Some {| m_index := p; m_end := p + length d; m_caps := [] |}).
  { unfold exec. apply (scan_to _ _ _ p); [lia | | | assumption].
    - unfold text, p. rewrite !length_app.
      assert (0 < length d) by (destruct d; simpl; [congruence | lia]). lia.
    - intros j Hj. rewrite display_matchAt.
      destruct (startsWith d (skipn j text)) eqn:E.
      + apply Honly in E. lia.
      + rewrite andb_false_r. reflexivity. }
  rewrite LinkingFacts.linkReferences_linkRefs, Hrefs. cbn [sortRefs fold_right insertRef].
  cbn [linkRefs]. cbn [linkLoop]. unfold linkIter at 1.
  cbn [processed lastIndex linkedRanges]. fold d. rewrite Hex.
  cbn [isAlreadyLinked existsb m_index m_end app adjustRanges map r_start r_end].
  replace (Nat.leb (p + length d) p) with false
    by (symmetry; apply Nat.leb_gt; destruct d; simpl; [congruence | lia]).
  assert (Htext : substring text 0 p ++ wikiLink ref ++ substringFrom text (p + length d)
                  = pre ++ wikiLink ref ++ post).
  { unfold substring, substringFrom, text, p. rewrite Nat.sub_0_r. cbn [skipn].
    rewrite firstn_exact, skipn_plus, skipn_exact. reflexivity. }
  rewrite Htext.
  assert (Hfuel : length text = S (length text - 1)).
  { unfold text. rewrite !length_app. destruct d; simpl; [congruence | lia]. }
  rewrite Hfuel. cbn [linkLoop]. unfold linkIter.
  cbn [processed lastIndex linkedRanges]. fold d.
  replace (exec (displayPattern d) (pre ++ wikiLink ref ++ post)
             (p + length (wikiLink ref))) with (@None rmatch); [reflexivity|].
  symmetry. unfold exec. apply scan_none_from. intros j Hj.
  rewrite display_matchAt.
  rewrite (startsWith_further d pre (wikiLink ref) post j) by (unfold p in Hj; lia).
  fold text.
  destruct (startsWith d (skipn (j - length (wikiLink ref) + length d) text)) eqn:E.
  - apply Honly in E.
    assert (0 < length d) by (destruct d; simpl; [congruence | lia]). lia.
  - rewrite andb_false_r. reflexivity.
Qed.

Lemma single_occurrence_is_linked_witness :
  verseReferences (footnote "note_1" (js "See John 3:16.") [long]) = [long]
  /\ display long <> []
  /\ onlyAt (display long) (js "See " ++ display long ++ js ".") (length (js "See "))
  /\ boundary (js "See " ++ display long ++ js ".") (length (js "See ")) = true
  /\ boundary (js "See " ++ display long ++ js ".")
       (length (js "See ") + length (display long)) = true
  /\ linkReferences (js "See " ++ display long ++ js ".")
       (Some (footnote "note_1" (js "See John 3:16.") [long]))
     = Some (js "See " ++ wikiLink long ++ js ".",
             [{| r_start := length (js "See ");
                 r_end := length (js "See ") + length (wikiLink long) |}]).
Proof.
  assert (H1 : verseReferences (footnote "note_1" (js "See John 3:16.") [long]) = [long])
    by reflexivity.
  assert (H2 : display long <> []) by discriminate.
  assert (H3 : onlyAt (display long) (js "See " ++ display long ++ js ".")
                 (length (js "See "))).
  { intros i. split.
    - intros H.
      do 15 (destruct i as [|i];
             [first [reflexivity | vm_compute in H; discriminate]|]).
      exfalso. destruct i; vm_compute in H; discriminate.
    - intros ->. vm_compute. reflexivity. }
  assert (H4 : boundary (js "See " ++ display long ++ js ".") (length (js "See ")) = true)
    by (vm_compute; reflexivity).
  assert (H5 : boundary (js "See " ++ display long ++ js ".")
                 (length (js "See ") + length (display long)) = true)
    by (vm_compute; reflexivity).
  repeat (split; [assumption|]).
  exact (single_occurrence_is_linked (js "See ") (js ".")
           (footnote "note_1" (js "See John 3:16.") [long]) long H1 H2 H3 H4 H5).
Defined.

End OccurrenceFacts.

(** * chapter:verse without a book *)

Module ShorthandFacts.
Import MarkdownGenerator RunFacts DataTagFacts OccurrenceFacts.

Lemma m_notBehind cls s i c k :
  m (RNotBehind cls) s i c k = if behind s i cls then None else k i c.
Proof. reflexivity. Qed.

Lemma m_wordB s i c k : m RWordB s i c k = if boundary s i then k i c else None.
Proof. reflexivity. Qed.

Lemma m_notAhead a s i c k :
  m (RNotAhead a) s i c k =
    match m a s i c (fun j c' => Some (j, c')) with
    | Some _ => None
    | None => k i c
    end.
Proof. reflexivity. Qed.

Lemma m_opt a s i c k :
  m (ROpt a) s i c k =
    orElse (m a s i c (fun j c' => if Nat.ltb i j then k j c' else None)) (k i c).
Proof. reflexivity. Qed.

Lemma m_eps s i c k : m REps s i c k = k i c.
Proof. reflexivity. Qed.

Local Abbreviation ahead :=
  (RSeq (RStar (RSet (CNoneOf (js "[")))) (RSeq (RLit (js "]]")) REps)).

Local Abbreviation range3 :=
  (RSeq (RSet (CChar 45)) (RGroup 3 (RPlus (RSet CDigit)))).

Local Abbreviation afterVerse :=
  (RSeq (ROpt range3) (RSeq RWordB (RSeq (RNotAhead ahead) REps))).

Local Abbreviation done := (fun (j : nat) (c : caps) => Some (j, c)).

Lemma shorthandPattern_parts :
  shorthandPattern =
    RSeq (RNotBehind [CChar 91; CChar 91])
      (RSeq (RNotBehind [COneOf (js "#:")])
         (RSeq RWordB
            (RSeq (RGroup 1 (RPlus (RSet CDigit)))
               (RSeq (RSet (CChar 58))
                  (RSeq (RGroup 2 (RPlus (RSet CDigit))) afterVerse))))).
Proof. reflexivity. Qed.

(** A token begins with a digit. *)
Lemma shorthand_miss s j :
  hit CDigit s j = false -> matchAt shorthandPattern s j = None.
Proof.
  intros H. unfold matchAt. rewrite shorthandPattern_parts.
  rewrite m_seq, m_notBehind. destruct (behind s j _); [reflexivity|].
  rewrite m_seq, m_notBehind. destruct (behind s j _); [reflexivity|].
  rewrite m_seq, m_wordB. destruct (boundary s j); [|reflexivity].
  rewrite (first_miss _ CDigit); [reflexivity | reflexivity | assumption].
Qed.

Lemma firstn_In {A} (x : A) n l : In x (firstn n l) -> In x l.
Proof.
  intros H. rewrite <- (firstn_skipn n l). apply in_or_app. left. assumption.
Qed.

Lemma skipn_In {A} (x : A) n l : In x (skipn n l) -> In x l.
Proof.
  intros H. rewrite <- (firstn_skipn n l). apply in_or_app. right. assumption.
Qed.

(** No pair of closing brackets lies ahead in a text that has no closing
    bracket. *)
Lemma ahead_none s e c :
  e <= length s -> ~ In 93%N (skipn e s) -> m ahead s e c done = None.
Proof.
  intros He Hno. destruct (m ahead s e c done) as [res|] eqn:E; [|reflexivity].
  exfalso. apply Hno.
  apply (ShapeFacts.m_consumes s (fun _ _ => True) ahead
           (ReferenceFacts.groups_fit_trivial ahead)) in E; [|assumption].
  destruct E as (j & c' & _ & _ & Hsh & _).
  apply (ReferenceFacts.needs_shape 93) in Hsh; [|reflexivity].
  unfold substring in Hsh. eapply firstn_In. eassumption.
Qed.

Lemma bare_In t ch :
  bare t -> In ch t -> isDigit ch = false /\ ch <> 91%N /\ ch <> 93%N.
Proof.
  intros Hb Hin. apply (forallb_In _ _ _ Hb) in Hin.
  apply negb_true_iff in Hin. apply orb_false_iff in Hin. destruct Hin as [Hin H93].
  apply orb_false_iff in Hin. destruct Hin as [Hd H91].
  apply N.eqb_neq in H91. apply N.eqb_neq in H93. auto.
Qed.

Lemma behind_first cl cls (s : jstring) i :
  (forall ch, In ch (firstn i s) -> cmatch cl ch = false) ->
  behind s i (cl :: cls) = false.
Proof.
  intros H. unfold behind.
  destruct (substring s (i - length (cl :: cls)) i) as [|x sub] eqn:E.
  - cbn [length Nat.eqb]. apply andb_false_r.
  - cbn [combine forallb fst snd]. rewrite H; [rewrite andb_false_r; reflexivity|].
    assert (Hin : In x (substring s (i - length (cl :: cls)) i)) by (rewrite E; left; reflexivity).
    unfold substring in Hin. apply firstn_In in Hin.
    rewrite <- (firstn_skipn (i - length (cl :: cls)) (firstn i s)).
    apply in_or_app. right. rewrite skipn_firstn_comm.
    destruct (Nat.le_gt_cases (length (cl :: cls)) i) as [Hle|Hgt].
    + replace (i - (i - length (cl :: cls))) with (length (cl :: cls)) by lia.
      unfold substring in E.
      replace (i - (i - length (cl :: cls))) with (length (cl :: cls)) in E by lia.
      rewrite E. left. reflexivity.
    + replace (i - length (cl :: cls)) with 0 in * by lia.
      rewrite Nat.sub_0_r. unfold substring in E. rewrite Nat.sub_0_r in E.
      cbn [skipn] in *. rewrite E. left. reflexivity.
Qed.

Lemma wordAt_nth (s : jstring) j ch : nth_error s j = Some ch -> wordAt s j = isWord ch.
Proof. unfold wordAt. intros ->. reflexivity. Qed.

Lemma digit_word ch : isDigit ch = true -> isWord ch = true.
Proof. unfold isWord. intros ->. rewrite orb_true_r. reflexivity. Qed.

Lemma rev_last (pre : jstring) ch l : rev pre = ch :: l -> pre = rev l ++ [ch].
Proof.
  intros H. rewrite <- (rev_involutive pre), H. reflexivity.
Qed.

Lemma nth_error_exact (a : jstring) x b : nth_error (a ++ x :: b) (length a) = Some x.
Proof. rewrite nth_error_app2 by lia. rewrite Nat.sub_diag. reflexivity. Qed.

(** Before a token that follows [pre]: no bracket, no [#], no colon, no
    code unit of [\w]. *)
Lemma before_token pre rest :
  bare pre -> endsApart pre = true ->
  behind (pre ++ rest) (length pre) [CChar 91; CChar 91] = false
  /\ behind (pre ++ rest) (length pre) [COneOf (js "#:")] = false
  /\ wordBefore (pre ++ rest) (length pre) = false.
Proof.
  intros Hb He. split.
  - apply behind_first. intros ch Hin. rewrite firstn_exact in Hin.
    destruct (bare_In pre ch Hb Hin) as (_ & H91 & _). simpl.
    apply N.eqb_neq. assumption.
  - unfold endsApart in He. destruct (rev pre) as [|ch l] eqn:E.
    + apply (f_equal (@rev N)) in E. rewrite rev_involutive in E. subst pre.
      split; reflexivity.
    + apply rev_last in E. subst pre. rewrite <- app_assoc. cbn [app].
      rewrite length_app. cbn [length]. rewrite Nat.add_1_r.
      apply negb_true_iff in He. apply orb_false_iff in He. destruct He as [He H58].
      apply orb_false_iff in He. destruct He as [Hw H35].
      pose proof (nth_error_exact (rev l) ch rest) as Hn. split.
      * unfold behind. cbn [length]. replace (S (length (rev l)) - 1) with (length (rev l)) by lia.
        rewrite (ShapeFacts.substring_single _ _ _ Hn).
        cbn [combine forallb fst snd cmatch existsb js map list_ascii_of_string].
        simpl. rewrite H35, H58. reflexivity.
      * cbn [wordBefore]. rewrite (wordAt_nth _ _ _ Hn). assumption.
Qed.

Lemma bare_head post :
  bare post -> run CDigit post = 0.
Proof.
  destruct post as [|x post]; [reflexivity|]. intros Hb.
  destruct (bare_In (x :: post) x Hb (or_introl eq_refl)) as (Hd & _). simpl.
  rewrite Hd. reflexivity.
Qed.

(** Inside the digits of the verse the rest of the pattern fails: there is
    no word boundary between two digits. *)
Lemma afterVerse_inside s j c ch0 ch :
  nth_error s j = Some ch0 -> isDigit ch0 = true ->
  nth_error s (S j) = Some ch -> isDigit ch = true ->
  m afterVerse s (S j) c done = None.
Proof.
  intros E0 H0 E H. rewrite m_seq, m_opt.
  rewrite (first_miss _ (CChar 45)); [| reflexivity |].
  2: { unfold hit. rewrite E. simpl. apply digit_not; [assumption | lia]. }
  cbn [orElse]. rewrite m_seq, m_wordB. unfold boundary. cbn [wordBefore].
  rewrite (wordAt_nth _ _ _ E0), (wordAt_nth _ _ _ E), !digit_word by assumption.
  reflexivity.
Qed.

(** After the verse the rest of the pattern succeeds, when what follows is
    set apart and has neither digit nor bracket. *)
Lemma afterVerse_end s e c ch0 post :
  nth_error s e = Some ch0 -> isDigit ch0 = true ->
  skipn (S e) s = post -> bare post -> startsApart post = true ->
  m afterVerse s (S e) c done = Some (S e, c).
Proof.
  intros E0 H0 Hs Hb Ha.
  assert (Hlen : S e <= length s).
  { assert (e < length s) by (apply nth_error_Some; congruence). lia. }
  assert (Hnth : forall i, nth_error s (S e + i) = nth_error post i).
  { intros i. rewrite <- nth_error_skipn, Hs. reflexivity. }
  rewrite m_seq, m_opt.
  assert (Hrange : forall k, m range3 s (S e) c k = None).
  { intros k. rewrite m_seq, m_set. destruct (nth_error s (S e)) as [ch|]; [|reflexivity].
    destruct (cmatch (CChar 45) ch); [|reflexivity].
    apply (first_miss _ CDigit); [reflexivity|]. unfold hit.
    replace (S (S e)) with (S e + 1) by lia. rewrite Hnth.
    destruct (nth_error post 1) as [x|] eqn:Ex; [|reflexivity].
    apply nth_error_In in Ex. apply (bare_In post x Hb Ex). }
  rewrite Hrange. cbn [orElse]. rewrite m_seq, m_wordB. unfold boundary.
  cbn [wordBefore]. rewrite (wordAt_nth _ _ _ E0), (digit_word _ H0).
  assert (Hw : wordAt s (S e) = false).
  { unfold wordAt. replace (S e) with (S e + 0) by lia. rewrite Hnth.
    destruct post as [|x post']; [reflexivity|]. simpl in Ha |- *.
    apply negb_true_iff in Ha. assumption. }
  rewrite Hw. cbn [xorb]. rewrite m_seq, m_notAhead, ahead_none; [reflexivity | assumption |].
  rewrite Hs. intros Hin. apply (bare_In post _ Hb) in Hin. destruct Hin as (_ & _ & Hin).
  congruence.
Qed.

Lemma last_digit (v : jstring) :
  v <> [] -> forallb isDigit v = true ->
  exists v' ch, v = v' ++ [ch] /\ isDigit ch = true.
Proof.
  intros Hv Hd. destruct (rev v) as [|ch l] eqn:E.
  - apply (f_equal (@rev N)) in E. rewrite rev_involutive in E. contradiction.
  - apply rev_last in E. exists (rev l), ch. split; [assumption|].
    apply (forallb_In _ _ _ Hd). rewrite E. apply in_or_app. right. left. reflexivity.
Qed.

(** The token that follows [pre] is matched whole. *)
Lemma shorthand_hit pre c v post :
  bare pre -> endsApart pre = true -> bare post -> startsApart post = true ->
  digitsText c -> digitsText v ->
  matchAt shorthandPattern (pre ++ c ++ 58%N :: v ++ post) (length pre)
  = Some {| m_index := length pre;
            m_end := S (length pre + length c) + length v;
            m_caps := [(2, (S (length pre + length c),
                            S (length pre + length c) + length v));
                       (1, (length pre, length pre + length c))] |}.
Proof.
  intros Hpre Hends Hpost Hstarts [Hc Wc] [Hv Wv].
  set (s := pre ++ c ++ 58%N :: v ++ post). set (p := length pre).
  destruct (before_token pre (c ++ 58%N :: v ++ post) Hpre Hends) as (B1 & B2 & B3).
  fold s p in B1, B2, B3.
  assert (S0 : skipn p s = c ++ 58%N :: v ++ post) by apply skipn_exact.
  pose proof (skipn_over s p c _ S0) as S1.
  assert (E1 : nth_error s (p + length c) = Some 58%N).
  { rewrite <- (Nat.add_0_r (p + length c)), <- nth_error_skipn, S1. reflexivity. }
  assert (S2 : skipn (S (p + length c)) s = v ++ post).
  { rewrite (skipn_nth s _ _ E1) in S1. congruence. }
  pose proof (skipn_over s _ v _ S2) as S3.
  assert (Hat : wordAt s p = true).
  { destruct c as [|c0 c']; [congruence|]. unfold wordAt.
    rewrite <- (Nat.add_0_r p), <- nth_error_skipn, S0. simpl.
    simpl in Wc. apply andb_true_iff in Wc. apply digit_word. tauto. }
  unfold matchAt. rewrite shorthandPattern_parts.
  rewrite m_seq, m_notBehind, B1, m_seq, m_notBehind, B2, m_seq, m_wordB.
  unfold boundary. rewrite B3, Hat. cbn [xorb].
  rewrite m_seq, m_group.
  rewrite (plus_over CDigit s p c _ _ _ S0 Hc Wc eq_refl).
  2: { intros j c' Hj. cbv beta. rewrite m_seq.
       apply (first_miss _ (CChar 58)); [reflexivity|].
       apply (hit_inside (CChar 58) s p c _ j S0); [lia|].
       intros ch Hin. simpl. apply digit_not; [|lia]. apply (forallb_In _ _ _ Wc Hin). }
  cbv beta. rewrite m_seq, m_set, E1. cbn [cmatch N.eqb Pos.eqb].
  rewrite m_seq, m_group.
  rewrite (plus_over CDigit s (S (p + length c)) v _ _ _ S2 Hv Wv (bare_head post Hpost)).
  2: { intros j c' Hj. cbv beta.
       destruct (inside_over s _ v post j S2) as (ch & E & Hin); [lia|].
       destruct (inside_over s _ v post (j - 1) S2) as (ch0 & E0 & Hin0); [lia|].
       replace j with (S (j - 1)) in * by lia.
       replace (S (j - 1) - 1) with (j - 1) in E0 by lia.
       apply (afterVerse_inside s (j - 1) _ ch0 ch E0); [| assumption |].
       - apply (forallb_In _ _ _ Wv Hin0).
       - apply (forallb_In _ _ _ Wv Hin). }
  cbv beta.
  destruct (last_digit v Hv Wv) as (v' & ch0 & Hv' & Hd0).
  assert (Elast : nth_error s (S (p + length c) + length v') = Some ch0).
  { rewrite <- nth_error_skipn, S2, Hv', <- app_assoc. apply nth_error_exact. }
  assert (Hlen : S (p + length c) + length v = S (S (p + length c) + length v')).
  { rewrite Hv', length_app. simpl. lia. }
  rewrite Hlen in *.
  rewrite (afterVerse_end s _ _ ch0 post Elast Hd0 S3 Hpost Hstarts). reflexivity.
Qed.

(** [indexOf] and [lastIndexOf] of a text whose first code unit is absent. *)
Lemma indexOf_absent x (p t : jstring) : forall i,
  ~ In x t -> indexOf_from (x :: p) t i = None.
Proof.
  induction t as [|d t IH]; intros i Hn; [reflexivity|]. cbn [indexOf_from startsWith].
  replace (N.eqb x d) with false.
  - apply IH. intros H. apply Hn. right. assumption.
  - symmetry. apply N.eqb_neq. intros ->. apply Hn. left. reflexivity.
Qed.

Lemma lastIndexOf_absent x (p t : jstring) : forall i,
  ~ In x t -> lastIndexOf_from (x :: p) t i = None.
Proof.
  induction t as [|d t IH]; intros i Hn; [reflexivity|]. cbn [lastIndexOf_from startsWith].
  rewrite IH by (intros H; apply Hn; right; assumption).
  replace (N.eqb x d) with false; [reflexivity|].
  symmetry. apply N.eqb_neq. intros ->. apply Hn. left. reflexivity.
Qed.

(** [indexOf] passes over a text that lacks the first code unit sought. *)
Lemma indexOf_passes x (p pre rest : jstring) : forall i,
  ~ In x pre -> startsWith (x :: p) rest = true ->
  indexOf_from (x :: p) (pre ++ rest) i = Some (i + length pre).
Proof.
  induction pre as [|d pre IH]; intros i Hn Hs.
  - cbn [app length]. rewrite Nat.add_0_r. destruct rest; cbn [indexOf_from]; rewrite Hs; reflexivity.
  - cbn [app indexOf_from startsWith length].
    replace (N.eqb x d) with false.
    + cbn [andb]. rewrite IH; [f_equal; lia | | assumption].
      intros H. apply Hn. right. assumption.
    + symmetry. apply N.eqb_neq. intros ->. apply Hn. left. reflexivity.
Qed.

Lemma indexOf_token (pre m0 post : jstring) :
  m0 <> [] -> (forall x, hd_error m0 = Some x -> ~ In x pre) ->
  indexOf_from m0 (pre ++ m0 ++ post) 0 = Some (length pre).
Proof.
  intros Hm Hx. destruct m0 as [|x p]; [congruence|].
  apply (indexOf_passes x p pre _ 0).
  - apply Hx. reflexivity.
  - apply (startsWith_prefix (x :: p) post).
Qed.

Lemma head_digit (c rest : jstring) x :
  c <> [] -> forallb isDigit c = true -> hd_error (c ++ rest) = Some x ->
  isDigit x = true.
Proof.
  destruct c as [|c0 c']; [congruence|]. simpl. intros _ W H.
  apply andb_true_iff in W. destruct W as [W _]. congruence.
Qed.

Lemma bare_no (t : jstring) ch :
  bare t -> (isDigit ch = true \/ ch = 91%N \/ ch = 93%N) -> ~ In ch t.
Proof.
  intros Hb Hch Hin. destruct (bare_In t ch Hb Hin) as (Hd & H91 & H93).
  destruct Hch as [H | [H | H]]; congruence.
Qed.

Section Token.
Variables pre c v post : jstring.
Hypothesis pre_bare : bare pre.
Hypothesis pre_ends : endsApart pre = true.
Hypothesis post_bare : bare post.
Hypothesis post_starts : startsApart post = true.
Hypothesis chapter_digits : digitsText c.
Hypothesis verse_digits : digitsText v.

Local Abbreviation text := (pre ++ c ++ 58%N :: v ++ post).
Local Abbreviation token :=
  {| m_index := length pre;
     m_end := S (length pre + length c) + length v;
     m_caps := [(2, (S (length pre + length c), S (length pre + length c) + length v));
                (1, (length pre, length pre + length c))] |}.

Lemma text_length :
  length text = S (length pre + length c) + length v + length post.
Proof. rewrite !length_app. cbn [length]. rewrite length_app. lia. Qed.

Lemma text_end : skipn (S (length pre + length c) + length v) text = post.
Proof.
  replace (S (length pre + length c) + length v)
    with (length pre + (length c + S (length v + 0))) by lia.
  rewrite skipn_plus, skipn_plus. cbn [skipn]. rewrite skipn_plus. reflexivity.
Qed.

(** The token is the one match of the pattern in the text. *)
Lemma token_alone :
  allMatches shorthandPattern text (S (length text)) 0 = [token].
Proof.
  assert (Hex : exec shorthandPattern text 0 = Some token).
  { unfold exec. apply (OccurrenceFacts.scan_to _ _ _ (length pre)).
    - lia.
    - rewrite text_length. lia.
    - intros j Hj. apply shorthand_miss.
      apply (hit_inside CDigit text 0 pre (c ++ 58%N :: v ++ post) j eq_refl); [lia|].
      intros ch Hin. apply (bare_In pre ch pre_bare Hin).
    - apply shorthand_hit; assumption. }
  assert (Hno : exec shorthandPattern text (S (length pre + length c) + length v) = None).
  { unfold exec. apply OccurrenceFacts.scan_none_from. intros j Hj. apply shorthand_miss.
    unfold hit. replace j with (S (length pre + length c) + length v
                               + (j - (S (length pre + length c) + length v))) by lia.
    rewrite <- nth_error_skipn, text_end.
    destruct (nth_error post _) as [x|] eqn:Ex; [|reflexivity].
    apply nth_error_In in Ex. apply (bare_In post x post_bare Ex). }
  cbn [allMatches]. rewrite Hex. unfold nextIndex. cbn [m_end m_index].
  replace (Nat.eqb (S (length pre + length c) + length v) (length pre)) with false
    by (symmetry; apply Nat.eqb_neq; lia).
  rewrite text_length. cbn [Nat.add allMatches]. cbn [Nat.add] in Hno. rewrite Hno.
  reflexivity.
Qed.

(** The callback sees no link around the token and writes the link. *)
Lemma token_link b :
  rewriteShorthand b text token
  = js "[[" ++ b ++ js " " ++ c ++ js "#" ++ v ++ js "|" ++ c ++ js ":" ++ v ++ js "]]".
Proof.
  destruct chapter_digits as [Hc Wc].
  assert (Hm : matched text token = c ++ 58%N :: v).
  { unfold matched, substring. cbn [m_index m_end]. rewrite skipn_exact.
    replace (S (length pre + length c) + length v - length pre)
      with (length (c ++ 58%N :: v)) by (rewrite length_app; cbn [length]; lia).
    replace (c ++ 58%N :: v ++ post) with ((c ++ 58%N :: v) ++ post)
      by (rewrite <- app_assoc; reflexivity).
    apply firstn_exact. }
  assert (H1 : grp text token 1 = c).
  { unfold grp, FootnotesParser.grp, group, substring. cbn [m_caps cap Nat.eqb].
    rewrite skipn_exact.
    replace (length pre + length c - length pre) with (length c) by lia.
    apply firstn_exact. }
  assert (H2 : grp text token 2 = v).
  { unfold grp, FootnotesParser.grp, group, substring. cbn [m_caps cap Nat.eqb].
    replace (S (length pre + length c)) with (length pre + (length c + 1)) by lia.
    rewrite skipn_plus, skipn_plus. cbn [skipn].
    replace (length pre + (length c + 1) + length v - (length pre + (length c + 1)))
      with (length v) by lia.
    apply firstn_exact. }
  assert (Hat : indexOf text (c ++ 58%N :: v) = Some (length pre)).
  { unfold indexOf.
    replace (pre ++ c ++ 58%N :: v ++ post) with (pre ++ (c ++ 58%N :: v) ++ post)
      by (rewrite <- app_assoc; reflexivity).
    apply indexOf_token.
    - intros H. apply app_eq_nil in H. tauto.
    - intros x Hx. apply bare_no; [assumption|]. left.
      apply (head_digit c (58%N :: v) x Hc Wc Hx). }
  unfold rewriteShorthand. rewrite Hm, H1, H2, Hat.
  assert (Hbefore : substring text 0 (length pre) = pre).
  { unfold substring. rewrite Nat.sub_0_r. cbn [skipn]. apply firstn_exact. }
  assert (Hafter : substringFrom text (length pre + length (c ++ 58%N :: v)) = post).
  { unfold substringFrom.
    replace (length pre + length (c ++ 58%N :: v))
      with (S (length pre + length c) + length v)
      by (rewrite length_app; cbn [length]; lia).
    apply text_end. }
  rewrite Hbefore, Hafter. unfold lastIndexOf, indexOf.
  change (js "]]") with (93%N :: [93%N]). change (js "[[") with (91%N :: [91%N]).
  rewrite !lastIndexOf_absent, !indexOf_absent
    by (apply bare_no; [assumption | auto]).
  cbn [idx Z.ltb Z.compare Pos.compare Pos.compare_cont CompOpp orb group m_caps cap Nat.eqb].
  reflexivity.
Qed.

Lemma token_rewritten b :
  replaceAll shorthandPattern text (rewriteShorthand b text)
  = pre ++ shorthandLink b c v ++ post.
Proof.
  unfold replaceAll. rewrite token_alone. cbn [splice m_index m_end].
  unfold substringFrom, substring. rewrite token_link, text_end, Nat.sub_0_r. cbn [skipn].
  rewrite firstn_exact. reflexivity.
Qed.

End Token.

(** X21: with a book, the last pass turns a chapter:verse that stands apart
    into the link to that verse of the book and keeps the text around it,
    when that text has neither digit nor square bracket. *)
Theorem shorthand_token_is_linked :
  forall b pre c v post : jstring,
    b <> [] ->
    bare pre -> endsApart pre = true ->
    bare post -> startsApart post = true ->
    digitsText c -> digitsText v ->
    shorthandPass (Some b) (pre ++ c ++ js ":" ++ v ++ post)
    = pre ++ shorthandLink b c v ++ post.
Proof.
  intros b pre c v post Hb H1 H2 H3 H4 Hc Hv. unfold shorthandPass.
  destruct (jstring_eqb b []) eqn:E.
  - apply JSFacts.jstring_eqb_eq in E. contradiction.
  - apply (token_rewritten pre c v post H1 H2 H3 H4 Hc Hv b).
Qed.

Lemma shorthand_token_is_linked_witness :
  js "John" <> []
  /\ bare (js "See ") /\ endsApart (js "See ") = true
  /\ bare (js ".") /\ startsApart (js ".") = true
  /\ digitsText (js "1") /\ digitsText (js "4")
  /\ shorthandPass (Some (js "John")) (js "See " ++ js "1" ++ js ":" ++ js "4" ++ js ".")
     = js "See " ++ shorthandLink (js "John") (js "1") (js "4") ++ js ".".
Proof.
  assert (H0 : js "John" <> []) by discriminate.
  assert (H1 : bare (js "See ")) by reflexivity.
  assert (H2 : endsApart (js "See ") = true) by reflexivity.
  assert (H3 : bare (js ".")) by reflexivity.
  assert (H4 : startsApart (js ".") = true) by reflexivity.
  assert (H5 : digitsText (js "1")) by (split; [discriminate | reflexivity]).
  assert (H6 : digitsText (js "4")) by (split; [discriminate | reflexivity]).
  repeat (split; [assumption|]).
  exact (shorthand_token_is_linked (js "John") (js "See ") (js "1") (js "4") (js ".")
           H0 H1 H2 H3 H4 H5 H6).
Defined.

(** ** A range *)

Local Abbreviation wordEnd := (RSeq RWordB (RSeq (RNotAhead ahead) REps)).

Lemma wordEnd_inside s j c ch0 ch :
  nth_error s j = Some ch0 -> isDigit ch0 = true ->
  nth_error s (S j) = Some ch -> isDigit ch = true ->
  m wordEnd s (S j) c done = None.
Proof.
  intros E0 H0 E H. rewrite m_seq, m_wordB. unfold boundary. cbn [wordBefore].
  rewrite (wordAt_nth _ _ _ E0), (wordAt_nth _ _ _ E), !digit_word by assumption.
  reflexivity.
Qed.

Lemma wordEnd_end s e c ch0 post :
  nth_error s e = Some ch0 -> isDigit ch0 = true ->
  skipn (S e) s = post -> bare post -> startsApart post = true ->
  m wordEnd s (S e) c done = Some (S e, c).
Proof.
  intros E0 H0 Hs Hb Ha.
  assert (Hlen : S e <= length s).
  { assert (e < length s) by (apply nth_error_Some; congruence). lia. }
  rewrite m_seq, m_wordB. unfold boundary.
  cbn [wordBefore]. rewrite (wordAt_nth _ _ _ E0), (digit_word _ H0).
  assert (Hw : wordAt s (S e) = false).
  { unfold wordAt. rewrite <- (Nat.add_0_r (S e)), <- nth_error_skipn, Hs.
    destruct post as [|x post']; [reflexivity|]. simpl in Ha |- *.
    apply negb_true_iff in Ha. assumption. }
  rewrite Hw. cbn [xorb]. rewrite m_seq, m_notAhead, ahead_none; [reflexivity | assumption |].
  rewrite Hs. intros Hin. apply (bare_In post _ Hb) in Hin. destruct Hin as (_ & _ & Hin).
  congruence.
Qed.

Section Range.
Variables pre c v w post : jstring.
Hypothesis pre_bare : bare pre.
Hypothesis pre_ends : endsApart pre = true.
Hypothesis post_bare : bare post.
Hypothesis post_starts : startsApart post = true.
Hypothesis chapter_digits : digitsText c.
Hypothesis verse_digits : digitsText v.
Hypothesis end_digits : digitsText w.

Local Abbreviation text := (pre ++ c ++ 58%N :: v ++ 45%N :: w ++ post).
Local Abbreviation p2 := (S (length pre + length c)).
Local Abbreviation p3 := (S (S (length pre + length c) + length v)).
Local Abbreviation token :=
  {| m_index := length pre;
     m_end := p3 + length w;
     m_caps := [(3, (p3, p3 + length w)); (2, (p2, p2 + length v));
                (1, (length pre, length pre + length c))] |}.

Lemma range_length :
  length text = p3 + length w + length post.
Proof.
  rewrite !length_app. cbn [length]. rewrite length_app. cbn [length].
  rewrite length_app. lia.
Qed.

Lemma range_verse : skipn p2 text = v ++ 45%N :: w ++ post.
Proof.
  replace p2 with (length pre + (length c + 1)) by lia.
  rewrite skipn_plus, skipn_plus. reflexivity.
Qed.

Lemma range_last : skipn p3 text = w ++ post.
Proof.
  replace p3 with (length v + 1 + p2) by lia.
  rewrite <- skipn_skipn, range_verse, skipn_plus. reflexivity.
Qed.

Lemma range_end : skipn (p3 + length w) text = post.
Proof. apply skipn_over. apply range_last. Qed.

Lemma range_hit : matchAt shorthandPattern text (length pre) = Some token.
Proof.
  destruct chapter_digits as [Hc Wc]. destruct verse_digits as [Hv Wv].
  destruct end_digits as [Hw Ww].
  set (s := text). set (p := length pre).
  destruct (before_token pre (c ++ 58%N :: v ++ 45%N :: w ++ post) pre_bare pre_ends)
    as (B1 & B2 & B3).
  fold s p in B1, B2, B3.
  assert (S0 : skipn p s = c ++ 58%N :: v ++ 45%N :: w ++ post) by apply skipn_exact.
  pose proof (skipn_over s p c _ S0) as S1.
  assert (E1 : nth_error s (p + length c) = Some 58%N).
  { rewrite <- (Nat.add_0_r (p + length c)), <- nth_error_skipn, S1. reflexivity. }
  pose proof range_verse as S2. fold s p in S2.
  pose proof range_last as S3. fold s p in S3.
  assert (E2 : nth_error s (S (p + length c) + length v) = Some 45%N).
  { rewrite <- (Nat.add_0_r (S (p + length c) + length v)), <- nth_error_skipn.
    rewrite (skipn_over s _ v _ S2). reflexivity. }
  assert (Hat : wordAt s p = true).
  { unfold wordAt. rewrite <- (Nat.add_0_r p), <- nth_error_skipn, S0.
    destruct (c ++ 58%N :: v ++ 45%N :: w ++ post) as [|x t] eqn:Ex.
    - apply app_eq_nil in Ex. tauto.
    - apply digit_word. apply (head_digit c (58%N :: v ++ 45%N :: w ++ post) x Hc Wc).
      rewrite Ex. reflexivity. }
  unfold matchAt. rewrite shorthandPattern_parts.
  rewrite m_seq, m_notBehind, B1, m_seq, m_notBehind, B2, m_seq, m_wordB.
  unfold boundary. rewrite B3, Hat. cbn [xorb].
  rewrite m_seq, m_group.
  rewrite (plus_over CDigit s p c _ _ _ S0 Hc Wc eq_refl).
  2: { intros j c' Hj. cbv beta. rewrite m_seq.
       apply (first_miss _ (CChar 58)); [reflexivity|].
       apply (hit_inside (CChar 58) s p c _ j S0); [lia|].
       intros ch Hin. simpl. apply digit_not; [|lia]. apply (forallb_In _ _ _ Wc Hin). }
  cbv beta. rewrite m_seq, m_set, E1. cbn [cmatch N.eqb Pos.eqb].
  rewrite m_seq, m_group.
  rewrite (plus_over CDigit s (S (p + length c)) v _ _ _ S2 Hv Wv eq_refl).
  2: { intros j c' Hj. cbv beta.
       destruct (inside_over s _ v _ j S2) as (ch & E & Hin); [lia|].
       destruct (inside_over s _ v _ (j - 1) S2) as (ch0 & E0 & Hin0); [lia|].
       replace j with (S (j - 1)) in * by lia.
       replace (S (j - 1) - 1) with (j - 1) in E0 by lia.
       apply (afterVerse_inside s (j - 1) _ ch0 ch E0); [| assumption |].
       - apply (forallb_In _ _ _ Wv Hin0).
       - apply (forallb_In _ _ _ Wv Hin). }
  cbv beta. rewrite m_seq, m_opt, m_seq, m_set, E2. cbn [cmatch N.eqb Pos.eqb].
  rewrite m_group.
  rewrite (plus_over CDigit s (S (S (p + length c) + length v)) w _ _ _ S3 Hw Ww
             (bare_head post post_bare)).
  2: { intros j c' Hj. cbv beta.
       destruct (Nat.ltb (S (p + length c) + length v) j); [|reflexivity].
       destruct (inside_over s _ w _ j S3) as (ch & E & Hin); [lia|].
       destruct (inside_over s _ w _ (j - 1) S3) as (ch0 & E0 & Hin0); [lia|].
       replace j with (S (j - 1)) in * by lia.
       replace (S (j - 1) - 1) with (j - 1) in E0 by lia.
       apply (wordEnd_inside s (j - 1) _ ch0 ch E0); [| assumption |].
       - apply (forallb_In _ _ _ Ww Hin0).
       - apply (forallb_In _ _ _ Ww Hin). }
  cbv beta.
  replace (Nat.ltb (S (p + length c) + length v)
             (S (S (p + length c) + length v) + length w)) with true
    by (symmetry; apply Nat.ltb_lt; lia).
  destruct (last_digit w Hw Ww) as (w' & ch0 & Hw' & Hd0).
  assert (Elast : nth_error s (S (S (p + length c) + length v) + length w') = Some ch0).
  { rewrite <- nth_error_skipn, S3, Hw', <- app_assoc. apply nth_error_exact. }
  assert (Hlen : S (S (p + length c) + length v) + length w
                 = S (S (S (p + length c) + length v) + length w')).
  { rewrite Hw', length_app. simpl. lia. }
  pose proof range_end as S4. fold s p in S4.
  rewrite Hlen in *.
  rewrite (wordEnd_end s _ _ ch0 post Elast Hd0 S4 post_bare post_starts). reflexivity.
Qed.

Lemma range_alone :
  allMatches shorthandPattern text (S (length text)) 0 = [token].
Proof.
  assert (Hex : exec shorthandPattern text 0 = Some token).
  { unfold exec. apply (OccurrenceFacts.scan_to _ _ _ (length pre)).
    - lia.
    - rewrite range_length. lia.
    - intros j Hj. apply shorthand_miss.
      apply (hit_inside CDigit text 0 pre _ j eq_refl); [lia|].
      intros ch Hin. apply (bare_In pre ch pre_bare Hin).
    - apply range_hit. }
  assert (Hno : exec shorthandPattern text (p3 + length w) = None).
  { unfold exec. apply OccurrenceFacts.scan_none_from. intros j Hj. apply shorthand_miss.
    unfold hit. replace j with (p3 + length w + (j - (p3 + length w))) by lia.
    rewrite <- nth_error_skipn, range_end.
    destruct (nth_error post _) as [x|] eqn:Ex; [|reflexivity].
    apply nth_error_In in Ex. apply (bare_In post x post_bare Ex). }
  cbn [allMatches]. rewrite Hex. unfold nextIndex. cbn [m_end m_index].
  replace (Nat.eqb (p3 + length w) (length pre)) with false
    by (symmetry; apply Nat.eqb_neq; lia).
  rewrite range_length. cbn [Nat.add allMatches]. cbn [Nat.add] in Hno. rewrite Hno.
  reflexivity.
Qed.

Lemma range_link b :
  rewriteShorthand b text token = shorthandRangeLink b c v w.
Proof.
  destruct chapter_digits as [Hc Wc]. destruct end_digits as [Hw Ww].
  assert (Hm : matched text token = c ++ 58%N :: v ++ 45%N :: w).
  { unfold matched, substring. cbn [m_index m_end]. rewrite skipn_exact.
    replace (p3 + length w - length pre)
      with (length (c ++ 58%N :: v ++ 45%N :: w))
      by (rewrite length_app; cbn [length]; rewrite length_app; cbn [length]; lia).
    replace (c ++ 58%N :: v ++ 45%N :: w ++ post)
      with ((c ++ 58%N :: v ++ 45%N :: w) ++ post)
      by (rewrite <- app_assoc; cbn [app]; rewrite <- app_assoc; reflexivity).
    apply firstn_exact. }
  assert (H1 : grp text token 1 = c).
  { unfold grp, FootnotesParser.grp, group, substring. cbn [m_caps cap Nat.eqb].
    rewrite skipn_exact.
    replace (length pre + length c - length pre) with (length c) by lia.
    apply firstn_exact. }
  assert (H2 : grp text token 2 = v).
  { unfold grp, FootnotesParser.grp, group, substring. cbn [m_caps cap Nat.eqb].
    rewrite range_verse.
    replace (p2 + length v - p2) with (length v) by lia.
    apply firstn_exact. }
  assert (H3 : group text token 3 = Some w).
  { unfold group, substring. cbn [m_caps cap Nat.eqb].
    rewrite range_last.
    replace (p3 + length w - p3) with (length w) by lia.
    rewrite firstn_exact. reflexivity. }
  assert (Hat : indexOf text (c ++ 58%N :: v ++ 45%N :: w) = Some (length pre)).
  { unfold indexOf.
    replace (pre ++ c ++ 58%N :: v ++ 45%N :: w ++ post)
      with (pre ++ (c ++ 58%N :: v ++ 45%N :: w) ++ post)
      by (rewrite <- app_assoc; cbn [app]; rewrite <- app_assoc; reflexivity).
    apply indexOf_token.
    - intros H. apply app_eq_nil in H. tauto.
    - intros x Hx. apply bare_no; [assumption|]. left.
      apply (head_digit c (58%N :: v ++ 45%N :: w) x Hc Wc Hx). }
  unfold rewriteShorthand. rewrite Hm, H1, H2, H3, Hat.
  assert (Hbefore : substring text 0 (length pre) = pre).
  { unfold substring. rewrite Nat.sub_0_r. cbn [skipn]. apply firstn_exact. }
  assert (Hafter : substringFrom text (length pre + length (c ++ 58%N :: v ++ 45%N :: w))
                   = post).
  { unfold substringFrom.
    replace (length pre + length (c ++ 58%N :: v ++ 45%N :: w)) with (p3 + length w)
      by (rewrite length_app; cbn [length]; rewrite length_app; cbn [length]; lia).
    apply range_end. }
  rewrite Hbefore, Hafter. unfold lastIndexOf, indexOf.
  change (js "]]") with (93%N :: [93%N]). change (js "[[") with (91%N :: [91%N]).
  rewrite !lastIndexOf_absent, !indexOf_absent
    by (apply bare_no; [assumption | auto]).
  cbn [idx Z.ltb Z.compare Pos.compare Pos.compare_cont CompOpp orb].
  destruct (jstring_eqb w []) eqn:E; [|reflexivity].
  apply JSFacts.jstring_eqb_eq in E. contradiction.
Qed.

Lemma range_rewritten b :
  replaceAll shorthandPattern text (rewriteShorthand b text)
  = pre ++ shorthandRangeLink b c v w ++ post.
Proof.
  unfold replaceAll. rewrite range_alone. cbn [splice m_index m_end].
  unfold substringFrom, substring. rewrite range_link, range_end, Nat.sub_0_r. cbn [skipn].
  rewrite firstn_exact. reflexivity.
Qed.

End Range.

(** X24: with a book, the last pass turns a range chapter:verse-endVerse
    that stands apart into one link: it leads to the first verse of the
    range, and its label is the whole range. *)
Theorem shorthand_range_is_linked_to_its_first_verse :
  forall b pre c v w post : jstring,
    b <> [] ->
    bare pre -> endsApart pre = true ->
    bare post -> startsApart post = true ->
    digitsText c -> digitsText v -> digitsText w ->
    shorthandPass (Some b) (pre ++ c ++ js ":" ++ v ++ js "-" ++ w ++ post)
    = pre ++ shorthandRangeLink b c v w ++ post.
Proof.
  intros b pre c v w post Hb H1 H2 H3 H4 Hc Hv Hw. unfold shorthandPass.
  destruct (jstring_eqb b []) eqn:E.
  - apply JSFacts.jstring_eqb_eq in E. contradiction.
  - apply (range_rewritten pre c v w post H1 H2 H3 H4 Hc Hv Hw b).
Qed.

Lemma shorthand_range_is_linked_to_its_first_verse_witness :
  js "John" <> []
  /\ bare (js "See ") /\ endsApart (js "See ") = true
  /\ bare (js ".") /\ startsApart (js ".") = true
  /\ digitsText (js "3") /\ digitsText (js "16") /\ digitsText (js "17")
  /\ shorthandPass (Some (js "John"))
       (js "See " ++ js "3" ++ js ":" ++ js "16" ++ js "-" ++ js "17" ++ js ".")
     = js "See " ++ shorthandRangeLink (js "John") (js "3") (js "16") (js "17") ++ js ".".
Proof.
  assert (H0 : js "John" <> []) by discriminate.
  assert (H1 : bare (js "See ")) by reflexivity.
  assert (H2 : endsApart (js "See ") = true) by reflexivity.
  assert (H3 : bare (js ".")) by reflexivity.
  assert (H4 : startsApart (js ".") = true) by reflexivity.
  assert (H5 : digitsText (js "3")) by (split; [discriminate | reflexivity]).
  assert (H6 : digitsText (js "16")) by (split; [discriminate | reflexivity]).
  assert (H7 : digitsText (js "17")) by (split; [discriminate | reflexivity]).
  repeat (split; [assumption|]).
  exact (shorthand_range_is_linked_to_its_first_verse (js "John") (js "See ")
           (js "3") (js "16") (js "17") (js ".") H0 H1 H2 H3 H4 H5 H6 H7).
Defined.

End ShorthandFacts.

(** * The book of an id *)

Module BookIdFacts.
Import MarkdownGenerator RunFacts DataTagFacts ShorthandFacts.

Local Abbreviation done := (fun (j : nat) (c : caps) => Some (j, c)).

Lemma alpha_not ch c0 :
  isAlpha ch = true -> (c0 < 65 \/ 90 < c0 < 97 \/ 122 < c0)%N -> N.eqb ch c0 = false.
Proof.
  intros H Hc. apply N.eqb_neq. unfold isAlpha, in_range in H.
  rewrite orb_true_iff, !andb_true_iff, !N.leb_le in H. lia.
Qed.

Lemma run_positive cl (x rest : jstring) :
  x <> [] -> forallb (cmatch cl) x = true -> Nat.ltb 0 (run cl (x ++ rest)) = true.
Proof.
  destruct x as [|x0 x]; [congruence|]. intros _ H. simpl in H |- *.
  apply andb_true_iff in H. destruct H as [-> _]. reflexivity.
Qed.

Lemma bookId_parts b c v rest :
  bookId b c v ++ rest = js "note_" ++ b ++ 95%N :: c ++ 95%N :: v ++ rest.
Proof. unfold bookId. rewrite <- !app_assoc. reflexivity. Qed.

(** The pattern of the ids matches an id of a book at its start, and its
    group is the book. *)
Lemma idPattern_book b c v rest :
  lettersText b -> digitsText c -> digitsText v ->
  exists e,
    matchAt idPattern (bookId b c v ++ rest) 0
    = Some {| m_index := 0; m_end := e; m_caps := [(1, (5, 5 + length b))] |}.
Proof.
  intros [Hb Wb] [Hc Wc] [Hv Wv]. rewrite bookId_parts.
  set (s := js "note_" ++ b ++ 95%N :: c ++ 95%N :: v ++ rest).
  assert (S0 : skipn 5 s = b ++ 95%N :: c ++ 95%N :: v ++ rest)
    by apply (skipn_exact (js "note_")).
  pose proof (skipn_over s 5 b _ S0) as S1.
  assert (E1 : nth_error s (5 + length b) = Some 95%N).
  { rewrite <- (Nat.add_0_r (5 + length b)), <- nth_error_skipn, S1. reflexivity. }
  assert (S2 : skipn (S (5 + length b)) s = c ++ 95%N :: v ++ rest).
  { rewrite (skipn_nth s _ _ E1) in S1. congruence. }
  pose proof (skipn_over s _ c _ S2) as S3.
  assert (E3 : nth_error s (S (5 + length b) + length c) = Some 95%N).
  { rewrite <- (Nat.add_0_r (S (5 + length b) + length c)), <- nth_error_skipn, S3.
    reflexivity. }
  assert (S4 : skipn (S (S (5 + length b) + length c)) s = v ++ rest).
  { rewrite (skipn_nth s _ _ E3) in S3. congruence. }
  unfold matchAt, idPattern, RCat. cbn [fold_right].
  rewrite m_seq, lit_m. cbn [skipn]. unfold s at 1. rewrite startsWith_prefix.
  change (0 + length (js "note_")) with 5.
  rewrite m_seq, m_group, (plus_over CAlpha s 5 b _ _ _ S0 Hb Wb eq_refl).
  2: { intros j c' Hj. cbv beta. apply (first_miss _ (CChar 95)); [reflexivity|].
       apply (hit_inside (CChar 95) s 5 b _ j S0); [lia|].
       intros ch Hin. simpl. apply alpha_not; [|lia]. apply (forallb_In _ _ _ Wb Hin). }
  cbv beta. rewrite m_seq, m_set, E1. cbn [cmatch N.eqb Pos.eqb].
  rewrite m_seq, (plus_over CDigit s _ c _ _ _ S2 Hc Wc eq_refl).
  2: { intros j c' Hj. cbv beta. apply (first_miss _ (CChar 95)); [reflexivity|].
       apply (hit_inside (CChar 95) s _ c _ j S2); [lia|].
       intros ch Hin. simpl. apply digit_not; [|lia]. apply (forallb_In _ _ _ Wc Hin). }
  cbv beta. rewrite m_seq, m_set, E3. cbn [cmatch N.eqb Pos.eqb].
  rewrite m_seq, plus_run by (right; rewrite m_eps; discriminate).
  rewrite S4, (run_positive CDigit v rest Hv Wv), m_eps.
  eexists. reflexivity.
Qed.

Lemma bookId_book (f : ParsedFootnote) (b c v rest : jstring) :
  lettersText b -> digitsText c -> digitsText v ->
  id f = bookId b c v ++ rest ->
  extractBookFromFootnote (Some f) = Some b.
Proof.
  intros Hb Hc Hv Hid. unfold extractBookFromFootnote. rewrite Hid.
  destruct (jstring_eqb (bookId b c v ++ rest) []) eqn:E.
  - apply JSFacts.jstring_eqb_eq in E. rewrite bookId_parts in E. discriminate.
  - destruct (idPattern_book b c v rest Hb Hc Hv) as [e He].
    unfold match_, exec. rewrite Nat.sub_0_r. cbn [scan]. rewrite He.
    unfold grp, FootnotesParser.grp, group, substring. cbn [m_caps cap Nat.eqb].
    rewrite bookId_parts. rewrite (skipn_exact (js "note_")).
    replace (5 + length b - 5) with (length b) by lia.
    rewrite firstn_exact. reflexivity.
Qed.

(** X22: the book is read back from an id that was made of a book, a
    chapter and a verse, whatever follows the verse in the id. *)
Theorem book_is_read_back_from_its_id :
  forall (f : ParsedFootnote) (b c v rest : jstring),
    lettersText b -> digitsText c -> digitsText v ->
    id f = bookId b c v ++ rest ->
    extractBookFromFootnote (Some f) = Some b.
Proof.
  intros f b c v rest Hb Hc Hv Hid. apply (bookId_book f b c v rest); assumption.
Qed.

Lemma book_is_read_back_from_its_id_witness :
  lettersText (js "John") /\ digitsText (js "3") /\ digitsText (js "1")
  /\ id johnFootnote = bookId (js "John") (js "3") (js "1") ++ []
  /\ extractBookFromFootnote (Some johnFootnote) = Some (js "John").
Proof.
  assert (H1 : lettersText (js "John")) by (split; [discriminate | reflexivity]).
  assert (H2 : digitsText (js "3")) by (split; [discriminate | reflexivity]).
  assert (H3 : digitsText (js "1")) by (split; [discriminate | reflexivity]).
  assert (H4 : id johnFootnote = bookId (js "John") (js "3") (js "1") ++ [])
    by reflexivity.
  repeat (split; [assumption|]).
  exact (book_is_read_back_from_its_id johnFootnote (js "John") (js "3") (js "1") []
           H1 H2 H3 H4).
Defined.

Lemma digits_plain (t : jstring) : forallb isDigit t = true -> ~ In 60%N t.
Proof.
  intros H Hin. pose proof (forallb_In _ _ _ H Hin) as Hd. vm_compute in Hd. discriminate.
Qed.

(** X23: for a footnote without references whose id names a book, the whole
    rewrite of a content without markup links a chapter:verse that stands
    apart to that verse of the book of the id, with the chapter of the
    text and not that of the id, and changes nothing else. *)
Theorem plain_content_is_linked_to_the_book_of_the_id :
  forall (f : ParsedFootnote) (b c0 v0 rest pre c v post : jstring),
    lettersText b -> digitsText c0 -> digitsText v0 ->
    id f = bookId b c0 v0 ++ rest ->
    verseReferences f = [] ->
    ~ In 60%N pre -> ~ In 60%N post ->
    bare pre -> endsApart pre = true ->
    bare post -> startsApart post = true ->
    digitsText c -> digitsText v ->
    processFootnoteContent (pre ++ c ++ js ":" ++ v ++ post) (Some f)
    = Some (pre ++ shorthandLink b c v ++ post).
Proof.
  intros f b c0 v0 rest pre c v post Hb Hc0 Hv0 Hid Hrefs Hpre Hpost H1 H2 H3 H4 Hc Hv.
  assert (Hplain : ~ In 60%N (pre ++ c ++ js ":" ++ v ++ post)).
  { intros Hin. apply in_app_or in Hin. destruct Hin as [Hin|Hin]; [exact (Hpre Hin)|].
    apply in_app_or in Hin. destruct Hin as [Hin|Hin].
    { apply (digits_plain c (proj2 Hc) Hin). }
    apply in_app_or in Hin. destruct Hin as [Hin|Hin].
    { simpl in Hin. destruct Hin as [Hin|[]]. discriminate. }
    apply in_app_or in Hin. destruct Hin as [Hin|Hin]; [|exact (Hpost Hin)].
    apply (digits_plain v (proj2 Hv) Hin). }
  pose proof (bookId_book f b c0 v0 rest Hb Hc0 Hv0 Hid) as Hbook.
  unfold processFootnoteContent.
  rewrite (RewriteFacts.rewriteDataRefs_plain _ Hplain), (RewriteFacts.stripTags_plain _ Hplain).
  unfold linkReferences. rewrite Hrefs, Hbook. f_equal. unfold shorthandPass.
  destruct (jstring_eqb b []) eqn:E.
  - apply JSFacts.jstring_eqb_eq in E. destruct Hb as [Hb _]. contradiction.
  - apply (token_rewritten pre c v post H1 H2 H3 H4 Hc Hv b).
Qed.

Lemma plain_content_is_linked_to_the_book_of_the_id_witness :
  lettersText (js "John") /\ digitsText (js "3") /\ digitsText (js "1")
  /\ id johnFootnote = bookId (js "John") (js "3") (js "1") ++ []
  /\ verseReferences johnFootnote = []
  /\ ~ In 60%N (js "See ") /\ ~ In 60%N (js ".")
  /\ bare (js "See ") /\ endsApart (js "See ") = true
  /\ bare (js ".") /\ startsApart (js ".") = true
  /\ digitsText (js "1") /\ digitsText (js "4")
  /\ processFootnoteContent (js "See " ++ js "1" ++ js ":" ++ js "4" ++ js ".")
       (Some johnFootnote)
     = Some (js "See " ++ shorthandLink (js "John") (js "1") (js "4") ++ js ".").
Proof.
  assert (H1 : lettersText (js "John")) by (split; [discriminate | reflexivity]).
  assert (H2 : digitsText (js "3")) by (split; [discriminate | reflexivity]).
  assert (H3 : digitsText (js "1")) by (split; [discriminate | reflexivity]).
  assert (H4 : id johnFootnote = bookId (js "John") (js "3") (js "1") ++ [])
    by reflexivity.
  assert (H5 : verseReferences johnFootnote = []) by reflexivity.
  assert (H6 : ~ In 60%N (js "See ")) by (simpl; intuition discriminate).
  assert (H7 : ~ In 60%N (js ".")) by (simpl; intuition discriminate).
  assert (H8 : bare (js "See ")) by reflexivity.
  assert (H9 : endsApart (js "See ") = true) by reflexivity.
  assert (H10 : bare (js ".")) by reflexivity.
  assert (H11 : startsApart (js ".") = true) by reflexivity.
  assert (H12 : digitsText (js "4")) by (split; [discriminate | reflexivity]).
  repeat (split; [assumption|]).
  exact (plain_content_is_linked_to_the_book_of_the_id johnFootnote
           (js "John") (js "3") (js "1") [] (js "See ") (js "1") (js "4") (js ".")
           H1 H2 H3 H4 H5 H6 H7 H8 H9 H10 H11 H3 H12).
Defined.

End BookIdFacts.

(** * One strategy for the references of a note *)

Module StrategyFacts.
Import FootnotesParser MarkdownGenerator DataTagFacts.

Lemma scan_alone note :
  explicitReferences note = [] ->
  extractVerseReferences note = findBibleReferences (fullText note).
Proof.
  unfold explicitReferences, extractVerseReferences. intros ->.
  destruct (findBibleReferences (fullText note)); reflexivity.
Qed.

Lemma tags_alone note :
  explicitReferences note <> [] ->
  extractVerseReferences note = Some (explicitReferences note).
Proof.
  unfold explicitReferences, extractVerseReferences.
  destruct (dataRefReferences _); [congruence | reflexivity].
Qed.

(** C5.  The references of a note come from one strategy alone, never a
    mix: the scan of the plain text runs if and only if the explicit tags
    yield no reference, and its result is then the whole list; otherwise
    the list is that of the explicit tags.  What the explicit tags yield
    are the references of the tags that fit the grammar: a note whose
    first tag fits it has the reference of that tag first, followed by
    those of the later tags, and the text is not scanned; a note whose tag
    does not fit it, for want of a colon, and whose later markup yields no
    reference, has the references of the scan, although it has a tag. *)
Theorem references_follow_the_tags_that_fit :
  forall note : NoteElement,
    (exists scan,
        findBibleReferences (fullText note) = Some scan
        /\ extractVerseReferences note
           = Some (match explicitReferences note with
                   | [] => scan
                   | _ :: _ => explicitReferences note
                   end))
    /\ (forall pre code sp c v range display_ post : jstring,
          innerHtml note
          = Some (pre ++ dataTagOf (code ++ sp ++ c ++ 58%N :: v ++ range) display_
                  ++ post) ->
          ~ occursIn tagHead pre ->
          wordText code -> spaceText sp -> digitsText c -> digitsText v ->
          range = [] \/ (exists e, digitsText e /\ range = 45%N :: e) ->
          display_ <> [] -> ~ In 60%N display_ ->
          extractVerseReferences note
          = Some (taggedReference code c v range display_ :: dataRefReferences post))
    /\ (forall pre ref display_ post : jstring,
          innerHtml note = Some (pre ++ dataTagOf ref display_ ++ post) ->
          ~ occursIn tagHead pre ->
          ref <> [] -> ~ In 34%N ref -> ~ In 58%N ref ->
          display_ <> [] -> ~ In 60%N display_ ->
          dataRefReferences post = [] ->
          explicitReferences note = []
          /\ extractVerseReferences note = findBibleReferences (fullText note)).
Proof.
  intros note. split; [|split].
  - destruct (ParserFacts.findBibleReferences_spec (fullText note)) as (ms1 & ms2 & H & _).
    eexists. split; [exact H|].
    destruct (explicitReferences note) as [|r rs] eqn:E.
    + rewrite (scan_alone note E). exact H.
    + rewrite <- E. apply tags_alone. rewrite E. discriminate.
  - intros pre code sp c v range d post Hhtml Hpre Hcode Hsp Hc Hv Hrange Hd Hl.
    destruct (reference_unquoted code sp c v range Hcode Hsp Hc Hv Hrange) as [Hne Hq].
    assert (E : explicitReferences note
                = taggedReference code c v range d :: dataRefReferences post).
    { unfold explicitReferences. rewrite Hhtml.
      rewrite dataRefReferences_tag by assumption.
      rewrite (parseDataRef_reference code sp c v range d Hcode Hsp Hc Hv Hrange).
      reflexivity. }
    rewrite <- E. apply tags_alone. rewrite E. discriminate.
  - intros pre ref d post Hhtml Hpre Hr Hq Hcolon Hd Hl Hpost.
    assert (E : explicitReferences note = []).
    { unfold explicitReferences. rewrite Hhtml.
      rewrite dataRefReferences_tag by assumption.
      rewrite (parseDataRef_no_colon ref d Hcolon). exact Hpost. }
    split; [exact E | exact (scan_alone note E)].
Qed.

Lemma references_follow_the_tags_that_fit_witness :
  (innerHtml (noteOf (js "See " ++ dataTagOf (js "Jn" ++ js " " ++ js "1" ++ 58%N :: js "24" ++ [])
                                    (js "1:24") ++ js ".")
                     (js "See 1:24."))
   = Some (js "See " ++ dataTagOf (js "Jn" ++ js " " ++ js "1" ++ 58%N :: js "24" ++ [])
                          (js "1:24") ++ js ".")
   /\ ~ occursIn tagHead (js "See ")
   /\ wordText (js "Jn") /\ spaceText (js " ") /\ digitsText (js "1")
   /\ digitsText (js "24")
   /\ (@nil N = [] \/ (exists e, digitsText e /\ @nil N = 45%N :: e))
   /\ js "1:24" <> [] /\ ~ In 60%N (js "1:24")
   /\ extractVerseReferences
        (noteOf (js "See " ++ dataTagOf (js "Jn" ++ js " " ++ js "1" ++ 58%N :: js "24" ++ [])
                              (js "1:24") ++ js ".")
                (js "See 1:24."))
      = Some (taggedReference (js "Jn") (js "1") (js "24") [] (js "1:24")
              :: dataRefReferences (js ".")))
  /\ (innerHtml malformedNote
      = Some (js "See " ++ dataTagOf (js "John") (js "there") ++ js " and Mt 5:3.")
      /\ ~ occursIn tagHead (js "See ")
      /\ js "John" <> [] /\ ~ In 34%N (js "John") /\ ~ In 58%N (js "John")
      /\ js "there" <> [] /\ ~ In 60%N (js "there")
      /\ dataRefReferences (js " and Mt 5:3.") = []
      /\ explicitReferences malformedNote = []
      /\ extractVerseReferences malformedNote
         = findBibleReferences (fullText malformedNote)).
Proof.
  assert (H0 : ~ occursIn tagHead (js "See ")).
  { intros (i & Hi & Ho). simpl in Hi. lia. }
  assert (H2 : wordText (js "Jn")) by (split; [discriminate | reflexivity]).
  assert (H3 : spaceText (js " ")) by (split; [discriminate | reflexivity]).
  assert (H4 : digitsText (js "1")) by (split; [discriminate | reflexivity]).
  assert (H5 : digitsText (js "24")) by (split; [discriminate | reflexivity]).
  assert (H6 : @nil N = [] \/ (exists e, digitsText e /\ @nil N = 45%N :: e))
    by (left; reflexivity).
  assert (H7 : js "1:24" <> []) by discriminate.
  assert (H8 : ~ In 60%N (js "1:24")) by (simpl; intuition discriminate).
  assert (K2 : js "John" <> []) by discriminate.
  assert (K3 : ~ In 34%N (js "John")) by (simpl; intuition discriminate).
  assert (K4 : ~ In 58%N (js "John")) by (simpl; intuition discriminate).
  assert (K5 : js "there" <> []) by discriminate.
  assert (K6 : ~ In 60%N (js "there")) by (simpl; intuition discriminate).
  assert (K7 : dataRefReferences (js " and Mt 5:3.") = []) by (vm_compute; reflexivity).
  split.
  - split; [reflexivity|]. repeat (split; [assumption|]).
    exact (proj1 (proj2 (references_follow_the_tags_that_fit
                           (noteOf (js "See " ++ dataTagOf (js "Jn" ++ js " " ++ js "1"
                                                            ++ 58%N :: js "24" ++ [])
                                               (js "1:24") ++ js ".")
                                   (js "See 1:24."))))
             (js "See ") (js "Jn") (js " ") (js "1") (js "24") [] (js "1:24") (js ".")
             eq_refl H0 H2 H3 H4 H5 H6 H7 H8).
  - split; [reflexivity|]. do 7 (split; [assumption|]).
    exact (proj2 (proj2 (references_follow_the_tags_that_fit malformedNote))
             (js "See ") (js "John") (js "there") (js " and Mt 5:3.")
             eq_refl H0 K2 K3 K4 K5 K6 K7).
Defined.

(** C5 on a note that has an explicit tag whose reference does not fit the
    grammar: the pattern of the tags finds the tag, it yields no reference,
    and the references of the note are those of the scan of its text. *)
Theorem malformed_tag_leaves_the_scan :
  matchAll dataRefPattern
    (match innerHtml malformedNote with Some h => h | None => [] end)
  = [dataTagOf (js "John") (js "there")]
  /\ explicitReferences malformedNote = []
  /\ extractVerseReferences malformedNote
     = Some [Scenarios.reference "Matthew" 5 3 " Mt 5:3";
             Scenarios.reference "Matthew" 5 3 "Mt 5:3"].
Proof. repeat split; vm_compute; reflexivity. Qed.

End StrategyFacts.

(** * A display text inside another *)

Module EmbeddedFacts.
Import MarkdownGenerator RunFacts DataTagFacts OccurrenceFacts.











End EmbeddedFacts.
